(** * The name-suggestion-index service of iD: candidate gathering,
      index build and tag upgrade

    A shallow embedding of the NSI service module ([loadNsiData],
    [gatherKVs], [gatherNames], [gatherTuples], [_upgradeTags],
    [_isGenericName]) and the properties the specification states about it.

    Conventions of the embedding.
    - A JavaScript string is a [string]; one [ascii] stands for one code unit
      in the range 0..255, so lengths, case folding and the white-space class
      are those of JavaScript on Latin-1 text.
    - An object used as a dictionary (a feature's tags, the dataset, the
      trees) is an association list in own-key enumeration order, and a key
      that spells an array index is enumerated where it was inserted.  The
      build reads the tree of a key of the data through the prototype
      chain, see [inherited]; the other reads are of own keys.
    - A [Set] is a duplicate-free list in insertion order, a [Map] an
      association list in insertion order.
    - [undefined] is [None]; a property read on [undefined] raises
      [TypeError].
    - The feature's tags live in an object store: [_upgradeTags] receives a
      reference and every write names the object it goes to.
    - The matcher, the preset manager and the [RegExp] constructor are
      parameters: functions of the values they are given, which may
      throw. *)

From Stdlib Require Import String Ascii List Arith Lia Bool Sorted Permutation.
From stdpp Require Import base list strings.
Import ListNotations.
Open Scope string_scope.
Open Scope list_scope.
Open Scope nat_scope.

(** ** Code units and character classes *)

Module Chars.

Definition code (c : ascii) : nat := nat_of_ascii c.

Definition between (lo hi n : nat) : bool := (lo <=? n) && (n <=? hi).

(** [Canonicalize] of a regular expression with the [i] flag and without the
    [u] flag: the upper-case mapping when it stays a single code unit.  On
    0..255 that is a-z and the Latin-1 lower-case letters except the
    division sign; 181, 223 and 255 have no upper case in range. *)
Definition canon (c : ascii) : nat :=
  let n := code c in
  if between 97 122 n then n - 32
  else if between 224 254 n && negb (n =? 247) then n - 32
  else n.

Definition ci_char (a b : ascii) : bool := canon a =? canon b.

(** [\w] *)
Definition is_word (c : ascii) : bool :=
  let n := code c in
  between 65 90 n || between 97 122 n || between 48 57 n || (n =? 95).

(** Line terminators in range: LF and CR.  [.] matches anything else. *)
Definition is_line_terminator (c : ascii) : bool :=
  let n := code c in (n =? 10) || (n =? 13).

(** [\s], also the characters [trim] strips: TAB, LF, VT, FF, CR, SP, NBSP. *)
Definition is_space (c : ascii) : bool :=
  let n := code c in between 9 13 n || (n =? 32) || (n =? 160).

Definition is_dot (c : ascii) : bool := negb (is_line_terminator c).

End Chars.

(** ** Regular expressions: what [RegExp.prototype.test] decides *)

Module Regex.
Import Chars.

Inductive regex : Type :=
| Void
| Eps
| Cls (p : ascii -> bool)
| Cat (r1 r2 : regex)
| Alt (r1 r2 : regex)
| Star (r : regex).

Fixpoint nullable (r : regex) : bool :=
  match r with
  | Void => false
  | Eps => true
  | Cls _ => false
  | Cat r1 r2 => nullable r1 && nullable r2
  | Alt r1 r2 => nullable r1 || nullable r2
  | Star _ => true
  end.

Fixpoint deriv (c : ascii) (r : regex) : regex :=
  match r with
  | Void => Void
  | Eps => Void
  | Cls p => if p c then Eps else Void
  | Cat r1 r2 =>
      if nullable r1 then Alt (Cat (deriv c r1) r2) (deriv c r2)
      else Cat (deriv c r1) r2
  | Alt r1 r2 => Alt (deriv c r1) (deriv c r2)
  | Star r1 => Cat (deriv c r1) (Star r1)
  end.

Fixpoint matches_list (r : regex) (s : list ascii) : bool :=
  match s with
  | [] => nullable r
  | c :: s' => matches_list (deriv c r) s'
  end.

(** The whole string is in the language of [r]. *)
Definition matches (r : regex) (s : string) : bool :=
  matches_list r (list_ascii_of_string s).

(** Pattern syntax, as it is spelled in the source. *)
Definition any : regex := Cls (fun _ => true).
Definition Plus (r : regex) : regex := Cat r (Star r).
Definition Opt (r : regex) : regex := Alt Eps r.
Definition w : regex := Cls is_word.          (* \w *)
Definition s_ : regex := Cls is_space.        (* \s *)
Definition dot : regex := Cls is_dot.         (* .  *)
Definition chr (c : ascii) : regex := Cls (Ascii.eqb c).
Definition chr_i (c : ascii) : regex := Cls (ci_char c).

Fixpoint lit_list_i (l : list ascii) : regex :=
  match l with
  | [] => Eps
  | c :: l' => Cat (chr_i c) (lit_list_i l')
  end.

(** A literal under the [i] flag. *)
Definition lit_i (s : string) : regex := lit_list_i (list_ascii_of_string s).

Fixpoint lit_list (l : list ascii) : regex :=
  match l with
  | [] => Eps
  | c :: l' => Cat (chr c) (lit_list l')
  end.

(** A literal without flags. *)
Definition lit (s : string) : regex := lit_list (list_ascii_of_string s).

Fixpoint alts (rs : list regex) : regex :=
  match rs with
  | [] => Void
  | [r] => r
  | r :: rs' => Alt r (alts rs')
  end.

(** A regular expression literal: its body and whether it opens with [^]
    and closes with [$]. *)
Record RegExp : Type := mkRegExp { bol : bool; body : regex; eol : bool }.

(** [re.test(s)]: some substring matches, anchored as the pattern says. *)
Definition test (re : RegExp) (s : string) : bool :=
  matches (Cat (if bol re then Eps else Star any)
               (Cat (body re) (if eol re then Eps else Star any))) s.

(** The language of a regular expression, the reference the derivative
    matcher is checked against. *)
Inductive lang : regex -> list ascii -> Prop :=
| lang_eps : lang Eps []
| lang_cls p c : p c = true -> lang (Cls p) [c]
| lang_cat r1 r2 l1 l2 : lang r1 l1 -> lang r2 l2 -> lang (Cat r1 r2) (l1 ++ l2)
| lang_alt_l r1 r2 l : lang r1 l -> lang (Alt r1 r2) l
| lang_alt_r r1 r2 l : lang r2 l -> lang (Alt r1 r2) l
| lang_star_nil r : lang (Star r) []
| lang_star_app r l1 l2 : lang r l1 -> lang (Star r) l2 -> lang (Star r) (l1 ++ l2).

End Regex.

(** ** The JavaScript values the service handles *)

Module JS.
Import Chars.

(** *** Strings *)

Definition str (l : list ascii) : string := string_of_list_ascii l.
Definition chars (s : string) : list ascii := list_ascii_of_string s.

(** A string is falsy exactly when it is empty. *)
Definition nonempty (s : string) : bool := negb (String.eqb s EmptyString).

(** Truthiness of a value that is a string or [undefined]. *)
Definition truthy (o : option string) : bool :=
  match o with
  | Some s => nonempty s
  | None => false
  end.

(** A property key computed from a value: [undefined] becomes the text
    ["undefined"]. *)
Definition key_of (o : option string) : string := default "undefined" o.

(** The property names every object inherits from [Object.prototype]: a
    read [o[k]] of a name that is no own key of [o] finds them, and finds
    [undefined] for any other name. *)
Definition inherited (k : string) : bool :=
  existsb (String.eqb k)
    ["constructor"; "__proto__"; "__defineGetter__"; "__defineSetter__";
     "__lookupGetter__"; "__lookupSetter__"; "hasOwnProperty"; "isPrototypeOf";
     "propertyIsEnumerable"; "toLocaleString"; "toString"; "valueOf"].

Fixpoint split_list (sep : ascii) (l : list ascii) : list (list ascii) :=
  match l with
  | [] => [[]]
  | c :: l' =>
      if Ascii.eqb c sep then [] :: split_list sep l'
      else match split_list sep l' with
           | [] => [[c]]
           | p :: ps => (c :: p) :: ps
           end
  end.

(** [s.split(sep, limit)] for a one-character separator. *)
Definition split (sep : ascii) (limit : nat) (s : string) : list string :=
  map str (firstn limit (split_list sep (chars s))).

(** [s.replace(pat, rep)] with a string pattern: the first occurrence only. *)
Fixpoint replace_first (pat rep s : string) : string :=
  if String.prefix pat s
  then rep +:+ substring (String.length pat) (String.length s - String.length pat) s
  else match s with
       | EmptyString => EmptyString
       | String c s' => String c (replace_first pat rep s')
       end.

Fixpoint trim_start (l : list ascii) : list ascii :=
  match l with
  | c :: l' => if is_space c then trim_start l' else l
  | [] => []
  end.

(** [s.trim()] *)
Definition trim (s : string) : string :=
  str (rev (trim_start (rev (trim_start (chars s))))).

(** *** Objects used as dictionaries, and [Map]s *)

Section alist.
Context {K V : Type} `{EqDecision K}.

Fixpoint aget (k : K) (m : list (K * V)) : option V :=
  match m with
  | [] => None
  | (k', v) :: m' => if decide (k = k') then Some v else aget k m'
  end.

(** Assignment keeps the place of a key that exists and appends a new one. *)
Fixpoint aset (k : K) (v : V) (m : list (K * V)) : list (K * V) :=
  match m with
  | [] => [(k, v)]
  | (k', v') :: m' =>
      if decide (k = k') then (k', v) :: m' else (k', v') :: aset k v m'
  end.

Fixpoint adel (k : K) (m : list (K * V)) : list (K * V) :=
  match m with
  | [] => []
  | (k', v') :: m' =>
      if decide (k = k') then adel k m' else (k', v') :: adel k m'
  end.

Definition akeys (m : list (K * V)) : list K := map fst m.

Definition ahas (k : K) (m : list (K * V)) : bool :=
  match aget k m with Some _ => true | None => false end.
End alist.

(** A feature's tags. *)
Definition Tags : Type := list (string * string).

(** [Object.assign(target, source)] *)
Definition assign (target source : Tags) : Tags :=
  fold_left (fun acc kv => aset kv.1 kv.2 acc) source target.

(** *** Sets of strings *)

Definition JSSet : Type := list string.

Definition has (x : string) (s : JSSet) : bool :=
  existsb (String.eqb x) s.

Definition add (x : string) (s : JSSet) : JSSet :=
  if has x s then s else s ++ [x].

Definition size (s : JSSet) : nat := length s.

(** [new Set([...a, ...b])] *)
Definition set_of (l : list string) : JSSet :=
  fold_left (fun acc x => add x acc) l [].

(** *** Exceptions *)

(** What is thrown: the two kinds of error this module meets by name, and
    anything else a library throws. *)
Inductive Error : Type := TypeError | SyntaxError | OtherError.

Inductive Res (A : Type) : Type :=
| Ok (a : A)
| Throw (e : Error).
Arguments Ok {A} a.
Arguments Throw {A} e.

Definition rbind {A B} (m : Res A) (f : A -> Res B) : Res B :=
  match m with
  | Ok a => f a
  | Throw e => Throw e
  end.

(** *** The object store *)

(** A reference is the index of its object. *)
Abbreviation ref := nat (only parsing).
Abbreviation Heap := (list Tags) (only parsing).

(** A computation that reads and writes objects and may throw. *)
Definition M (A : Type) : Type := Heap -> Heap * Res A.

Definition ret {A} (a : A) : M A := fun h => (h, Ok a).

Definition bind {A B} (m : M A) (f : A -> M B) : M B :=
  fun h => match m h with
           | (h', Ok a) => f a h'
           | (h', Throw e) => (h', Throw e)
           end.

Definition lift {A} (r : Res A) : M A := fun h => (h, r).

(** [{}] filled with the entries of [o]: a new object. *)
Definition new_object (o : Tags) : M ref :=
  fun h => (h ++ [o], Ok (length h)).

Definition get_object (r : ref) : M Tags :=
  fun h => match h !! r with
           | Some o => (h, Ok o)
           | None => (h, Throw TypeError)
           end.

(** The one way an object is written. *)
Definition update (r : ref) (f : Tags -> Tags) : M unit :=
  fun h => match h !! r with
           | Some o => (<[r := f o]> h, Ok tt)
           | None => (h, Throw TypeError)
           end.

(** [r[k]] *)
Definition get_prop (r : ref) (k : string) : M (option string) :=
  bind (get_object r) (fun o => ret (aget k o)).

(** [r[k] = v] *)
Definition set_prop (r : ref) (k v : string) : M unit := update r (aset k v).

(** [delete r[k]] *)
Definition delete_prop (r : ref) (k : string) : M unit := update r (adel k).

(** [Object.assign(r, source)] *)
Definition assign_to (r : ref) (source : Tags) : M unit :=
  update r (fun o => assign o source).

Fixpoint forEachM {A} (f : A -> M unit) (l : list A) : M unit :=
  match l with
  | [] => ret tt
  | x :: l' => bind (f x) (fun _ => forEachM f l')
  end.

End JS.

Notation "x <- m ;; k" := (JS.rbind m (fun x => k))
  (at level 20, m at level 99, k at level 200).
Notation "x <~ m ;; k" := (JS.bind m (fun x => k))
  (at level 20, m at level 99, k at level 200).

(** ** The data the service holds *)

Module NSI.
Import Chars Regex JS.

(** A pair of values filed under the keys ['primary'] and ['alternate']. *)
Record Prio (A : Type) : Type := mkPrio { primary : A; alternate : A }.
Arguments mkPrio {A} _ _.
Arguments primary {A} _.
Arguments alternate {A} _.

Inductive Which : Type := Primary | Alternate.

(** [o[which]] *)
Definition pick {A} (which : Which) (o : Prio A) : A :=
  match which with
  | Primary => primary o
  | Alternate => alternate o
  end.

(** An item of the index.  [item_tkv] and [item_mainTag] are absent in the
    downloaded data and written by [loadNsiData]. *)
Record Item : Type := mkItem {
  item_id : string;
  item_tags : Tags;
  item_tkv : option string;
  item_mainTag : option string;
  item_preserveTags : option (list string)
}.

Record Properties : Type := mkProperties {
  props_preserveTags : option (list string)
}.

Record Category : Type := mkCategory {
  items : option (list Item);
  properties : option Properties
}.

Record Tree : Type := mkTree { mainTag : string }.

(** An entry of the replacement list: each field is absent ([None]), [null]
    ([Some None]) or a string. *)
Record Replacement : Type := mkReplacement {
  wikidata : option (option string);
  wikipedia : option (option string)
}.

(** A result of the matcher. *)
Record Hit : Type := mkHit { itemID : string; match_ : string }.

(** A [{k, v, n}] tuple to try. *)
Record Tuple : Type := mkTuple {
  tuple_k : string;
  tuple_v : option string;
  tuple_n : string
}.

Record Preset : Type := mkPreset { preset_id : string }.

Definition Data : Type := list (string * Category).
Definition KVT : Type := list (option string * list (option string * string)).

(** Sometimes a feature tagged like [building=yes] can be upgraded. *)
Definition buildingPreset (id : string) : bool :=
  existsb (String.eqb id)
    ["building/commercial"; "building/government"; "building/hotel";
     "building/retail"; "building/office"; "building/supermarket";
     "building/yes"].

(** [/:(colou?r|type|forward|backward|left|right|etymology|pronunciation|wikipedia)$/i] *)
Definition notNames : RegExp :=
  mkRegExp false
    (Cat (lit_i ":")
       (alts [Cat (lit_i "colo") (Cat (Opt (lit_i "u")) (lit_i "r"));
              lit_i "type"; lit_i "forward"; lit_i "backward"; lit_i "left";
              lit_i "right"; lit_i "etymology"; lit_i "pronunciation";
              lit_i "wikipedia"]))
    true.

(** [/;/] *)
Definition semicolon : RegExp := mkRegExp false (chr ";") false.

(** The backslash, code unit 92. *)
Definition backslash : ascii := ascii_of_nat 92.

(** The set of characters [escapeRegex] escapes: the hyphen, the slash, the
    backslash and [^$*+?.()|[]{}]. *)
Definition is_special (c : ascii) : bool :=
  existsb (Ascii.eqb c)
    (chars "-/" ++ backslash :: chars "^$*+?.()|[]{}").

Fixpoint escape_list (l : list ascii) : list ascii :=
  match l with
  | [] => []
  | c :: l' =>
      if is_special c then backslash :: c :: escape_list l'
      else c :: escape_list l'
  end.

(** [s.replace(/[-\/\\^$*+?.()|[\]{}]/g, '\\$&')] *)
Definition escapeRegex (s : string) : string := str (escape_list (chars s)).

Section Service.
(** A location [[lon, lat]]; only handed on to the matcher. *)
Context {Loc : Type}.

(** [matcher.match(k, v, n, loc)]; [None] is a [null] result. *)
Definition MatchFn : Type :=
  string -> option string -> string -> option Loc -> option (list Hit).

(** The cache [_nsi] once [loadNsiData] has assigned it.  [dissolved] maps
    the id of a dissolved item to the list of its dissolutions, an array and
    so a truthy value: [_nsi.dissolved[itemID]] is truthy exactly for the
    ids that are keys. *)
Record Nsi : Type := mkNsi {
  data : Data;
  dissolved : list (string * list string);
  replacements : list (string * Replacement);
  trees : list (string * Tree);
  kvt : KVT;
  qids : list (string * string);
  ids : list (string * Item);
  matcher : MatchFn
}.

(** [let _nsi = {}] until the data are loaded. *)
Inductive NsiState : Type :=
| Unloaded
| Loaded (nsi : Nsi).

(** [Matcher()], [buildMatchIndex] and [buildLocationIndex] over the data:
    the matcher with its indices built, or what one of the three calls
    throws. *)
Variable Matcher : Data -> Res MatchFn.

(** *** [loadNsiData]: the reverse indices *)

Definition annotate (tkv mainTag : string) (item : Item) : Item :=
  mkItem (item_id item) (item_tags item) (Some tkv) (Some mainTag)
         (item_preserveTags item).

(** The body of [items.forEach], on the two caches it writes. *)
Definition cacheItem (mainTag : string)
    (c : list (string * Item) * list (string * string)) (item : Item)
    : list (string * Item) * list (string * string) :=
  let ids0 := aset (item_id item) item c.1 in
  let wd := aget mainTag (item_tags item) in
  let wp := aget (replace_first "wikidata" "wikipedia" mainTag) (item_tags item) in
  let qids1 := if truthy wd then aset (key_of wd) (key_of wd) c.2 else c.2 in
  let qids2 := if truthy wp && truthy wd
               then aset (key_of wp) (key_of wd) qids1 else qids1 in
  (ids0, qids2).

(** [_nsi.trees[t].mainTag]: the main tag of the tree filed under [t]; for
    a name that is no key of the trees but is [inherited], an object that
    has no [mainTag]; for any other name the read of [mainTag] on
    [undefined] throws. *)
Definition tree_mainTag (trees : list (string * Tree)) (t : string)
    : Res (option string) :=
  match aget t trees with
  | Some tree => Ok (Some (mainTag tree))
  | None => if inherited t then Ok None else Throw TypeError
  end.

(** The body of [Object.keys(_nsi.data).forEach].  [parts[0]] always
    exists, see [split_hd].  With [mainTag] undefined the first item makes
    [mainTag.replace] throw. *)
Definition indexCategory (nsi : Nsi) (tkv : string) : Res Nsi :=
  let category := aget tkv (data nsi) in
  let parts := split "/" 3 tkv in
  let t := hd EmptyString parts in
  let k := parts !! 1 in
  let v := parts !! 2 in
  let vmap := default [] (aget k (kvt nsi)) in
  let kvt0 := aset k (aset v t vmap) (kvt nsi) in
  mainTag <- tree_mainTag (trees nsi) t ;;
  category <- match category with
              | Some category => Ok category
              | None => Throw TypeError
              end ;;
  match mainTag with
  | Some mainTag =>
      let items0 := map (annotate tkv mainTag) (default [] (items category)) in
      let c := fold_left (cacheItem mainTag) items0 (ids nsi, qids nsi) in
      let data0 := match items category with
                   | Some _ => aset tkv (mkCategory (Some items0) (properties category)) (data nsi)
                   | None => data nsi
                   end in
      Ok (mkNsi data0 (dissolved nsi) (replacements nsi) (trees nsi)
                kvt0 c.2 c.1 (matcher nsi))
  | None =>
      match default [] (items category) with
      | [] => Ok (mkNsi (data nsi) (dissolved nsi) (replacements nsi) (trees nsi)
                        kvt0 (qids nsi) (ids nsi) (matcher nsi))
      | _ :: _ => Throw TypeError
      end
  end.

Fixpoint forEach_tkv (nsi : Nsi) (tkvs : list string) : Res Nsi :=
  match tkvs with
  | [] => Ok nsi
  | tkv :: rest => nsi0 <- indexCategory nsi tkv ;; forEach_tkv nsi0 rest
  end.

(** The [then] of [loadNsiData], from the four downloaded values to the
    value of [_nsi]: the matcher is built first, then the indices. *)
Definition loadNsiData (vals0 : Data) (vals1 : list (string * list string))
    (vals2 : list (string * Replacement)) (vals3 : list (string * Tree))
    : Res Nsi :=
  matcher <- Matcher vals0 ;;
  forEach_tkv (mkNsi vals0 vals1 vals2 vals3 [] [] [] matcher)
              (akeys vals0).

(** *** The state the matching functions run in *)

(** [presetManager.matchTags(tags, geometry)] *)
Variable matchTags : Tags -> string -> Preset.

(** [new RegExp(s, 'i')], reduced to its [test]; a pattern that does not
    parse throws. *)
Variable RegExp_i : string -> Res (string -> bool).

Variable _nsi : NsiState.

(** [_nsi.f] followed by a property read or a method call. *)
Definition nsi_field {A} (f : Nsi -> A) : Res A :=
  match _nsi with
  | Unloaded => Throw TypeError
  | Loaded nsi => Ok (f nsi)
  end.

(** *** [gatherKVs] *)

Fixpoint gatherKVs_forEach (tags : Tags) (keys : list string)
    (acc : Prio JSSet) : Res (Prio JSSet) :=
  match keys with
  | [] => Ok acc
  | osmkey :: rest =>
      let osmvalue := aget osmkey tags in
      if negb (truthy osmvalue) then gatherKVs_forEach tags rest acc
      else
        kvt <- nsi_field kvt ;;
        match aget (Some osmkey) kvt with
        | None => gatherKVs_forEach tags rest acc
        | Some vmap =>
            let kv := osmkey +:+ "/" +:+ key_of osmvalue in
            if negb (String.eqb (key_of osmvalue) "yes")
            then gatherKVs_forEach tags rest
                   (mkPrio (add kv (primary acc)) (alternate acc))
            else gatherKVs_forEach tags rest
                   (mkPrio (primary acc) (add kv (alternate acc)))
        end
  end.

Definition gatherKVs (tags : Tags) : Res (Prio JSSet) :=
  acc <- gatherKVs_forEach tags (akeys tags) (mkPrio [] []) ;;
  let preset := matchTags tags "area" in
  if buildingPreset (preset_id preset)
  then Ok (mkPrio (primary acc) (add "building/yes" (alternate acc)))
  else Ok acc.

(** *** [gatherNames] *)

Definition patterns_of (tags : Tags) : Prio RegExp :=
  if truthy (aget "route" tags) then
    mkPrio
      (* /^network$/i *)
      (mkRegExp true (lit_i "network") true)
      (* /^(operator|operator:\w+|network:\w+|\w+_name|\w+_name:\w+)$/i *)
      (mkRegExp true
         (alts [lit_i "operator";
                Cat (lit_i "operator:") (Plus w);
                Cat (lit_i "network:") (Plus w);
                Cat (Plus w) (lit_i "_name");
                Cat (Plus w) (Cat (lit_i "_name:") (Plus w))])
         true)
  else if bool_decide (aget "man_made" tags = Some "flagpole") then
    mkPrio
      (* /^(flag:name|flag:name:\w+)$/i *)
      (mkRegExp true
         (alts [lit_i "flag:name"; Cat (lit_i "flag:name:") (Plus w)])
         true)
      (* /^(flag|flag:\w+|subject|subject:\w+)$/i *)
      (mkRegExp true
         (alts [lit_i "flag"; Cat (lit_i "flag:") (Plus w);
                lit_i "subject"; Cat (lit_i "subject:") (Plus w)])
         true)
  else
    mkPrio
      (* /^(name|name:\w+)$/i *)
      (mkRegExp true (alts [lit_i "name"; Cat (lit_i "name:") (Plus w)]) true)
      (* /^(brand|brand:\w+|operator|operator:\w+|\w+_name|\w+_name:\w+)/i *)
      (mkRegExp true
         (alts [lit_i "brand";
                Cat (lit_i "brand:") (Plus w);
                lit_i "operator";
                Cat (lit_i "operator:") (Plus w);
                Cat (Plus w) (lit_i "_name");
                Cat (Plus w) (Cat (lit_i "_name:") (Plus w))])
         false).

Definition isNamelike (patterns : Prio RegExp) (osmkey : string)
    (which : Which) : bool :=
  test (pick which patterns) osmkey && negb (test notNames osmkey).

(** The three variables the loop of [gatherNames] writes. *)
Record Names : Type := mkNames {
  names_primary : JSSet;
  names_alternate : JSSet;
  foundSemi : bool
}.

Definition gatherNames_step (patterns : Prio RegExp) (tags : Tags)
    (st : Names) (osmkey : string) : Names :=
  let osmvalue := aget osmkey tags in
  if negb (truthy osmvalue) then st
  else
    let value := key_of osmvalue in
    if isNamelike patterns osmkey Primary then
      if test semicolon value
      then mkNames (names_primary st) (names_alternate st) true
      else mkNames (add value (names_primary st)) (names_alternate st) (foundSemi st)
    else if negb (has value (names_primary st)) && isNamelike patterns osmkey Alternate then
      if test semicolon value
      then mkNames (names_primary st) (names_alternate st) true
      else mkNames (names_primary st) (add value (names_alternate st)) (foundSemi st)
    else st.

(** For flags only, the [country] tag when nothing else was found. *)
Definition gatherNames_country (tags : Tags) (st : Names) : Names :=
  if bool_decide (aget "man_made" tags = Some "flagpole")
     && (size (names_primary st) =? 0) && (size (names_alternate st) =? 0)
     && truthy (aget "country" tags)
  then
    let osmvalue := key_of (aget "country" tags) in
    if test semicolon osmvalue
    then mkNames (names_primary st) (names_alternate st) true
    else mkNames (names_primary st) (add osmvalue (names_alternate st)) (foundSemi st)
  else st.

Definition gatherNames (tags : Tags) : Prio JSSet :=
  let empty := mkPrio [] [] in
  let patterns := patterns_of tags in
  let st := fold_left (gatherNames_step patterns tags) (akeys tags)
                      (mkNames [] [] false) in
  let st := gatherNames_country tags st in
  if foundSemi st then empty
  else mkPrio (names_primary st) (names_alternate st).

(** *** [gatherTuples] *)

(** [parts[0]] always exists, see [split_hd]. *)
Definition tuple_of (n kv : string) : Tuple :=
  let parts := split "/" 2 kv in
  mkTuple (hd EmptyString parts) (parts !! 1) n.

Definition gatherTuples (tryKVs tryNames : Prio JSSet) : list Tuple :=
  flat_map (fun whichName =>
    flat_map (fun n =>
      flat_map (fun whichKV =>
        map (tuple_of n) (pick whichKV tryKVs))
        [Primary; Alternate])
      (pick whichName tryNames))
    [Primary; Alternate].

(** *** [_upgradeTags] *)

(** [/^(\w+:)?wikidata$/] *)
Definition wikidataKey : RegExp :=
  mkRegExp true (Cat (Opt (Cat (Plus w) (chr ":"))) (lit "wikidata")) true.

(** [osmkey.match(/^(\w+:)?wikidata$/)], reduced to [matchTag[1] || '']:
    when the key matches, the group is what stands before [wikidata]. *)
Definition matchTag (osmkey : string) : option string :=
  if test wikidataKey osmkey
  then Some (substring 0 (String.length osmkey - 8) osmkey)
  else None.

(** Replace or delete one tag as the field of the replacement says. *)
Definition replaceTag (newTags : ref) (key : string)
    (field : option (option string)) (changed : bool) : M bool :=
  match field with
  | None => ret changed
  | Some value =>
      _ <~ (if truthy value then set_prop newTags key (key_of value)
            else delete_prop newTags key) ;;
      ret true
  end.

(** The body of the first [forEach]: trivial Wikipedia/Wikidata
    replacements. *)
Definition replaceWiki (newTags : ref) (osmkey : string) (changed : bool)
    : M bool :=
  match matchTag osmkey with
  | None => ret changed
  | Some prefix =>
      wd <~ get_prop newTags osmkey ;;
      replacements <~ lift (nsi_field replacements) ;;
      match aget (key_of wd) replacements with
      | None => ret changed
      | Some replace =>
          changed <~ replaceTag newTags osmkey (wikidata replace) changed ;;
          replaceTag newTags (prefix +:+ "wikipedia") (wikipedia replace) changed
      end
  end.

Fixpoint replaceWiki_forEach (newTags : ref) (keys : list string)
    (changed : bool) : M bool :=
  match keys with
  | [] => ret changed
  | osmkey :: rest =>
      changed <~ replaceWiki newTags osmkey changed ;;
      replaceWiki_forEach newTags rest changed
  end.

(** [_nsi.qids.get(key)]: no entry is filed under [undefined]. *)
Definition qids_get (key : option string) (qids : list (string * string))
    : option string :=
  match key with
  | Some key => aget key qids
  | None => None
  end.

(** The exceptions that make the loop over the hits skip an item. *)
Definition skipHit (newTags : Tags) (item : Item) : bool :=
  let mainTag := item_mainTag item in
  let itemQID := aget (key_of mainTag) (item_tags item) in
  let notQID := aget ("not:" +:+ key_of mainTag) newTags in
  (negb (truthy itemQID) || bool_decide (itemQID = notQID))
  || (truthy (aget "office" newTags) && negb (truthy (aget "office" (item_tags item)))).

(** The loop over the hits of one tuple; [item] is the variable declared
    before it. *)
Fixpoint hits_loop (newTags : Tags) (hits : list Hit) (item : option Item)
    : Res (option Item) :=
  match hits with
  | [] => Ok item
  | hit :: rest =>
      let itemID := itemID hit in
      dissolved <- nsi_field dissolved ;;
      if ahas itemID dissolved then hits_loop newTags rest item
      else
        ids <- nsi_field ids ;;
        match aget itemID ids with
        | None => hits_loop newTags rest None
        | Some found =>
            if skipHit newTags found then hits_loop newTags rest None
            else Ok (Some found)
        end
  end.

Fixpoint compile_all (patterns : list string) : Res (list (string -> bool)) :=
  match patterns with
  | [] => Ok []
  | s :: rest =>
      re <- RegExp_i s ;;
      res <- compile_all rest ;;
      Ok (re :: res)
  end.

(** The tags of the working copy whose key some pattern preserves. *)
Definition keepTags_of (regexes : list (string -> bool)) (newTags : Tags) : Tags :=
  fold_left (fun keepTags osmkey =>
               if existsb (fun regex => regex osmkey) regexes
               then match aget osmkey newTags with
                    | Some value => aset osmkey value keepTags
                    | None => keepTags
                    end
               else keepTags)
            (akeys newTags) [].

(** The syntax characters of a JavaScript pattern: [^$\.*+?()[]{}|]. *)
Definition is_syntax (c : ascii) : bool :=
  existsb (Ascii.eqb c) (chars "^$" ++ backslash :: chars ".*+?()[]{}|").

(** What a backslash may stand before to give the character itself: a
    syntax character, the hyphen and the slash. *)
Definition is_identity_escape (c : ascii) : bool :=
  is_syntax c || Ascii.eqb c "-" || Ascii.eqb c "/".

(** The pattern text of a literal, as [new RegExp] reads it: a backslash
    and a character it may escape stand for that character, a character
    that is no syntax character for itself.  A text with anything else is
    no literal. *)
Fixpoint literal_pattern (l : list ascii) : option regex :=
  match l with
  | [] => Some Eps
  | c :: l' =>
      if Ascii.eqb c backslash then
        match l' with
        | d :: l'' =>
            if is_identity_escape d
            then option_map (Cat (chr_i d)) (literal_pattern l'')
            else None
        | [] => None
        end
      else if is_syntax c then None
      else option_map (Cat (chr_i c)) (literal_pattern l')
  end.

(** [s.match(/^L\s(.+)$/i)[1]] where [L] is what is left of the literal
    after the characters read so far. *)
Fixpoint capture_rest (L : regex) (l : list ascii) : option (list ascii) :=
  match l with
  | [] => None
  | c :: l' =>
      if nullable L && is_space c && matches_list (Plus dot) l'
      then Some l'
      else capture_rest (deriv c L) l'
  end.

(** [origName.match(new RegExp(`^${n}\\s(.+)$`, 'i'))], reduced to the
    captured group. *)
Definition matchBranch (n origName : string) : Res (option string) :=
  match literal_pattern (chars n) with
  | Some L => Ok (option_map str (capture_rest L (chars origName)))
  | None => Throw SyntaxError
  end.

Fixpoint insert_longest (a : string) (l : list string) : list string :=
  match l with
  | [] => [a]
  | b :: l' =>
      if String.length b <=? String.length a then a :: l
      else b :: insert_longest a l'
  end.

(** [l.sort((a, b) => b.length - a.length)], a stable sort. *)
Fixpoint sort_longest (l : list string) : list string :=
  match l with
  | [] => []
  | a :: l' => insert_longest a (sort_longest l')
  end.

(** The loop over the candidates of the branch rule. *)
Fixpoint branch_loop (newTags : ref) (origName : string)
    (candidates : list string) : M unit :=
  match candidates with
  | [] => ret tt
  | candidate :: rest =>
      let n := escapeRegex candidate in
      captured <~ lift (matchBranch n origName) ;;
      match captured with
      | Some captured1 =>
          let branch := trim captured1 in
          if nonempty branch then set_prop newTags "branch" captured1
          else branch_loop newTags origName rest
      | None => branch_loop newTags origName rest
      end
  end.

(** The special [branch] splitting rule. *)
Definition splitBranch (tags newTags : ref) : M unit :=
  origName <~ get_prop tags "name" ;;
  newName <~ get_prop newTags "name" ;;
  branch <~ get_prop newTags "branch" ;;
  if truthy newName && truthy origName
     && negb (bool_decide (newName = origName)) && negb (truthy branch)
  then
    o <~ get_object newTags ;;
    let newNames := gatherNames o in
    let newSet := set_of (primary newNames ++ alternate newNames) in
    let isMoved := has (key_of origName) newSet in
    if negb isMoved
    then branch_loop newTags (key_of origName) (sort_longest newSet)
    else ret tt
  else ret tt.

(** What [_upgradeTags] does once an item is matched. *)
Definition upgradeTo (tags newTags : ref) (foundQID : option string)
    (item : Item) : M (option ref) :=
  let tkv := item_tkv item in
  data <~ lift (nsi_field data) ;;
  category <~ lift (match aget (key_of tkv) data with
                    | Some category => Ok category
                    | None => Throw TypeError
                    end) ;;
  let preserveTags :=
    match item_preserveTags item with
    | Some l => l
    | None =>
        match properties category with
        | Some properties => default [] (props_preserveTags properties)
        | None => []
        end
    end in
  regexes <~ lift (compile_all preserveTags) ;;
  let regexes :=
    regexes ++ [test (mkRegExp true (lit_i "building") true);
                test (mkRegExp true (lit_i "takeaway") true)] in
  o <~ get_object newTags ;;
  let keepTags := keepTags_of regexes o in
  kvt <~ lift (nsi_field kvt) ;;
  _ <~ forEachM (fun k => delete_prop newTags (key_of k)) (akeys kvt) ;;
  _ <~ (if truthy foundQID
        then _ <~ delete_prop newTags "wikipedia" ;; delete_prop newTags "wikidata"
        else ret tt) ;;
  _ <~ assign_to newTags (item_tags item) ;;
  _ <~ assign_to newTags keepTags ;;
  _ <~ splitBranch tags newTags ;;
  ret (Some newTags).

(** The loop over the tuples. *)
Fixpoint tuples_loop (tags newTags : ref) (loc : option Loc)
    (foundQID : option string) (changed : bool) (tuples : list Tuple)
    : M (option ref) :=
  match tuples with
  | [] => ret (if changed then Some newTags else None)
  | tuple :: rest =>
      matcher <~ lift (nsi_field matcher) ;;
      match matcher (tuple_k tuple) (tuple_v tuple) (tuple_n tuple) loc with
      | None | Some [] => tuples_loop tags newTags loc foundQID changed rest
      | Some ((hit0 :: _) as hits) =>
          if negb (String.eqb (match_ hit0) "primary")
             && negb (String.eqb (match_ hit0) "alternate")
          then tuples_loop tags newTags loc foundQID changed rest
          else
            o <~ get_object newTags ;;
            item <~ lift (hits_loop o hits None) ;;
            match item with
            | None => tuples_loop tags newTags loc foundQID changed rest
            | Some item => upgradeTo tags newTags foundQID item
            end
      end
  end.

Definition _upgradeTags (tags : ref) (loc : option Loc) : M (option ref) :=
  o <~ get_object tags ;;
  newTags <~ new_object (assign [] o) ;;
  o <~ get_object newTags ;;
  changed <~ replaceWiki_forEach newTags (akeys o) false ;;
  o <~ get_object tags ;;
  tryKVs <~ lift (gatherKVs o) ;;
  if (size (primary tryKVs) =? 0) && (size (alternate tryKVs) =? 0)
  then ret (if changed then Some newTags else None)
  else
    o <~ get_object tags ;;
    let tryNames := gatherNames o in
    qids <~ lift (nsi_field qids) ;;
    wd <~ get_prop tags "wikidata" ;;
    wp <~ get_prop tags "wikipedia" ;;
    let foundQID :=
      if truthy (qids_get wd qids) then qids_get wd qids
      else qids_get wp qids in
    let tryNames :=
      if truthy foundQID
      then mkPrio (add (key_of foundQID) (primary tryNames)) (alternate tryNames)
      else tryNames in
    if (size (primary tryNames) =? 0) && (size (alternate tryNames) =? 0)
    then ret (if changed then Some newTags else None)
    else
      let tuples := gatherTuples tryKVs tryNames in
      tuples_loop tags newTags loc foundQID changed tuples.

(** *** [_isGenericName] *)

Fixpoint generic_loop (tuples : list Tuple) : Res bool :=
  match tuples with
  | [] => Ok false
  | tuple :: rest =>
      matcher <- nsi_field matcher ;;
      match matcher (tuple_k tuple) (tuple_v tuple) (tuple_n tuple) None with
      | Some (hit0 :: _) =>
          if String.eqb (match_ hit0) "excludeGeneric" then Ok true
          else generic_loop rest
      | _ => generic_loop rest
      end
  end.

Definition _isGenericName (tags : Tags) : Res bool :=
  let n := aget "name" tags in
  if negb (truthy n) then Ok false
  else
    let tryNames := mkPrio [key_of n] [] in
    tryKVs <- gatherKVs tags ;;
    if (size (primary tryKVs) =? 0) && (size (alternate tryKVs) =? 0)
    then Ok false
    else generic_loop (gatherTuples tryKVs tryNames).

End Service.
End NSI.

(** ** Notions the properties are stated with *)

Module Spec.
Import Chars Regex JS NSI.

(** [m] leaves the first [n] objects of the store as they are, never shrinks
    the store, and its result satisfies [post]. *)
Definition keeps {A} (n : nat) (m : M A) (post : A -> Prop) : Prop :=
  forall h : Heap, n <= length h ->
    take n (m h).1 = take n h /\
    length h <= length (m h).1 /\
    forall a, (m h).2 = Ok a -> post a.

(** The reading of "a primary-name/primary-kv tuple is always tried before
    any alternate combination": every tuple of a primary name and a primary
    pair stands before every tuple that has an alternate name or an
    alternate pair. *)
Definition primary_always_first (tryKVs tryNames : Prio JSSet) : Prop :=
  forall i j n kv n' kv',
    In n (primary tryNames) -> In kv (primary tryKVs) ->
    In n' (primary tryNames ++ alternate tryNames) ->
    In kv' (primary tryKVs ++ alternate tryKVs) ->
    In n' (alternate tryNames) \/ In kv' (alternate tryKVs) ->
    gatherTuples tryKVs tryNames !! i = Some (tuple_of n kv) ->
    gatherTuples tryKVs tryNames !! j = Some (tuple_of n' kv') ->
    i < j.

(** A tag whose key one of the two patterns of [gatherNames] takes as
    name-like and whose value is not empty. *)
Definition namelike_tag (tags : Tags) (key value : string) : Prop :=
  aget key tags = Some value /\ value <> EmptyString /\
  (isNamelike (patterns_of tags) key Primary = true \/
   isNamelike (patterns_of tags) key Alternate = true).

(** The [country] tag of a flagpole, looked at when the loop has gathered
    nothing. *)
Definition country_fallback (tags : Tags) (value : string) : Prop :=
  aget "man_made" tags = Some "flagpole" /\
  aget "country" tags = Some value /\ value <> EmptyString /\
  forall key v, namelike_tag tags key v -> In ";"%char (chars v).

(** A value [gatherNames] considers as a name. *)
Definition name_candidate (tags : Tags) (value : string) : Prop :=
  (exists key, namelike_tag tags key value) \/ country_fallback tags value.

(** No gathered primary name has a semicolon. *)
Definition clean (st : Names) : Prop :=
  Forall (fun v => ~ In ";"%char (chars v)) (names_primary st).

(** A key the wikidata replacements never write: it does not match
    [/^(\w+:)?wikidata$/] and does not end in [wikipedia]. *)
Definition untouched (key : string) : Prop :=
  test wikidataKey key = false /\ forall prefix, key <> prefix +:+ "wikipedia".

(** [_nsi.qids.get(tags.wikidata) || _nsi.qids.get(tags.wikipedia)] *)
Definition foundQID_of {Loc} (nsi : @Nsi Loc) (tags : Tags) : option string :=
  if truthy (qids_get (aget "wikidata" tags) (qids nsi))
  then qids_get (aget "wikidata" tags) (qids nsi)
  else qids_get (aget "wikipedia" tags) (qids nsi).

(** The names [_upgradeTags] tries: those of [gatherNames] and the resolved
    cross-reference, if any, as one more primary name. *)
Definition tryNames_of {Loc} (nsi : @Nsi Loc) (tags : Tags) : Prio JSSet :=
  if truthy (foundQID_of nsi tags)
  then mkPrio (add (key_of (foundQID_of nsi tags)) (primary (gatherNames tags)))
              (alternate (gatherNames tags))
  else gatherNames tags.

(** The conditions under which the item of a hit is taken as the upgrade
    target, for a feature whose working copy holds [newTags]: the id is not
    dissolved, it resolves to an item, the item has a non-empty value for its
    main tag, the feature has no [not:<mainTag>] tag with that value, and it
    is not the case that the feature has an [office] tag (with a value) while
    the item has none. *)
Definition qualifies {Loc} (nsi : @Nsi Loc) (newTags : Tags) (hit : Hit)
    (item : Item) : Prop :=
  ~ In (itemID hit) (akeys (dissolved nsi)) /\
  aget (itemID hit) (ids nsi) = Some item /\
  (exists qid,
     aget (key_of (item_mainTag item)) (item_tags item) = Some qid /\
     qid <> EmptyString /\
     aget ("not:" +:+ key_of (item_mainTag item)) newTags <> Some qid) /\
  ~ (truthy (aget "office" newTags) = true /\
     truthy (aget "office" (item_tags item)) = false).

(** What [/^<candidate>\s(.+)$/i] captures in [origName]: [origName] is
    the candidate in any letter case, one white-space character, and a
    non-empty remainder without line terminators. *)
Definition captures (candidate origName remainder : string) : Prop :=
  exists p ws,
    chars origName = p ++ ws :: chars remainder /\
    Forall2 (fun a b => ci_char a b = true) (chars candidate) p /\
    is_space ws = true /\
    remainder <> EmptyString /\
    forallb is_dot (chars remainder) = true.

(** A text of white-space characters only, the empty text included. *)
Definition blank (s : string) : Prop := forallb is_space (chars s) = true.

(** The branch the loop over the candidates settles on, if any. *)
Fixpoint first_branch (origName : string) (candidates : list string)
    : option string :=
  match candidates with
  | [] => None
  | candidate :: rest =>
      match matchBranch (escapeRegex candidate) origName with
      | Ok (Some captured1) =>
          if nonempty (trim captured1) then Some captured1
          else first_branch origName rest
      | _ => first_branch origName rest
      end
  end.

(** A key of the data the build gets through: its first part names a tree
    of the trees metadata, or it is a name every object inherits and the
    category has no item. *)
Definition buildable (data : Data) (trees : list (string * Tree))
    (tkv : string) : Prop :=
  In (hd EmptyString (split "/" 3 tkv)) (akeys trees) \/
  (inherited (hd EmptyString (split "/" 3 tkv)) = true /\
   forall category, aget tkv data = Some category ->
     default [] (items category) = []).

(** [item.preserveTags || properties.preserveTags || []] *)
Definition preserve_of (category : Category) (item : Item) : list string :=
  match item_preserveTags item with
  | Some l => l
  | None =>
      match properties category with
      | Some properties => default [] (props_preserveTags properties)
      | None => []
      end
  end.

(** The working copy once the item is merged in: the keys of [kvt] and, for
    a resolved cross-reference, [wikipedia] and [wikidata] are deleted, then
    the tags of the item and the preserved tags are assigned. *)
Definition merged {Loc} (nsi : @Nsi Loc) (foundQID : option string)
    (item : Item) (keepTags o : Tags) : Tags :=
  let o1 := fold_left (fun o k => adel (key_of k) o) (akeys (kvt nsi)) o in
  let o2 := if truthy foundQID then adel "wikidata" (adel "wikipedia" o1) else o1 in
  assign (assign o2 (item_tags item)) keepTags.

(** *** A small index to run the service on *)

Definition acme_tags : Tags :=
  [("brand", "Acme"); ("brand:wikidata", "Q1"); ("name", "Acme");
   ("shop", "convenience")].

(** An item as it is downloaded. *)
Definition acme_raw : Item := mkItem "acme-4f2a91" acme_tags None None None.

(** The same item once [loadNsiData] has seen it. *)
Definition acme : Item :=
  mkItem "acme-4f2a91" acme_tags (Some "brands/shop/convenience")
         (Some "brand:wikidata") None.

Definition sample_data : Data :=
  [("brands/shop/convenience", mkCategory (Some [acme_raw]) None)].

Definition sample_trees : list (string * Tree) :=
  [("brands", mkTree "brand:wikidata")].

(** A matcher that answers every query about [shop=convenience] with the
    Acme item as a primary match. *)
Definition sample_match : @MatchFn unit :=
  fun k v n loc =>
    if String.eqb k "shop" && bool_decide (v = Some "convenience")
    then Some [mkHit "acme-4f2a91" "primary"]
    else None.

Definition sample_nsi : @Nsi unit :=
  mkNsi [("brands/shop/convenience", mkCategory (Some [acme]) None)]
        [] [] sample_trees
        [(Some "shop", [(Some "convenience", "brands")])]
        [("Q1", "Q1")]
        [("acme-4f2a91", acme)]
        sample_match.

(** The sample index with a second, dissolved item that the matcher ranks
    first. *)
Definition defunct : Item :=
  mkItem "defunct-0c11d7"
         [("brand", "Defunct"); ("brand:wikidata", "Q2"); ("name", "Defunct");
          ("shop", "convenience")]
         (Some "brands/shop/convenience") (Some "brand:wikidata") None.

Definition dissolved_match : @MatchFn unit :=
  fun k v n loc =>
    if String.eqb k "shop" && bool_decide (v = Some "convenience")
    then Some [mkHit "defunct-0c11d7" "primary"; mkHit "acme-4f2a91" "primary"]
    else None.

Definition dissolved_nsi : @Nsi unit :=
  mkNsi [("brands/shop/convenience", mkCategory (Some [defunct; acme]) None)]
        [("defunct-0c11d7", ["2019"])] [] sample_trees
        [(Some "shop", [(Some "convenience", "brands")])]
        [("Q2", "Q2"); ("Q1", "Q1")]
        [("defunct-0c11d7", defunct); ("acme-4f2a91", acme)]
        dissolved_match.

(** An item whose [preserveTags] keep a [wikidata] tag of the feature. *)
Definition keeper : Item :=
  mkItem "keeper-77aa10"
         [("brand", "Keeper"); ("brand:wikidata", "Q7"); ("name", "Keeper");
          ("shop", "convenience")]
         (Some "brands/shop/convenience") (Some "brand:wikidata")
         (Some ["^wikidata$"]).

Definition keeper_match : @MatchFn unit :=
  fun k v n loc =>
    if String.eqb k "shop" && bool_decide (v = Some "convenience")
    then Some [mkHit "keeper-77aa10" "primary"]
    else None.

Definition keeper_nsi : @Nsi unit :=
  mkNsi [("brands/shop/convenience", mkCategory (Some [keeper]) None)]
        [] [] sample_trees
        [(Some "shop", [(Some "convenience", "brands")])]
        [("Q7", "Q7")]
        [("keeper-77aa10", keeper)]
        keeper_match.

(** [new RegExp(s, 'i')] on the one pattern that sample uses. *)
Definition wikidata_RegExp : string -> Res (string -> bool) :=
  fun s =>
    if String.eqb s "^wikidata$"
    then Ok (test (mkRegExp true (lit_i "wikidata") true))
    else Throw SyntaxError.

(** A feature that is no generic building. *)
Definition no_preset : Tags -> string -> Preset := fun _ _ => mkPreset "point".

(** No pattern of [preserveTags] is compiled in the samples. *)
Definition no_RegExp : string -> Res (string -> bool) :=
  fun _ => Throw SyntaxError.

End Spec.

(** ** Notions for the further properties *)

Module SpecMore.
Import Chars Regex JS NSI Spec.

(** Equality of strings under the [i] flag. *)
Definition ci_eq (a b : string) : Prop :=
  Forall2 (fun x y => ci_char x y = true) (chars a) (chars b).

(** A tuple the loop of [_upgradeTags] acts on, and the item it selects:
    the matcher answers with hits, the best one is classified ["primary"]
    or ["alternate"], and [item] belongs to the first hit that
    [qualifies]. *)
Definition actionable {Loc} (nsi : @Nsi Loc) (newTags : Tags)
    (loc : option Loc) (tuple : Tuple) (item : Item) : Prop :=
  exists hit0 hits before hit after,
    matcher nsi (tuple_k tuple) (tuple_v tuple) (tuple_n tuple) loc
      = Some (hit0 :: hits) /\
    (match_ hit0 = "primary" \/ match_ hit0 = "alternate") /\
    hit0 :: hits = before ++ hit :: after /\
    qualifies nsi newTags hit item /\
    forall hit', In hit' before -> forall item', ~ qualifies nsi newTags hit' item'.

(** The suffixes [notNames] excludes. *)
Definition notName_suffixes : list string :=
  ["colour"; "color"; "type"; "forward"; "backward"; "left"; "right";
   "etymology"; "pronunciation"; "wikipedia"].

(** The values the loop has gathered so far are values of name-like tags. *)
Definition sound (tags : Tags) (st : Names) : Prop :=
  (forall v, In v (names_primary st) ->
     exists key, aget key tags = Some v /\ v <> EmptyString /\
       ~ In ";"%char (chars v) /\
       isNamelike (patterns_of tags) key Primary = true) /\
  (forall v, In v (names_alternate st) ->
     exists key, aget key tags = Some v /\ v <> EmptyString /\
       ~ In ";"%char (chars v) /\
       isNamelike (patterns_of tags) key Alternate = true /\
       isNamelike (patterns_of tags) key Primary = false).

(** The keys of the working copy that survive an upgrade with their value:
    those a compiled [preserveTags] pattern takes, [building] and
    [takeaway]. *)
Definition preserved (regexes : list (string -> bool)) (key : string) : bool :=
  existsb (fun regex => regex key)
    (regexes ++ [test (mkRegExp true (lit_i "building") true);
                 test (mkRegExp true (lit_i "takeaway") true)]).

(** The keys an upgrade deletes from the working copy before it assigns the
    tags of the item: the keys of [kvt] and, for a resolved cross-reference,
    [wikidata] and [wikipedia]. *)
Definition discarded {Loc} (nsi : @Nsi Loc) (foundQID : option string)
    (key : string) : bool :=
  existsb (fun k => String.eqb key (key_of k)) (akeys (kvt nsi))
  || (truthy foundQID && (String.eqb key "wikidata" || String.eqb key "wikipedia")).

(** The companion key of a [*:wikidata] key: what stands before
    [wikidata], then [wikipedia]. *)
Definition wikipedia_of (osmkey : string) : string :=
  substring 0 (String.length osmkey - 8) osmkey +:+ "wikipedia".

(** The value of a tag once a field of a replacement is applied to it: left
    alone when the replacement has no such field, set to a non-empty value,
    deleted for any other value. *)
Definition replaced (field : option (option string)) (old : option string)
    : option string :=
  match field with
  | None => old
  | Some value => if truthy value then Some (key_of value) else None
  end.

(** [_nsi.replacements[o[osmkey]]] *)
Definition replacement_of {Loc} (nsi : @Nsi Loc) (o : Tags) (osmkey : string)
    : option Replacement :=
  aget (key_of (aget osmkey o)) (replacements nsi).

(** A replacement with one of its two fields. *)
Definition rewrites (rep : Replacement) : bool :=
  match wikidata rep, wikipedia rep with
  | None, None => false
  | _, _ => true
  end.

(** The object [replaceTag] leaves behind. *)
Definition replaceTag_obj (key : string) (field : option (option string))
    (x : Tags) : Tags :=
  match field with
  | None => x
  | Some value => if truthy value then aset key (key_of value) x else adel key x
  end.

(** The working copy after the turn of the first loop for [osmkey]. *)
Definition replaceWiki_obj {Loc} (nsi : @Nsi Loc) (x : Tags) (osmkey : string)
    : Tags :=
  if test wikidataKey osmkey then
    match replacement_of nsi x osmkey with
    | Some rep =>
        replaceTag_obj (wikipedia_of osmkey) (wikipedia rep)
          (replaceTag_obj osmkey (wikidata rep) x)
    | None => x
    end
  else x.

(** Whether that turn sets [changed]. *)
Definition replaceWiki_fires {Loc} (nsi : @Nsi Loc) (x : Tags) (osmkey : string)
    : bool :=
  test wikidataKey osmkey &&
  match replacement_of nsi x osmkey with
  | Some rep => rewrites rep
  | None => false
  end.

(** [_nsi.kvt.get(k).get(v)] *)
Definition kvt_get (kvt : KVT) (k v : option string) : option string :=
  match aget k kvt with
  | Some vmap => aget v vmap
  | None => None
  end.

(** The three parts [t], [k] and [v] the build reads off a key of the
    data. *)
Definition tree_part (tkv : string) : string := hd EmptyString (split "/" 3 tkv).
Definition key_part (tkv : string) : option string := split "/" 3 tkv !! 1.
Definition value_part (tkv : string) : option string := split "/" 3 tkv !! 2.

(** Two categories with the same items, as far as their ids and tags go:
    the build writes [tkv] and [mainTag] into the items and nothing else. *)
Definition same_items (c c0 : Category) : Prop :=
  map (fun item => (item_id item, item_tags item)) (default [] (items c)) =
  map (fun item => (item_id item, item_tags item)) (default [] (items c0)).

(** Where a binding [key -> qid] of [qids] comes from: an item of the
    downloaded data whose main-tag value is [qid], a non-empty text, and
    [key] is that value or the item's value for the matching [*wikipedia]
    tag. *)
Definition qid_source (vals0 : Data) (vals3 : list (string * Tree))
    (key qid : string) : Prop :=
  qid <> EmptyString /\
  exists tkv category item tree,
    aget tkv vals0 = Some category /\
    In item (default [] (items category)) /\
    aget (tree_part tkv) vals3 = Some tree /\
    aget (mainTag tree) (item_tags item) = Some qid /\
    (key = qid \/
     aget (replace_first "wikidata" "wikipedia" (mainTag tree)) (item_tags item)
       = Some key).

(** The item [keeper] as it is downloaded, and its data. *)
Definition keeper_raw : Item :=
  mkItem "keeper-77aa10"
         [("brand", "Keeper"); ("brand:wikidata", "Q7"); ("name", "Keeper");
          ("shop", "convenience")]
         None None (Some ["^wikidata$"]).

Definition keeper_data : Data :=
  [("brands/shop/convenience", mkCategory (Some [keeper_raw]) None)].

End SpecMore.

(** ** The life cycle of the service: [init], [status], [cache] *)

Module Lifecycle.
Import Chars Regex JS NSI.

(** [_nsiStatus] *)
Inductive Status : Type := loading | ok | failed.

(** What a promise has come to when nothing more happens: it stays pending,
    it is fulfilled with a value, or it is rejected. *)
Inductive Promise (A : Type) : Type :=
| Pending
| Fulfilled (a : A)
| Rejected.
Arguments Pending {A}.
Arguments Fulfilled {A} a.
Arguments Rejected {A}.

(** [Promise.all([a, b])]: rejected as soon as one is, fulfilled when both
    are. *)
Definition all2 {A B} (a : Promise A) (b : Promise B) : Promise (A * B) :=
  match a, b with
  | Fulfilled x, Fulfilled y => Fulfilled (x, y)
  | Rejected, _ | _, Rejected => Rejected
  | _, _ => Pending
  end.

(** The sources [setNsiSources] adds to the file map. *)
Definition sources : list (string * string) :=
  [("nsi_data", "https://raw.githubusercontent.com/osmlab/name-suggestion-index/main/dist/nsi.min.json");
   ("nsi_dissolved", "https://raw.githubusercontent.com/osmlab/name-suggestion-index/main/dist/dissolved.min.json");
   ("nsi_features", "https://raw.githubusercontent.com/osmlab/name-suggestion-index/main/dist/featureCollection.min.json");
   ("nsi_generics", "https://raw.githubusercontent.com/osmlab/name-suggestion-index/main/dist/genericWords.min.json");
   ("nsi_presets", "https://raw.githubusercontent.com/osmlab/name-suggestion-index/main/dist/presets/nsi-id-presets.min.json");
   ("nsi_replacements", "https://raw.githubusercontent.com/osmlab/name-suggestion-index/main/dist/replacements.min.json");
   ("nsi_trees", "https://raw.githubusercontent.com/osmlab/name-suggestion-index/main/dist/trees.min.json")].

Section Lifecycle.
Context {Loc : Type}.

(** The value of [_nsi]: [{}]; the object [loadNsiData] assigns, left
    without a built matcher because one of the calls that build it threw;
    or that object with its matcher built and its indices as far as the
    loop has written them. *)
Inductive Cache : Type :=
| Empty
| Unindexed (vals0 : Data) (vals1 : list (string * list string))
            (vals2 : list (string * Replacement)) (vals3 : list (string * Tree))
| Indexed (nsi : @Nsi Loc).

(** The two variables of the module and the file map of the fetcher. *)
Record Service : Type := mkService {
  _nsiStatus : Status;
  _nsi : Cache;
  fileMap : Tags
}.

(** The module as it is loaded: ['loading'] and [{}]. *)
Definition loaded_module (fileMap : Tags) : Service :=
  mkService loading Empty fileMap.

(** A promise chain running over the state of the module.  Every callback
    is a job of its own: the run gives the states the module is in between
    the jobs of the chain, where other jobs can look at it, the state the
    chain leaves, and what its promise has come to. *)
Definition Async (A : Type) : Type :=
  Service -> list Service * Service * Promise A.

(** A promise handed in from outside. *)
Definition resolved {A} (p : Promise A) : Async A := fun s => ([], s, p).

(** [p.then(f)]: [f] is a later job than the one that fulfils [p]. *)
Definition then_ {A B} (p : Async A) (f : A -> Async B) : Async B :=
  fun s =>
    match p s with
    | (seen, s0, Fulfilled a) =>
        match f a s0 with
        | (seen0, s1, r) => (seen ++ s0 :: seen0, s1, r)
        end
    | (seen, s0, Pending) => (seen, s0, Pending)
    | (seen, s0, Rejected) => (seen, s0, Rejected)
    end.

(** [p.catch(f)] *)
Definition catch {A} (p : Async A) (f : Async A) : Async A :=
  fun s =>
    match p s with
    | (seen, s0, Rejected) =>
        match f s0 with
        | (seen0, s1, r) => (seen ++ s0 :: seen0, s1, r)
        end
    | r => r
    end.

(** A callback that runs to its end or throws, in one job; a throw
    rejects. *)
Definition callback {A} (f : Service -> Service * Res A) : Async A :=
  fun s =>
    match f s with
    | (s0, Ok a) => ([], s0, Fulfilled a)
    | (s0, Throw _) => ([], s0, Rejected)
    end.

(** [_nsiStatus = status] *)
Definition set_status (status : Status) : Async unit :=
  fun s => ([], mkService status (_nsi s) (fileMap s), Fulfilled tt).

(** [setNsiSources]: [for (const k in sources) fileMap[k] = sources[k]] *)
Definition setNsiSources (s : Service) : Service :=
  mkService (_nsiStatus s) (_nsi s) (assign (fileMap s) sources).

(** What [init] gets from outside of the module. *)
Record Outside : Type := mkOutside {
  (* [Matcher()], [buildMatchIndex] and [buildLocationIndex]: the matcher
     with its indices built, or what one of the three calls throws *)
  Matcher : Data -> Res (@MatchFn Loc);
  (* [presetManager.ensureLoaded()] *)
  ensureLoaded : Promise unit;
  (* [fileFetcher.get('nsi_presets')] and [fileFetcher.get('nsi_features')];
      what they hold goes to the preset manager only *)
  nsi_presets : Promise unit;
  nsi_features : Promise unit;
  (* the callback of [loadNsiPresets]: marking the presets and
      [presetManager.merge], which write nothing of this module *)
  merge : Res unit;
  (* [locationManager.mergeLocationSets([])] *)
  mergeLocationSets : Promise unit;
  (* [fileFetcher.get] of the four data files, reduced to the property the
      build reads of each *)
  nsi_data : Promise Data;
  nsi_dissolved : Promise (list (string * list string));
  nsi_replacements : Promise (list (string * Replacement));
  nsi_trees : Promise (list (string * Tree))
}.

Variable w : Outside.

(** Everything [init] waits for before it loads the data went through. *)
Definition ready : Prop :=
  ensureLoaded w = Fulfilled tt /\ nsi_presets w = Fulfilled tt /\
  nsi_features w = Fulfilled tt /\ merge w = Ok tt /\
  mergeLocationSets w = Fulfilled tt.

(** The four data files arrived. *)
Definition fetched (vals0 : Data) (vals1 : list (string * list string))
    (vals2 : list (string * Replacement)) (vals3 : list (string * Tree)) : Prop :=
  nsi_data w = Fulfilled vals0 /\ nsi_dissolved w = Fulfilled vals1 /\
  nsi_replacements w = Fulfilled vals2 /\ nsi_trees w = Fulfilled vals3.

Definition loadNsiPresets : Async unit :=
  then_ (resolved (all2 (nsi_presets w) (nsi_features w)))
        (fun vals => callback (fun s => (s, merge w))).

(** [delay(100)]: the timer fires. *)
Definition delay : Async unit := resolved (Fulfilled tt).

(** The body of [Object.keys(_nsi.data).forEach] on the cache itself: what
    is written before a throw stays written.  The entry of [kvt] is written
    first.  With [mainTag] undefined the first item is given its [tkv] and
    an undefined [mainTag] and is filed in [ids] before [mainTag.replace]
    throws. *)
Definition indexCategory_st (nsi : @Nsi Loc) (tkv : string) : @Nsi Loc * Res unit :=
  let category := aget tkv (data nsi) in
  let parts := split "/" 3 tkv in
  let t := hd EmptyString parts in
  let k := parts !! 1 in
  let v := parts !! 2 in
  let vmap := default [] (aget k (kvt nsi)) in
  let kvt0 := aset k (aset v t vmap) (kvt nsi) in
  let nsi0 := mkNsi (data nsi) (dissolved nsi) (replacements nsi) (trees nsi)
                    kvt0 (qids nsi) (ids nsi) (matcher nsi) in
  match tree_mainTag (trees nsi) t with
  | Throw e => (nsi0, Throw e)
  | Ok mainTag =>
      match category with
      | None => (nsi0, Throw TypeError)
      | Some category =>
          match mainTag with
          | Some mainTag =>
              let items0 := map (annotate tkv mainTag) (default [] (items category)) in
              let c := fold_left (cacheItem mainTag) items0 (ids nsi, qids nsi) in
              let data0 := match items category with
                           | Some _ => aset tkv (mkCategory (Some items0) (properties category)) (data nsi)
                           | None => data nsi
                           end in
              (mkNsi data0 (dissolved nsi) (replacements nsi) (trees nsi)
                     kvt0 c.2 c.1 (matcher nsi), Ok tt)
          | None =>
              match default [] (items category) with
              | [] => (nsi0, Ok tt)
              | item :: rest =>
                  let item0 := mkItem (item_id item) (item_tags item) (Some tkv) None
                                      (item_preserveTags item) in
                  (mkNsi (aset tkv (mkCategory (Some (item0 :: rest)) (properties category))
                               (data nsi))
                         (dissolved nsi) (replacements nsi) (trees nsi)
                         kvt0 (qids nsi) (aset (item_id item) item0 (ids nsi))
                         (matcher nsi),
                   Throw TypeError)
              end
          end
      end
  end.

Fixpoint forEach_tkv_st (nsi : @Nsi Loc) (tkvs : list string) : @Nsi Loc * Res unit :=
  match tkvs with
  | [] => (nsi, Ok tt)
  | tkv :: rest =>
      match indexCategory_st nsi tkv with
      | (nsi0, Ok _) => forEach_tkv_st nsi0 rest
      | (nsi0, Throw e) => (nsi0, Throw e)
      end
  end.

(** The callback of [loadNsiData]: [_nsi] is assigned first, then the
    matcher is built, then the indices are filled. *)
Definition loadNsiData_then (vals0 : Data) (vals1 : list (string * list string))
    (vals2 : list (string * Replacement)) (vals3 : list (string * Tree))
    : Service -> Service * Res unit :=
  fun s =>
    match Matcher w vals0 with
    | Throw e =>
        (mkService (_nsiStatus s) (Unindexed vals0 vals1 vals2 vals3) (fileMap s),
         Throw e)
    | Ok matcher =>
        let r := forEach_tkv_st (mkNsi vals0 vals1 vals2 vals3 [] [] [] matcher)
                                (akeys vals0) in
        (mkService (_nsiStatus s) (Indexed r.1) (fileMap s), r.2)
    end.

Definition loadNsiData_async : Async unit :=
  then_ (resolved (all2 (all2 (nsi_data w) (nsi_dissolved w))
                        (all2 (nsi_replacements w) (nsi_trees w))))
        (fun vals => callback (loadNsiData_then vals.1.1 vals.1.2 vals.2.1 vals.2.2)).

(** [init], run until nothing more happens: the states of the module
    between the jobs of the chain, and the state it is left in. *)
Definition init (s : Service) : list Service * Service :=
  let s := setNsiSources s in
  (catch
     (then_ (then_ (then_ (then_ (then_ (resolved (ensureLoaded w))
                                        (fun _ => loadNsiPresets))
                                 (fun _ => delay))
                          (fun _ => resolved (mergeLocationSets w)))
                   (fun _ => loadNsiData_async))
            (fun _ => set_status ok))
     (set_status failed) s).1.

(** The state a run leaves the module in. *)
Definition at_rest (run : list Service * Service) : Service := run.2.

(** A state of the module that a job outside of the chain can find: one
    between two jobs of the chain, or the one the chain leaves. *)
Definition observable (run : list Service * Service) (m : Service) : Prop :=
  In m (run.1 ++ [run.2]).

(** [status] *)
Definition status (s : Service) : Status := _nsiStatus s.

(** [cache] *)
Definition cache (s : Service) : Cache := _nsi s.

End Lifecycle.
End Lifecycle.

(** ** The build-time environment: [envs] *)

Module Envs.
Import Chars JS NSI.

(** The double quote, code unit 34. *)
Definition dquote : ascii := ascii_of_nat 34.

Definition hex_digit (n : nat) : ascii := nth n (chars "0123456789abcdef") "0"%char.

(** How [JSON.stringify] writes one code unit of a string: the short
    escapes, [\u00xx] for the other control characters, and the character
    itself otherwise. *)
Definition quote_unit (c : ascii) : list ascii :=
  let n := code c in
  if n =? 8 then [backslash; "b"%char]
  else if n =? 9 then [backslash; "t"%char]
  else if n =? 10 then [backslash; "n"%char]
  else if n =? 12 then [backslash; "f"%char]
  else if n =? 13 then [backslash; "r"%char]
  else if n =? 34 then [backslash; dquote]
  else if n =? 92 then [backslash; backslash]
  else if n <? 32
  then [backslash; "u"%char; "0"%char; "0"%char; hex_digit (n / 16); hex_digit (n mod 16)]
  else [c].

(** [JSON.stringify(v)] for [null] and for a string. *)
Definition JSON_stringify (v : option string) : string :=
  match v with
  | None => "null"
  | Some s => str (dquote :: flat_map quote_unit (chars s) ++ [dquote])
  end.

(** [process.env.ID_PRESETS_CDN_URL || null]: a variable that is not set
    reads [undefined]. *)
Definition or_null (v : option string) : option string :=
  if truthy v then v else None.

(** [envs.ENV__ID_PRESETS_CDN_URL] *)
Definition ENV__ID_PRESETS_CDN_URL (ID_PRESETS_CDN_URL : option string) : string :=
  JSON_stringify (or_null ID_PRESETS_CDN_URL).

(** Reading a string literal back, to tell two literals apart. *)
Definition hex_value (c : ascii) : nat :=
  let n := code c in
  if between 48 57 n then n - 48 else n - 87.

Definition unescape (c : ascii) : ascii :=
  if Ascii.eqb c "b" then ascii_of_nat 8
  else if Ascii.eqb c "t" then ascii_of_nat 9
  else if Ascii.eqb c "n" then ascii_of_nat 10
  else if Ascii.eqb c "f" then ascii_of_nat 12
  else if Ascii.eqb c "r" then ascii_of_nat 13
  else c.

Fixpoint unquote (l : list ascii) : list ascii :=
  match l with
  | [] => []
  | c :: l0 =>
      if Ascii.eqb c backslash then
        match l0 with
        | [] => []
        | d :: l1 =>
            if Ascii.eqb d "u" then
              match l1 with
              | _ :: _ :: x :: y :: l2 =>
                  ascii_of_nat (16 * hex_value x + hex_value y) :: unquote l2
              | _ => []
              end
            else unescape d :: unquote l1
        end
      else c :: unquote l0
  end.

(** The JSON grammar of a string: what stands between the two quotes of a
    string literal, and the string it denotes.  A character from code unit
    32 on other than the quote and the backslash stands for itself; a
    backslash stands before the quote, the backslash or one of [/bfnrt],
    or before [u] and four hexadecimal digits.  Anything else is no string literal.  A [\u]
    escape above code unit 255 denotes no character of this model. *)
Definition is_hex (c : ascii) : bool :=
  between 48 57 (code c) || between 65 70 (code c) || between 97 102 (code c).

Definition hex_digit_value (c : ascii) : nat :=
  let n := code c in
  if between 48 57 n then n - 48
  else if between 65 70 n then n - 55
  else n - 87.

Definition short_escape (c : ascii) : option ascii :=
  if Ascii.eqb c dquote then Some dquote
  else if Ascii.eqb c backslash then Some backslash
  else if Ascii.eqb c "/" then Some "/"%char
  else if Ascii.eqb c "b" then Some (ascii_of_nat 8)
  else if Ascii.eqb c "f" then Some (ascii_of_nat 12)
  else if Ascii.eqb c "n" then Some (ascii_of_nat 10)
  else if Ascii.eqb c "r" then Some (ascii_of_nat 13)
  else if Ascii.eqb c "t" then Some (ascii_of_nat 9)
  else None.

Fixpoint JSON_string_value (l : list ascii) : option (list ascii) :=
  match l with
  | [] => Some []
  | c :: l0 =>
      if Ascii.eqb c backslash then
        match l0 with
        | [] => None
        | d :: l1 =>
            if Ascii.eqb d "u" then
              match l1 with
              | a :: b :: x :: y :: l2 =>
                  if is_hex a && is_hex b && is_hex x && is_hex y
                     && (hex_digit_value a =? 0) && (hex_digit_value b =? 0)
                  then option_map (cons (ascii_of_nat (16 * hex_digit_value x
                                                       + hex_digit_value y)))
                                  (JSON_string_value l2)
                  else None
              | _ => None
              end
            else
              match short_escape d with
              | Some c0 => option_map (cons c0) (JSON_string_value l1)
              | None => None
              end
        end
      else if (code c <? 32) || Ascii.eqb c dquote then None
      else option_map (cons c) (JSON_string_value l0)
  end.

End Envs.

(** * Properties *)

(** ** The derivative matcher decides the language *)

Module RegexFacts.
Import Chars Regex.

Create HintDb lang.
#[local] Hint Constructors lang : lang.


Lemma nullable_lang r : nullable r = true <-> lang r [].
Proof.
  induction r; simpl; split; intros H; try discriminate; eauto with lang.
  - inv H.
  - inv H.
  - apply andb_true_iff in H as [H1 H2].
    change (@nil ascii) with (@nil ascii ++ []). constructor; tauto.
  - inv H.
    match goal with E : _ ++ _ = [] |- _ => apply app_eq_nil in E as [-> ->] end.
    apply andb_true_iff; tauto.
  - apply orb_true_iff in H as [H|H]; [apply lang_alt_l|apply lang_alt_r]; tauto.
  - apply orb_true_iff. inv H; tauto.
Qed.

Lemma lang_star_cons r c l :
  lang (Star r) (c :: l) ->
  exists l1 l2, l = l1 ++ l2 /\ lang r (c :: l1) /\ lang (Star r) l2.
Proof.
  intros H. remember (Star r) as s eqn:Es. remember (c :: l) as cl eqn:El.
  revert c l Es El.
  induction H as [| | | | | |r0 l1 l2 H1 _ H2 IH2]; intros c0 l0 Es El; try discriminate.
  injection Es as ->.
  destruct l1 as [|c1 l1]; simpl in El.
  - eapply IH2; eauto.
  - injection El as <- <-. eauto.
Qed.

Lemma lang_cat_cons r1 r2 c l :
  lang (Cat r1 r2) (c :: l) ->
  (exists l1 l2, l = l1 ++ l2 /\ lang r1 (c :: l1) /\ lang r2 l2)
  \/ (lang r1 [] /\ lang r2 (c :: l)).
Proof.
  intros H. inversion H as [| |? ? l1 l2 H1 H2| | | |]; subst.
  destruct l1 as [|c1 l1]; simpl in *.
  - subst. right. tauto.
  - simplify_eq. left. eauto.
Qed.

Lemma deriv_lang r : forall c l, lang (deriv c r) l <-> lang r (c :: l).
Proof.
  induction r as [| |p|r1 IH1 r2 IH2|r1 IH1 r2 IH2|r IH]; intros c l; simpl.
  - split; intros H; inv H.
  - split; intros H; inv H.
  - destruct (p c) eqn:E; split; intros H.
    + inv H. now constructor.
    + inv H. constructor.
    + inv H.
    + inv H. congruence.
  - assert (Hcat : lang (Cat (deriv c r1) r2) l -> lang (Cat r1 r2) (c :: l)).
    { intros H. inversion H as [| |? ? l1 l2 H1 H2| | | |]; subst.
      apply IH1 in H1. change (c :: l1 ++ l2) with ((c :: l1) ++ l2).
      now constructor. }
    assert (Hinv : lang (Cat r1 r2) (c :: l) ->
                   lang (Cat (deriv c r1) r2) l \/ (lang r1 [] /\ lang r2 (c :: l))).
    { intros H. apply lang_cat_cons in H as [(l1 & l2 & -> & H1 & H2)|H]; [|tauto].
      left. constructor; [now apply IH1|assumption]. }
    destruct (nullable r1) eqn:N; split; intros H.
    + inv H; [now apply Hcat|].
      apply nullable_lang in N. change (c :: l) with ([] ++ c :: l).
      constructor; [assumption|now apply IH2].
    + destruct (Hinv H) as [H'|[_ H']]; [now apply lang_alt_l|].
      apply lang_alt_r. now apply IH2.
    + now apply Hcat.
    + destruct (Hinv H) as [H'|[H' _]]; [assumption|].
      apply nullable_lang in H'. congruence.
  - split; intros H; inv H.
    + apply lang_alt_l. now apply IH1.
    + apply lang_alt_r. now apply IH2.
    + apply lang_alt_l. now apply IH1.
    + apply lang_alt_r. now apply IH2.
  - split; intros H.
    + inversion H as [| |? ? l1 l2 H1 H2| | | |]; subst.
      change (c :: l1 ++ l2) with ((c :: l1) ++ l2).
      constructor; [now apply IH|assumption].
    + apply lang_star_cons in H as (l1 & l2 & -> & H1 & H2).
      constructor; [now apply IH|assumption].
Qed.

Lemma matches_list_lang l : forall r, matches_list r l = true <-> lang r l.
Proof.
  induction l as [|c l IH]; intros r; simpl.
  - apply nullable_lang.
  - rewrite IH. apply deriv_lang.
Qed.

Lemma lang_star_any l : lang (Star any) l.
Proof.
  induction l as [|c l IH]; [constructor|].
  change (c :: l) with ([c] ++ l). constructor; [now constructor|assumption].
Qed.

Lemma lang_plus r l :
  lang (Plus r) l <-> exists l1 l2, l = l1 ++ l2 /\ lang r l1 /\ lang (Star r) l2.
Proof.
  unfold Plus. split.
  - intros H. inv H. eauto.
  - intros (l1 & l2 & -> & H1 & H2). now constructor.
Qed.

Lemma lang_star_cls p l : lang (Star (Cls p)) l <-> forallb p l = true.
Proof.
  split.
  - intros H. remember (Star (Cls p)) as s eqn:Es. revert Es.
    induction H; intros Es; try discriminate; [reflexivity|].
    injection Es as ->. inv H. simpl.
    apply andb_true_iff. auto.
  - induction l as [|c l IH]; simpl; intros H; [constructor|].
    apply andb_true_iff in H as [Hc Hl].
    change (c :: l) with ([c] ++ l). constructor; [now constructor|auto].
Qed.

(** [(.+)] takes a non-empty run without line terminators. *)
Lemma lang_plus_dot l :
  lang (Plus dot) l <-> l <> [] /\ forallb is_dot l = true.
Proof.
  rewrite lang_plus. split.
  - intros (l1 & l2 & -> & H1 & H2). inv H1.
    apply lang_star_cls in H2. simpl. split; [discriminate|].
    apply andb_true_iff. auto.
  - intros [Hne H]. destruct l as [|c l]; [congruence|].
    simpl in H. apply andb_true_iff in H as [Hc Hl].
    exists [c], l. split; [reflexivity|]. split; [now constructor|].
    now apply lang_star_cls.
Qed.

(** A literal under the [i] flag takes the strings that fold to it. *)
Lemma lang_lit_list_i cand l :
  lang (lit_list_i cand) l <-> Forall2 (fun a b => ci_char a b = true) cand l.
Proof.
  revert l. induction cand as [|a cand IH]; intros l; simpl.
  - split; intros H; inv H; constructor.
  - split; intros H.
    + inversion H as [| |? ? l1 l2 H1 H2| | | |]; subst.
      inv H1. simpl. constructor; [assumption|now apply IH].
    + inversion H as [|? b ? l' Hab Hl]; subst.
      change (b :: l') with ([b] ++ l'). constructor; [now constructor|now apply IH].
Qed.

(** [/;/] finds a semicolon anywhere. *)
Lemma test_contains c s :
  test (mkRegExp false (chr c) false) s = true <-> In c (list_ascii_of_string s).
Proof.
  unfold test, matches. simpl bol. simpl eol. simpl body. cbv iota.
  rewrite matches_list_lang. split.
  - intros H. inversion H as [| |? ? l1 l2 _ H2 E| | | |]; subst.
    inversion H2 as [| |? ? l3 l4 H3 _ E3| | | |]; subst.
    inversion H3 as [|? d Hd| | | | |]; subst.
    apply Ascii.eqb_eq in Hd. subst.
    repeat match goal with E : _ = list_ascii_of_string s |- _ => rewrite <- E end.
    apply in_or_app. right. now left.
  - intros H. apply in_split in H as (l1 & l2 & ->).
    constructor; [apply lang_star_any|].
    change (c :: l2) with ([c] ++ l2).
    constructor; [|apply lang_star_any].
    constructor. apply Ascii.eqb_refl.
Qed.

End RegexFacts.

(** ** Dictionaries and the object store *)

Module StoreFacts.
Import Chars Regex JS NSI Spec.

Section alist_facts.
Context {K V : Type} `{EqDecision K}.
Implicit Types (m : list (K * V)) (k : K) (v : V).

Lemma aget_aset m k k' v :
  aget k' (aset k v m) = if decide (k' = k) then Some v else aget k' m.
Proof.
  induction m as [|[k0 v0] m IH]; simpl.
  - repeat case_decide; congruence.
  - repeat (case_decide; simpl); subst; try congruence.
Qed.

Lemma aget_adel m k k' :
  aget k' (adel k m) = if decide (k' = k) then None else aget k' m.
Proof.
  induction m as [|[k0 v0] m IH]; simpl.
  - now case_decide.
  - repeat (case_decide; simpl); subst; try congruence.
Qed.

Lemma aget_Some_In m k v : aget k m = Some v -> In (k, v) m.
Proof.
  induction m as [|[k0 v0] m IH]; simpl; [discriminate|].
  case_decide; [intros [= ->]; subst; now left|auto].
Qed.

Lemma aget_None m k : aget k m = None <-> ~ In k (akeys m).
Proof.
  induction m as [|[k0 v0] m IH]; simpl; [tauto|].
  case_decide; subst.
  - split; [discriminate|]. intros H'. exfalso. apply H'. now left.
  - rewrite IH. split; intros H1 H2; apply H1; [destruct H2; congruence|now right].
Qed.

Lemma aget_is_Some m k : In k (akeys m) -> exists v, aget k m = Some v.
Proof.
  intros Hin. destruct (aget k m) eqn:E; [eauto|].
  apply aget_None in E. contradiction.
Qed.

Lemma akeys_aset_In m k v : In k (akeys m) -> akeys (aset k v m) = akeys m.
Proof.
  induction m as [|[k0 v0] m IH]; simpl; [tauto|].
  intros Hin. case_decide; simpl; [reflexivity|].
  f_equal. apply IH. destruct Hin; congruence.
Qed.

Lemma ahas_In m k : ahas k m = true <-> In k (akeys m).
Proof.
  unfold ahas. destruct (aget k m) eqn:E.
  - split; [|reflexivity]. intros _.
    apply aget_Some_In in E. apply (in_map fst) in E. exact E.
  - apply aget_None in E. split; [discriminate|contradiction].
Qed.
End alist_facts.

Lemma aget_assign (target source : Tags) key :
  aget key (assign target source) =
  match aget key (rev source) with
  | Some value => Some value
  | None => aget key target
  end.
Proof.
  unfold assign. revert target.
  induction source as [|[k v] source IH]; intros target; simpl; [reflexivity|].
  rewrite IH.
  assert (Hrev : forall (l : Tags),
    aget key (l ++ [(k, v)]) =
    match aget key l with Some x => Some x | None => if decide (key = k) then Some v else None end).
  { induction l as [|[k1 v1] l IHl]; simpl; [reflexivity|].
    destruct (decide (key = k1)); [reflexivity|apply IHl]. }
  rewrite Hrev. destruct (aget key (rev source)); [reflexivity|].
  rewrite aget_aset. now destruct (decide (key = k)).
Qed.

(** *** Running a computation *)

Lemma get_object_run (h : Heap) r o :
  h !! r = Some o -> get_object r h = (h, Ok o).
Proof. unfold get_object. now intros ->. Qed.

Lemma update_run (h : Heap) r o f :
  h !! r = Some o -> update r f h = (<[r := f o]> h, Ok tt).
Proof. unfold update. now intros ->. Qed.

Lemma get_prop_run (h : Heap) r o k :
  h !! r = Some o -> get_prop r k h = (h, Ok (aget k o)).
Proof. unfold get_prop, bind, ret. intros H. now rewrite (get_object_run _ _ _ H). Qed.

Lemma bind_run {A B} (m : M A) (f : A -> M B) h h' a :
  m h = (h', Ok a) -> bind m f h = f a h'.
Proof. unfold bind. now intros ->. Qed.



Lemma bind_lift_Ok {A B} (a : A) (f : A -> M B) h : bind (lift (Ok a)) f h = f a h.
Proof. reflexivity. Qed.

Lemma bind_lift_Throw {A B} e (f : A -> M B) h :
  bind (lift (Throw e)) f h = (h, Throw e).
Proof. reflexivity. Qed.

Lemma bind_new_object {B} o (f : nat -> M B) (h : Heap) :
  bind (new_object o) f h = f (length h) (h ++ [o]).
Proof. reflexivity. Qed.

Lemma bind_get_object {B} (f : Tags -> M B) (h : Heap) r o :
  h !! r = Some o -> bind (get_object r) f h = f o h.
Proof. intros H. apply bind_run. now apply get_object_run. Qed.

Lemma bind_get_prop {B} (f : option string -> M B) (h : Heap) r o k :
  h !! r = Some o -> bind (get_prop r k) f h = f (aget k o) h.
Proof. intros H. apply bind_run. now apply get_prop_run. Qed.

Lemma bind_update {B} (f : unit -> M B) (h : Heap) r o g :
  h !! r = Some o -> bind (update r g) f h = f tt (<[r := g o]> h).
Proof. intros H. apply bind_run. now apply update_run. Qed.

Lemma lookup_old (h : Heap) o r x : h !! r = Some x -> (h ++ [o]) !! r = Some x.
Proof. intros H. rewrite lookup_app_l; [assumption|]. now apply lookup_lt_Some in H. Qed.

Lemma lookup_new (h : Heap) o : (h ++ [o]) !! length h = Some o.
Proof. now apply list_lookup_middle. Qed.

Lemma insert_new (h : Heap) o x : <[length h := x]> (h ++ [o]) = h ++ [x].
Proof.
  rewrite insert_app_r_alt by lia. now rewrite Nat.sub_diag.
Qed.



Lemma forEachM_update {A} (g : A -> Tags -> Tags) r (l : list A) : forall (h : Heap) o,
  h !! r = Some o ->
  forEachM (fun x => update r (g x)) l h
  = (<[r := fold_left (fun o x => g x o) l o]> h, Ok tt).
Proof.
  induction l as [|x l IH]; intros h o Hh; simpl.
  - unfold ret. now rewrite list_insert_id.
  - rewrite (bind_update _ _ _ _ _ Hh).
    erewrite IH by (apply list_lookup_insert_eq; now apply lookup_lt_Some in Hh).
    now rewrite list_insert_insert_eq.
Qed.

Lemma lookup_written (h : Heap) r o x : h !! r = Some o -> <[r := x]> h !! r = Some x.
Proof. intros H. apply list_lookup_insert_eq. now apply lookup_lt_Some in H. Qed.

(** *** What a computation leaves alone *)

Lemma keeps_weaken {A} n (m : M A) (P Q : A -> Prop) :
  keeps n m P -> (forall a, P a -> Q a) -> keeps n m Q.
Proof.
  intros Hm HPQ h Hn. destruct (Hm h Hn) as (H1 & H2 & H3). eauto.
Qed.

Lemma keeps_ret {A} n (a : A) (P : A -> Prop) : P a -> keeps n (ret a) P.
Proof.
  intros Ha h Hn. simpl. repeat split; [lia|]. now intros ? [= <-].
Qed.

Lemma keeps_lift {A} n (r : Res A) : keeps n (lift r) (fun _ => True).
Proof. intros h Hn. simpl. repeat split; lia. Qed.

Lemma keeps_bind {A B} n (m : M A) (f : A -> M B) P Q :
  keeps n m P -> (forall a, P a -> keeps n (f a) Q) -> keeps n (bind m f) Q.
Proof.
  intros Hm Hf h Hn. destruct (Hm h Hn) as (H1 & H2 & H3).
  unfold bind. destruct (m h) as [h' [a|e]] eqn:E; simpl in *.
  - destruct (Hf a (H3 a eq_refl) h' ltac:(lia)) as (G1 & G2 & G3).
    repeat split; [congruence|lia|assumption].
  - repeat split; [assumption|assumption|discriminate].
Qed.

Lemma keeps_get_object n r : keeps n (get_object r) (fun _ => True).
Proof.
  intros h Hn. unfold get_object. case_match; simpl; repeat split; lia.
Qed.

Lemma keeps_get_prop n r k : keeps n (get_prop r k) (fun _ => True).
Proof.
  unfold get_prop. eapply keeps_bind; [apply keeps_get_object|].
  intros. now apply keeps_ret.
Qed.

Lemma keeps_new_object n o : keeps n (new_object o) (fun r => n <= r).
Proof.
  intros h Hn. unfold new_object. simpl. repeat split.
  - now rewrite take_app_le.
  - rewrite length_app. lia.
  - now intros ? [= <-].
Qed.

Lemma keeps_update n r f : n <= r -> keeps n (update r f) (fun _ => True).
Proof.
  intros Hr h Hn. unfold update. case_match; simpl.
  - repeat split; [now apply take_insert_ge|].
    rewrite length_insert. lia.
  - repeat split; lia.
Qed.

Lemma keeps_forEachM {A} n (f : A -> M unit) l :
  (forall x, keeps n (f x) (fun _ => True)) ->
  keeps n (forEachM f l) (fun _ => True).
Proof.
  intros Hf. induction l as [|x l IH]; simpl.
  - now apply keeps_ret.
  - eapply keeps_bind; [apply Hf|]. intros. apply IH.
Qed.

End StoreFacts.

(** ** The input of [_upgradeTags] is never written *)

Module FrameFacts.
Import Chars Regex JS NSI Spec StoreFacts.

Ltac keeps_step :=
  lazymatch goal with
  | |- keeps _ (bind _ _) _ => eapply keeps_bind; [|intros ? ?]
  | |- keeps _ (ret _) _ => apply keeps_ret
  | |- keeps _ (lift _) _ => eapply keeps_weaken; [apply keeps_lift|intros ? ?]
  | |- keeps _ (get_object _) _ => eapply keeps_weaken; [apply keeps_get_object|intros ? ?]
  | |- keeps _ (get_prop _ _) _ => eapply keeps_weaken; [apply keeps_get_prop|intros ? ?]
  | |- keeps _ (set_prop _ _ _) _ => eapply keeps_weaken; [apply keeps_update|intros ? ?]
  | |- keeps _ (delete_prop _ _) _ => eapply keeps_weaken; [apply keeps_update|intros ? ?]
  | |- keeps _ (assign_to _ _) _ => eapply keeps_weaken; [apply keeps_update|intros ? ?]
  | |- keeps _ (if ?b then _ else _) _ => destruct b
  | |- keeps _ (match ?x with _ => _ end) _ => destruct x
  end.

Ltac keeps_auto := repeat (first [keeps_step | exact I | assumption | lia]).

Section frame.
Context {Loc : Type}.
Variable matchTags : Tags -> string -> Preset.
Variable RegExp_i : string -> Res (string -> bool).
Variable _nsi : @NsiState Loc.


Lemma keeps_replaceTag n newTags key field changed :
  n <= newTags -> keeps n (replaceTag newTags key field changed) (fun _ => True).
Proof. intros Hn. unfold replaceTag. keeps_auto. Qed.

Lemma keeps_replaceWiki n newTags osmkey changed :
  n <= newTags -> keeps n (replaceWiki _nsi newTags osmkey changed) (fun _ => True).
Proof.
  intros Hn. unfold replaceWiki. keeps_auto.
  - apply keeps_replaceTag; assumption.
  - apply keeps_replaceTag; assumption.
Qed.

Lemma keeps_replaceWiki_forEach n newTags keys : forall changed,
  n <= newTags ->
  keeps n (replaceWiki_forEach _nsi newTags keys changed) (fun _ => True).
Proof.
  induction keys as [|osmkey rest IH]; intros changed Hn; simpl.
  - keeps_auto.
  - keeps_step; [now apply keeps_replaceWiki|]. now apply IH.
Qed.

Lemma keeps_branch_loop n newTags origName candidates :
  n <= newTags -> keeps n (branch_loop newTags origName candidates) (fun _ => True).
Proof.
  intros Hn. induction candidates as [|c rest IH]; simpl; keeps_auto.
Qed.

Lemma keeps_splitBranch n tags newTags :
  n <= newTags -> keeps n (splitBranch tags newTags) (fun _ => True).
Proof.
  intros Hn. unfold splitBranch. keeps_auto.
  now apply keeps_branch_loop.
Qed.

Lemma keeps_upgradeTo n tags newTags foundQID item :
  n <= newTags ->
  keeps n (upgradeTo RegExp_i _nsi tags newTags foundQID item) (fun r => forall r', r = Some r' -> n <= r').
Proof.
  intros Hn. unfold upgradeTo. keeps_auto.
  - apply keeps_forEachM. intros k. now apply keeps_update.
  - now apply keeps_splitBranch.
  - now intros ? [= <-].
Qed.

Lemma keeps_tuples_loop n tags newTags loc foundQID changed tuples :
  n <= newTags ->
  keeps n (tuples_loop RegExp_i _nsi tags newTags loc foundQID changed tuples) (fun r => forall r', r = Some r' -> n <= r').
Proof.
  intros Hn. induction tuples as [|tuple rest IH]; simpl.
  - keeps_auto. destruct changed; [now intros ? [= <-]|discriminate].
  - keeps_auto; now apply keeps_upgradeTo.
Qed.

Lemma keeps_upgradeTags n tags loc :
  keeps n (_upgradeTags matchTags RegExp_i _nsi tags loc) (fun r => forall r', r = Some r' -> n <= r').
Proof.
  unfold _upgradeTags.
  keeps_step; [apply keeps_get_object|].
  keeps_step; [apply keeps_new_object|]. simpl in *.
  keeps_step; [apply keeps_get_object|].
  keeps_step; [now apply keeps_replaceWiki_forEach|].
  keeps_step; [apply keeps_get_object|].
  keeps_step; [apply keeps_lift|].
  keeps_step.
  - keeps_auto. match goal with b : bool |- _ => destruct b end;
      [now intros ? [= <-]|discriminate].
  - keeps_step; [apply keeps_get_object|].
    keeps_step; [apply keeps_lift|].
    keeps_step; [apply keeps_get_prop|].
    keeps_step; [apply keeps_get_prop|].
    keeps_step.
    + keeps_auto. match goal with b : bool |- _ => destruct b end;
        [now intros ? [= <-]|discriminate].
    + now apply keeps_tuples_loop.
Qed.

(** C7.  [_upgradeTags] never writes its input: whatever it returns or
    throws, the object [tags] refers to holds after the call what it held
    before, as does every other object that existed; the store only grows
    by new objects, and a returned object is one of the new ones. *)
Theorem upgradeTags_input_untouched (h : Heap) tags loc :
  let out := _upgradeTags matchTags RegExp_i _nsi tags loc h in
  out.1 !! tags = h !! tags /\
  (exists created, out.1 = h ++ created) /\
  match out.2 with
  | Ok (Some newTags) => length h <= newTags
  | _ => True
  end.
Proof.
  intros out.
  destruct (keeps_upgradeTags (length h) tags loc h (le_n _)) as (Htake & Hlen & Hres).
  fold out in Htake, Hlen, Hres.
  rewrite firstn_all in Htake.
  assert (Hext : out.1 = h ++ drop (length h) out.1).
  { rewrite <- Htake at 1. now rewrite take_drop. }
  split; [|split].
  - destruct (h !! tags) as [o|] eqn:E.
    + rewrite Hext. rewrite lookup_app_l; [assumption|].
      now apply lookup_lt_Some in E.
    + subst out. unfold _upgradeTags, bind, get_object. now rewrite E.
  - eauto.
  - destruct out.2 as [[r|]|]; auto. now apply (Hres (Some r)).
Qed.

End frame.
End FrameFacts.

(** ** [gatherTuples]: the order of the tuples *)

Module TupleFacts.
Import Chars Regex JS NSI Spec.

Lemma chars_app (a b : string) : chars (a +:+ b) = chars a ++ chars b.
Proof. induction a as [|c a IH]; simpl; [reflexivity|]. now rewrite <- IH. Qed.

Lemma length_append (a b : string) :
  String.length (a +:+ b) = String.length a + String.length b.
Proof. induction a as [|c a IH]; simpl; [reflexivity|]. now rewrite IH. Qed.

Lemma str_chars (s : string) : str (chars s) = s.
Proof. apply string_of_list_ascii_of_string. Qed.

Lemma chars_str (l : list ascii) : chars (str l) = l.
Proof. apply list_ascii_of_string_of_list_ascii. Qed.

Lemma split_list_one sep l : ~ In sep l -> split_list sep l = [l].
Proof.
  induction l as [|c l IH]; simpl; intros Hn; [reflexivity|].
  destruct (Ascii.eqb_spec c sep) as [->|Hne]; [exfalso; apply Hn; now left|].
  rewrite IH; [reflexivity|]. intros H. apply Hn. now right.
Qed.

Lemma split_list_cons sep l1 l2 :
  ~ In sep l1 -> split_list sep (l1 ++ sep :: l2) = l1 :: split_list sep l2.
Proof.
  induction l1 as [|c l1 IH]; simpl; intros Hn.
  - now rewrite Ascii.eqb_refl.
  - destruct (Ascii.eqb_spec c sep) as [->|Hne]; [exfalso; apply Hn; now left|].
    rewrite IH; [reflexivity|]. intros H. apply Hn. now right.
Qed.

Lemma split_list_nonempty sep l : split_list sep l <> [].
Proof.
  destruct l as [|c l]; simpl; [discriminate|].
  destruct (Ascii.eqb c sep); [discriminate|].
  destruct (split_list sep l); discriminate.
Qed.

(** [parts[0]] always exists. *)
Lemma split_hd sep n s : exists t, split sep (S n) s = t :: tl (split sep (S n) s).
Proof.
  unfold split. destruct (split_list sep (chars s)) as [|p ps] eqn:E.
  - now apply split_list_nonempty in E.
  - simpl. eauto.
Qed.

(** A pair built as [`${key}/${value}`] from parts without a slash is read
    back as it was. *)
Lemma tuple_of_pair n key value :
  ~ In "/"%char (chars key) -> ~ In "/"%char (chars value) ->
  tuple_of n (key +:+ "/" +:+ value) = mkTuple key (Some value) n.
Proof.
  intros Hk Hv. unfold tuple_of, split.
  rewrite !chars_app. change (chars "/") with ["/"%char]. simpl app.
  rewrite split_list_cons by assumption.
  rewrite split_list_one by assumption. simpl.
  now rewrite !str_chars.
Qed.

Lemma gatherTuples_flat (tryKVs tryNames : Prio JSSet) :
  gatherTuples tryKVs tryNames =
  flat_map (fun n => map (tuple_of n) (primary tryKVs ++ alternate tryKVs))
           (primary tryNames ++ alternate tryNames).
Proof.
  unfold gatherTuples. simpl. rewrite app_nil_r, flat_map_app.
  f_equal; apply flat_map_ext; intros n; now rewrite app_nil_r, map_app.
Qed.

Lemma lookup_blocks {A B C} (f : A -> B -> C) (ys : list B) (xs : list A) :
  forall i j x y, xs !! i = Some x -> ys !! j = Some y ->
    flat_map (fun x => map (f x) ys) xs !! (i * length ys + j) = Some (f x y).
Proof.
  induction xs as [|x0 xs IH]; intros i j x y Hx Hy; [discriminate|].
  simpl. destruct i as [|i]; simpl in *.
  - injection Hx as ->. rewrite lookup_app_l.
    + rewrite list_lookup_fmap, Hy. reflexivity.
    + rewrite length_map. now apply lookup_lt_Some in Hy.
  - rewrite lookup_app_r by (rewrite length_map; lia).
    rewrite length_map.
    replace (length ys + i * length ys + j - length ys) with (i * length ys + j) by lia.
    now apply IH.
Qed.

Lemma length_blocks {A B C} (f : A -> B -> C) (ys : list B) (xs : list A) :
  length (flat_map (fun x => map (f x) ys) xs) = length xs * length ys.
Proof.
  induction xs as [|x xs IH]; simpl; [reflexivity|].
  now rewrite length_app, length_map, IH.
Qed.

(** C5, as the code has it.  [gatherTuples] returns the full cross product
    of the names and the pairs, names outermost (the primary names, then the
    alternate ones) and pairs innermost (for each name the primary pairs,
    then the alternate ones): the tuple of the [i]-th name and the [j]-th
    pair stands at index [i * (number of pairs) + j].  Each pair is split at
    its slashes into [k] and [v]. *)
Theorem gatherTuples_nested_order (tryKVs tryNames : Prio JSSet) :
  let names := primary tryNames ++ alternate tryNames in
  let kvs := primary tryKVs ++ alternate tryKVs in
  gatherTuples tryKVs tryNames = flat_map (fun n => map (tuple_of n) kvs) names /\
  length (gatherTuples tryKVs tryNames) = length names * length kvs /\
  (forall i j n kv, names !! i = Some n -> kvs !! j = Some kv ->
     gatherTuples tryKVs tryNames !! (i * length kvs + j) = Some (tuple_of n kv)) /\
  (forall n key value, ~ In "/"%char (chars key) -> ~ In "/"%char (chars value) ->
     tuple_of n (key +:+ "/" +:+ value) = mkTuple key (Some value) n).
Proof.
  intros names kvs. rewrite gatherTuples_flat. fold names kvs.
  split; [reflexivity|]. split; [apply length_blocks|].
  split; [apply lookup_blocks|apply tuple_of_pair].
Qed.

(** With two primary names, the tuple of the second primary name and a
    primary pair comes after the tuple of the first primary name and an
    alternate pair. *)
Lemma gatherTuples_primary_not_always_first :
  ~ primary_always_first (mkPrio ["shop/x"] ["building/yes"]) (mkPrio ["P1"; "P2"] []).
Proof.
  intros H.
  specialize (H 2 1 "P2" "shop/x" "P1" "building/yes").
  assert (Hlt : 2 < 1); [|lia].
  apply H; simpl; try tauto; reflexivity.
Qed.

Lemma gatherTuples_nested_order_witness :
  gatherTuples (mkPrio ["shop/x"] ["building/yes"]) (mkPrio ["P1"; "P2"] []) !! (1 * 2 + 0)
  = Some (mkTuple "shop" (Some "x") "P2").
Proof.
  destruct (gatherTuples_nested_order (mkPrio ["shop/x"] ["building/yes"]) (mkPrio ["P1"; "P2"] []))
    as (_ & _ & H & _).
  exact (H 1 0 "P2" "shop/x" eq_refl eq_refl).
Defined.

End TupleFacts.

(** ** [gatherKVs], and the service before the data are loaded *)

Module GatherFacts.
Import Chars Regex JS NSI Spec StoreFacts.

Lemma has_In x (s : JSSet) : has x s = true <-> In x s.
Proof.
  unfold has. rewrite existsb_exists. split.
  - intros (y & Hy & E). apply String.eqb_eq in E. now subst.
  - intros H. exists x. split; [assumption|apply String.eqb_refl].
Qed.

Lemma In_add x y (s : JSSet) : In x (add y s) <-> x = y \/ In x s.
Proof.
  unfold add. destruct (has y s) eqn:E.
  - apply has_In in E. split; [tauto|]. intros [->|H]; assumption.
  - rewrite in_app_iff. simpl. split.
    + intros [H|[H|[]]]; [tauto|now left].
    + intros [->|H]; [right; now left|now left].
Qed.

Lemma nonempty_true s : nonempty s = true <-> s <> EmptyString.
Proof.
  unfold nonempty. destruct (String.eqb_spec s EmptyString); simpl; split; congruence.
Qed.

Lemma truthy_Some o : truthy o = true <-> exists s, o = Some s /\ s <> EmptyString.
Proof.
  destruct o as [s|]; simpl.
  - rewrite nonempty_true. split; [eauto|]. now intros (? & [= <-] & ?).
  - split; [discriminate|]. now intros (? & ? & _).
Qed.

Section gather.
Context {Loc : Type}.

(** The pairs the loop of [gatherKVs] files for the keys it is given. *)
Lemma gatherKVs_forEach_loaded (nsi : @Nsi Loc) tags keys : forall acc,
  exists kvs, gatherKVs_forEach (Loaded nsi) tags keys acc = Ok kvs /\
    (forall kv, In kv (primary kvs) <->
       In kv (primary acc) \/
       exists key value, In key keys /\ aget key tags = Some value /\
         value <> EmptyString /\ value <> "yes" /\ In (Some key) (akeys (kvt nsi)) /\
         kv = key +:+ "/" +:+ value) /\
    (forall kv, In kv (alternate kvs) <->
       In kv (alternate acc) \/
       exists key, In key keys /\ aget key tags = Some "yes" /\
         In (Some key) (akeys (kvt nsi)) /\ kv = key +:+ "/yes").
Proof.
  induction keys as [|osmkey rest IH]; intros acc; simpl.
  - exists acc. split; [reflexivity|]. split; intros kv; split; try tauto.
    + intros [H|(? & ? & [] & _)]. assumption.
    + intros [H|(? & [] & _)]. assumption.
  - destruct (truthy (aget osmkey tags)) eqn:Et; simpl.
    2:{ destruct (IH acc) as (kvs & -> & Hp & Ha). exists kvs.
        split; [reflexivity|].
        assert (Hno : forall value, aget osmkey tags = Some value -> value = EmptyString).
        { intros value Hv. rewrite Hv in Et. simpl in Et. unfold nonempty in Et.
          apply negb_false_iff in Et. now apply String.eqb_eq in Et. }
        split; intros kv; [rewrite Hp|rewrite Ha]; split;
          (intros [H|H]; [now left|right]).
        - destruct H as (key & value & Hin & H). exists key, value. tauto.
        - destruct H as (key & value & [<-|Hin] & Hv & Hne & H).
          + now apply Hno in Hv.
          + exists key, value. tauto.
        - destruct H as (key & Hin & H). exists key. tauto.
        - destruct H as (key & [<-|Hin] & Hv & H).
          + now apply Hno in Hv.
          + exists key. tauto. }
    apply truthy_Some in Et as (value & Ev & Hne). rewrite Ev. simpl.
    destruct (aget (Some osmkey) (kvt nsi)) as [vmap|] eqn:Ek.
    + assert (Hin : In (Some osmkey) (akeys (kvt nsi))).
      { apply ahas_In. unfold ahas. now rewrite Ek. }
      destruct (String.eqb_spec value "yes") as [->|Hyes]; simpl.
      * destruct (IH (mkPrio (primary acc) (add (osmkey +:+ "/" +:+ "yes") (alternate acc))))
          as (kvs & -> & Hp & Ha).
        exists kvs. split; [reflexivity|]. simpl in *.
        split; intros kv; [rewrite Hp|rewrite Ha, In_add]; split.
        -- intros [H|(key & value & Hk & H)]; [now left|].
           right. exists key, value. tauto.
        -- intros [H|(key & value & [<-|Hk] & Hv & Hn & Hy & H)]; [now left| |].
           ++ congruence.
           ++ right. exists key, value. tauto.
        -- intros [[->|H]|(key & Hk & H)]; [|now left|].
           ++ right. exists osmkey. tauto.
           ++ right. exists key. tauto.
        -- intros [H|(key & [<-|Hk] & Hv & Hy & ->)]; [tauto| |].
           ++ left. now left.
           ++ right. exists key. tauto.
      * destruct (IH (mkPrio (add (osmkey +:+ "/" +:+ value) (primary acc)) (alternate acc)))
          as (kvs & -> & Hp & Ha).
        exists kvs. split; [reflexivity|]. simpl in *.
        split; intros kv; [rewrite Hp, In_add|rewrite Ha]; split.
        -- intros [[->|H]|(key & v & Hk & H)]; [|now left|].
           ++ right. exists osmkey, value. tauto.
           ++ right. exists key, v. tauto.
        -- intros [H|(key & v & [<-|Hk] & Hv & Hn & Hy & Hi & ->)]; [tauto| |].
           ++ left. left. congruence.
           ++ right. exists key, v. tauto.
        -- intros [H|(key & Hk & H)]; [now left|]. right. exists key. tauto.
        -- intros [H|(key & [<-|Hk] & Hv & H)]; [now left| |].
           ++ congruence.
           ++ right. exists key. tauto.
    + assert (Hnin : ~ In (Some osmkey) (akeys (kvt nsi))) by now apply aget_None.
      destruct (IH acc) as (kvs & -> & Hp & Ha). exists kvs.
      split; [reflexivity|].
      split; intros kv; [rewrite Hp|rewrite Ha]; split;
        (intros [H|H]; [now left|right]).
      * destruct H as (key & v & Hin & H). exists key, v. tauto.
      * destruct H as (key & v & [<-|Hin] & Hv & Hn & Hy & Hi & H); [contradiction|].
        exists key, v. tauto.
      * destruct H as (key & Hin & H). exists key. tauto.
      * destruct H as (key & [<-|Hin] & Hv & Hi & H); [contradiction|].
        exists key. tauto.
Qed.

Variable matchTags : Tags -> string -> Preset.

(** C3, as the code has it.  With the data loaded, [gatherKVs] files the
    pair of every tag whose value is non-empty and whose KEY is a key of
    [kvt], whatever the value: under ['primary'] when the value is not
    ["yes"], under ['alternate'] when it is; ["building/yes"] is added to
    ['alternate'] for a generic building preset; nothing else is filed. *)
Theorem gatherKVs_filters_by_key (nsi : @Nsi Loc) (tags : Tags) :
  exists kvs, gatherKVs matchTags (Loaded nsi) tags = Ok kvs /\
    (forall kv, In kv (primary kvs) <->
       exists key value, aget key tags = Some value /\
         value <> EmptyString /\ value <> "yes" /\ In (Some key) (akeys (kvt nsi)) /\
         kv = key +:+ "/" +:+ value) /\
    (forall kv, In kv (alternate kvs) <->
       (exists key, aget key tags = Some "yes" /\
          In (Some key) (akeys (kvt nsi)) /\ kv = key +:+ "/yes") \/
       (buildingPreset (preset_id (matchTags tags "area")) = true /\
        kv = "building/yes")).
Proof.
  unfold gatherKVs.
  destruct (gatherKVs_forEach_loaded nsi tags (akeys tags) (mkPrio [] []))
    as (acc & -> & Hp & Ha). simpl.
  assert (Hkeys : forall key value, aget key tags = Some value -> In key (akeys tags)).
  { intros key value H. apply aget_Some_In in H. now apply (in_map fst) in H. }
  assert (Hp' : forall kv, In kv (primary acc) <->
       exists key value, aget key tags = Some value /\
         value <> EmptyString /\ value <> "yes" /\ In (Some key) (akeys (kvt nsi)) /\
         kv = key +:+ "/" +:+ value).
  { intros kv. rewrite Hp. simpl. split.
    - intros [[]|(key & value & _ & H)]. eauto.
    - intros (key & value & Hv & H). right. exists key, value.
      split; [eapply Hkeys; eauto|tauto]. }
  assert (Ha' : forall kv, In kv (alternate acc) <->
       exists key, aget key tags = Some "yes" /\
          In (Some key) (akeys (kvt nsi)) /\ kv = key +:+ "/yes").
  { intros kv. rewrite Ha. simpl. split.
    - intros [[]|(key & _ & H)]. eauto.
    - intros (key & Hv & H). right. exists key.
      split; [eapply Hkeys; eauto|tauto]. }
  destruct (buildingPreset (preset_id (matchTags tags "area"))) eqn:Eb.
  - eexists. split; [reflexivity|]. simpl. split; [exact Hp'|].
    intros kv. rewrite In_add, Ha'. split.
    + intros [->|H]; [right; tauto|now left].
    + intros [H|[_ ->]]; [now right|now left].
  - exists acc. split; [reflexivity|]. split; [exact Hp'|].
    intros kv. rewrite Ha'. split; [now left|]. intros [H|[H _]]; [assumption|discriminate].
Qed.

End gather.

Lemma gatherKVs_filters_by_key_witness :
  exists kvs, gatherKVs no_preset (Loaded sample_nsi) [("shop", "bakery")] = Ok kvs /\
    In "shop/bakery" (primary kvs).
Proof.
  destruct (gatherKVs_filters_by_key no_preset sample_nsi [("shop", "bakery")])
    as (kvs & E & Hp & _).
  exists kvs. split; [exact E|]. apply Hp.
  exists "shop", "bakery". repeat split; try discriminate.
  simpl. now left.
Defined.

(** The value [bakery] has no entry under [shop] in [kvt], and the pair is
    filed all the same. *)
Lemma gatherKVs_files_unknown_value :
  (exists vmap, aget (Some "shop") (kvt sample_nsi) = Some vmap /\
                aget (Some "bakery") vmap = None) /\
  gatherKVs no_preset (Loaded sample_nsi) [("shop", "bakery")]
  = Ok (mkPrio ["shop/bakery"] []).
Proof.
  split; [|reflexivity]. eexists. split; reflexivity.
Qed.

End GatherFacts.

(** ** The service before the data are loaded *)

Module PreloadFacts.
Import Chars Regex JS NSI Spec StoreFacts GatherFacts.

Section preload.
Context {Loc : Type}.
Variable matchTags : Tags -> string -> Preset.
Variable RegExp_i : string -> Res (string -> bool).




Lemma matchTag_test osmkey :
  (exists prefix, matchTag osmkey = Some prefix) <-> test wikidataKey osmkey = true.
Proof.
  unfold matchTag. destruct (test wikidataKey osmkey); split; eauto; try discriminate.
  now intros (? & ?).
Qed.



End preload.



End PreloadFacts.

(** ** [gatherNames]: a value with a semicolon empties the result *)

Module NameFacts.
Import Chars Regex JS NSI Spec StoreFacts GatherFacts RegexFacts.

Lemma test_semicolon value :
  test semicolon value = true <-> In ";"%char (chars value).
Proof. apply test_contains. Qed.

Lemma clean_add v l :
  ~ In ";"%char (chars v) ->
  Forall (fun v => ~ In ";"%char (chars v)) l ->
  Forall (fun v => ~ In ";"%char (chars v)) (add v l).
Proof.
  intros Hv Hl. unfold add. destruct (has v l); [assumption|].
  apply Forall_app. split; [assumption|]. now constructor.
Qed.

Lemma step_clean patterns tags st osmkey :
  clean st -> clean (gatherNames_step patterns tags st osmkey).
Proof.
  intros Hc. unfold gatherNames_step.
  destruct (truthy (aget osmkey tags)); simpl; [|assumption].
  destruct (isNamelike patterns osmkey Primary).
  - destruct (test semicolon _) eqn:Es; [assumption|].
    unfold clean; simpl. apply clean_add; [|assumption].
    intros H. apply test_semicolon in H. congruence.
  - destruct (_ && _); [|assumption].
    destruct (test semicolon _); assumption.
Qed.

Lemma step_keeps_semi patterns tags st osmkey :
  foundSemi st = true -> foundSemi (gatherNames_step patterns tags st osmkey) = true.
Proof.
  intros Hf. unfold gatherNames_step.
  repeat (match goal with |- context [if ?b then _ else _] => destruct b end; simpl);
    auto.
Qed.

Lemma fold_keeps_semi patterns tags keys : forall st,
  foundSemi st = true ->
  foundSemi (fold_left (gatherNames_step patterns tags) keys st) = true.
Proof.
  induction keys as [|k keys IH]; intros st Hf; simpl; [assumption|].
  apply IH. now apply step_keeps_semi.
Qed.

Lemma step_finds_semi tags st key value :
  clean st -> namelike_tag tags key value -> In ";"%char (chars value) ->
  foundSemi (gatherNames_step (patterns_of tags) tags st key) = true.
Proof.
  intros Hc (Hv & Hne & Hlike) Hsemi. unfold gatherNames_step.
  rewrite Hv. simpl. apply nonempty_true in Hne. rewrite Hne. simpl.
  apply test_semicolon in Hsemi as Ht. rewrite Ht.
  destruct (isNamelike (patterns_of tags) key Primary) eqn:Ep; [reflexivity|].
  destruct Hlike as [?|Ha]; [discriminate|]. rewrite Ha.
  assert (Hhas : has value (names_primary st) = false).
  { destruct (has value (names_primary st)) eqn:E; [|reflexivity].
    apply has_In in E. unfold clean in Hc. rewrite List.Forall_forall in Hc.
    now apply Hc in E. }
  now rewrite Hhas.
Qed.

Lemma fold_finds_semi tags keys key value : forall st,
  clean st -> In key keys -> namelike_tag tags key value ->
  In ";"%char (chars value) ->
  foundSemi (fold_left (gatherNames_step (patterns_of tags) tags) keys st) = true.
Proof.
  induction keys as [|k keys IH]; intros st Hc Hin Hl Hs; [destruct Hin|].
  simpl. destruct Hin as [->|Hin].
  - apply fold_keeps_semi. now apply step_finds_semi with value.
  - apply IH; [now apply step_clean|assumption..].
Qed.

Lemma country_keeps_semi tags st :
  foundSemi st = true -> foundSemi (gatherNames_country tags st) = true.
Proof.
  intros Hf. unfold gatherNames_country.
  destruct (_ && _); [|assumption]. now destruct (test semicolon _).
Qed.

(** When every name-like tag has a semicolon, the loop gathers nothing. *)
Lemma step_gathers_nothing tags st key :
  (forall key v, namelike_tag tags key v -> In ";"%char (chars v)) ->
  names_primary (gatherNames_step (patterns_of tags) tags st key) = names_primary st /\
  names_alternate (gatherNames_step (patterns_of tags) tags st key) = names_alternate st.
Proof.
  intros Hall. unfold gatherNames_step.
  destruct (truthy (aget key tags)) eqn:Et; simpl; [|tauto].
  apply truthy_Some in Et as (v & Ev & Hne). rewrite Ev. simpl.
  destruct (isNamelike (patterns_of tags) key Primary) eqn:Ep.
  - assert (Hs : test semicolon v = true).
    { apply test_semicolon. apply (Hall key). repeat split; auto. }
    rewrite Hs. tauto.
  - destruct (negb _ && isNamelike (patterns_of tags) key Alternate) eqn:Ea; [|tauto].
    apply andb_true_iff in Ea as [_ Ea].
    assert (Hs : test semicolon v = true).
    { apply test_semicolon. apply (Hall key). repeat split; auto. }
    rewrite Hs. tauto.
Qed.

Lemma fold_gathers_nothing tags keys : forall st,
  (forall key v, namelike_tag tags key v -> In ";"%char (chars v)) ->
  let st' := fold_left (gatherNames_step (patterns_of tags) tags) keys st in
  names_primary st' = names_primary st /\ names_alternate st' = names_alternate st.
Proof.
  induction keys as [|k keys IH]; intros st Hall; simpl; [tauto|].
  destruct (IH (gatherNames_step (patterns_of tags) tags st k) Hall) as [-> ->].
  now apply step_gathers_nothing.
Qed.

Lemma gatherNames_semicolon tags value :
  name_candidate tags value -> In ";"%char (chars value) ->
  gatherNames tags = mkPrio [] [].
Proof.
  intros Hcand Hsemi. unfold gatherNames.
  assert (Hclean : clean (mkNames [] [] false)) by constructor.
  set (st := fold_left _ _ _).
  enough (Hf : foundSemi (gatherNames_country tags st) = true) by now rewrite Hf.
  destruct Hcand as [(key & Hl)|(Hm & Hc & Hne & Hall)].
  - apply country_keeps_semi. subst st.
    apply fold_finds_semi with key value; auto.
    destruct Hl as (Hv & _). apply aget_Some_In in Hv.
    now apply (in_map fst) in Hv.
  - destruct (fold_gathers_nothing tags (akeys tags) (mkNames [] [] false) Hall)
      as [Hp Ha]. fold st in Hp, Ha. simpl in Hp, Ha.
    unfold gatherNames_country. rewrite Hm, Hp, Ha, Hc. simpl.
    apply nonempty_true in Hne. rewrite Hne. simpl.
    apply test_semicolon in Hsemi. now rewrite Hsemi.
Qed.

End NameFacts.

(** ** [_upgradeTags] with the data loaded: up to the loop over the tuples *)

Module UpgradeFacts.
Import Chars Regex JS NSI Spec StoreFacts GatherFacts RegexFacts NameFacts.

Lemma aset_fresh (m : Tags) k v : ~ In k (akeys m) -> aset k v m = m ++ [(k, v)].
Proof.
  induction m as [|[k0 v0] m IH]; simpl; intros Hn; [reflexivity|].
  case_decide; [exfalso; apply Hn; now left|].
  rewrite IH; [reflexivity|]. intros H'. apply Hn. now right.
Qed.

Lemma assign_fresh (source : Tags) : forall target : Tags,
  NoDup (akeys source) ->
  (forall k, In k (akeys source) -> ~ In k (akeys target)) ->
  assign target source = target ++ source.
Proof.
  unfold assign.
  induction source as [|[k v] source IH]; intros target Hnd Hdis; simpl.
  - now rewrite app_nil_r.
  - simpl in Hnd. apply NoDup_cons in Hnd as [Hk Hnd].
    rewrite aset_fresh by (apply Hdis; now left).
    rewrite IH; [now rewrite <- app_assoc|assumption|].
    intros k' Hk' Hin. unfold akeys in Hin. rewrite map_app, in_app_iff in Hin.
    destruct Hin as [Hin|[<-|[]]].
    + apply (Hdis k'); [now right|assumption].
    + apply Hk. now apply list_elem_of_In.
Qed.

(** [Object.assign({}, tags)] is a copy. *)
Lemma assign_copy (o : Tags) : NoDup (akeys o) -> assign [] o = o.
Proof. intros H. rewrite assign_fresh; auto. Qed.

Section run.
Context {Loc : Type}.
Variable matchTags : Tags -> string -> Preset.
Variable RegExp_i : string -> Res (string -> bool).
Variable nsi : @Nsi Loc.

Lemma gatherKVs_total tags : exists kvs, gatherKVs matchTags (Loaded nsi) tags = Ok kvs.
Proof.
  unfold gatherKVs.
  destruct (gatherKVs_forEach_loaded nsi tags (akeys tags) (mkPrio [] []))
    as (acc & -> & _). simpl.
  destruct (buildingPreset _); eauto.
Qed.

Lemma replaceTag_run newTags key field changed (h : Heap) x :
  h !! newTags = Some x ->
  exists x' changed',
    replaceTag newTags key field changed h = (<[newTags := x']> h, Ok changed') /\
    forall k, k <> key -> aget k x' = aget k x.
Proof.
  intros Hh. unfold replaceTag. destruct field as [value|].
  - destruct (truthy value).
    + unfold set_prop. rewrite (bind_update _ _ _ _ _ Hh).
      eexists _, _. split; [reflexivity|]. intros k Hk.
      rewrite aget_aset. now destruct (decide (k = key)).
    + unfold delete_prop. rewrite (bind_update _ _ _ _ _ Hh).
      eexists _, _. split; [reflexivity|]. intros k Hk.
      rewrite aget_adel. now destruct (decide (k = key)).
  - exists x, changed. split; [|reflexivity].
    unfold ret. now rewrite list_insert_id.
Qed.

Lemma replaceWiki_run newTags osmkey changed (h : Heap) x :
  h !! newTags = Some x ->
  exists x' changed',
    replaceWiki (Loaded nsi) newTags osmkey changed h = (<[newTags := x']> h, Ok changed') /\
    forall k, untouched k -> aget k x' = aget k x.
Proof.
  intros Hh. unfold replaceWiki, matchTag.
  assert (Hid : (h, @Ok bool changed) = (<[newTags := x]> h, Ok changed))
    by now rewrite list_insert_id.
  destruct (test wikidataKey osmkey) eqn:Et; [|exists x, changed; split; [exact Hid|reflexivity]].
  rewrite (bind_get_prop _ _ _ _ _ Hh). simpl. rewrite bind_lift_Ok.
  destruct (aget _ (replacements nsi)) as [replace|];
    [|exists x, changed; split; [exact Hid|reflexivity]].
  destruct (replaceTag_run newTags osmkey (wikidata replace) changed h x Hh)
    as (x1 & c1 & E1 & H1).
  rewrite (bind_run _ _ _ _ _ E1).
  assert (Hh1 : <[newTags := x1]> h !! newTags = Some x1).
  { apply list_lookup_insert_eq. now apply lookup_lt_Some in Hh. }
  destruct (replaceTag_run newTags
              (substring 0 (String.length osmkey - 8) osmkey +:+ "wikipedia")
              (wikipedia replace) c1 _ x1 Hh1) as (x2 & c2 & E2 & H2).
  rewrite E2, list_insert_insert_eq. exists x2, c2. split; [reflexivity|].
  intros k [Hk1 Hk2]. rewrite H2 by apply Hk2. apply H1. congruence.
Qed.

Lemma replaceWiki_forEach_run newTags keys : forall changed (h : Heap) x,
  h !! newTags = Some x ->
  exists x' changed',
    replaceWiki_forEach (Loaded nsi) newTags keys changed h
      = (<[newTags := x']> h, Ok changed') /\
    forall k, untouched k -> aget k x' = aget k x.
Proof.
  induction keys as [|osmkey rest IH]; intros changed h x Hh; simpl.
  - exists x, changed. split; [|reflexivity]. unfold ret. now rewrite list_insert_id.
  - destruct (replaceWiki_run newTags osmkey changed h x Hh) as (x1 & c1 & E1 & H1).
    rewrite (bind_run _ _ _ _ _ E1).
    assert (Hh1 : <[newTags := x1]> h !! newTags = Some x1).
    { apply list_lookup_insert_eq. now apply lookup_lt_Some in Hh. }
    destruct (IH c1 _ x1 Hh1) as (x2 & c2 & E2 & H2).
    rewrite E2, list_insert_insert_eq. exists x2, c2. split; [reflexivity|].
    intros k Hk. rewrite H2 by assumption. now apply H1.
Qed.

(** With the data loaded, [_upgradeTags] copies the tags, rewrites the copy
    (never throwing), gathers the pairs and the names from the input, and
    either returns at once or enters the loop over the tuples. *)
Lemma upgradeTags_loaded (h : Heap) tags o loc :
  h !! tags = Some o ->
  exists x changed kvs,
    replaceWiki_forEach (Loaded nsi) (length h) (akeys (assign [] o)) false
                        (h ++ [assign [] o]) = (h ++ [x], Ok changed) /\
    (forall k, untouched k -> aget k x = aget k (assign [] o)) /\
    gatherKVs matchTags (Loaded nsi) o = Ok kvs /\
    _upgradeTags matchTags RegExp_i (Loaded nsi) tags loc h =
      if (size (primary kvs) =? 0) && (size (alternate kvs) =? 0)
      then (h ++ [x], Ok (if changed then Some (length h) else None))
      else if (size (primary (tryNames_of nsi o)) =? 0)
              && (size (alternate (tryNames_of nsi o)) =? 0)
      then (h ++ [x], Ok (if changed then Some (length h) else None))
      else tuples_loop RegExp_i (Loaded nsi) tags (length h) loc
             (foundQID_of nsi o) changed
             (gatherTuples kvs (tryNames_of nsi o)) (h ++ [x]).
Proof.
  intros Hh.
  destruct (replaceWiki_forEach_run (length h) (akeys (assign [] o)) false
              (h ++ [assign [] o]) (assign [] o) (lookup_new _ _))
    as (x & changed & E1 & H1).
  rewrite insert_new in E1.
  destruct (gatherKVs_total o) as (kvs & Ekv).
  exists x, changed, kvs. repeat split; try assumption.
  unfold _upgradeTags.
  rewrite (bind_get_object _ _ _ _ Hh), bind_new_object.
  rewrite (bind_get_object _ _ _ _ (lookup_new _ _)).
  rewrite (bind_run _ _ _ _ _ E1).
  assert (Ht : (h ++ [x]) !! tags = Some o) by now apply lookup_old.
  rewrite (bind_get_object _ _ _ _ Ht), Ekv, bind_lift_Ok.
  destruct ((size (primary kvs) =? 0) && (size (alternate kvs) =? 0)); [reflexivity|].
  rewrite (bind_get_object _ _ _ _ Ht). simpl nsi_field. rewrite bind_lift_Ok.
  rewrite (bind_get_prop _ _ _ _ _ Ht), (bind_get_prop _ _ _ _ _ Ht).
  unfold tryNames_of, foundQID_of.
  match goal with |- context [if ?c then ret _ else _] => destruct c end;
    reflexivity.
Qed.

End run.

(** C4.  A name-like value with a semicolon empties the whole result of
    [gatherNames]; then, unless a wikidata or wikipedia tag resolves through
    [qids], [_upgradeTags] returns [null], or the copy when a wikidata
    replacement changed it; for the tags [{shop: "supermarket", name: "A;B"}]
    no name is gathered and the result is [null], whatever the index, the
    matcher and the presets. *)
Theorem semicolon_names_dropped :
  (forall tags value,
     name_candidate tags value -> In ";"%char (chars value) ->
     gatherNames tags = mkPrio [] []) /\
  (forall Loc matchTags RegExp_i (nsi : @Nsi Loc) (h : Heap) tags o loc value,
     h !! tags = Some o ->
     name_candidate o value -> In ";"%char (chars value) ->
     truthy (foundQID_of nsi o) = false ->
     exists x changed,
       replaceWiki_forEach (Loaded nsi) (length h) (akeys (assign [] o)) false
                           (h ++ [assign [] o]) = (h ++ [x], Ok changed) /\
       _upgradeTags matchTags RegExp_i (Loaded nsi) tags loc h
       = (h ++ [x], Ok (if changed then Some (length h) else None))) /\
  (forall Loc matchTags RegExp_i (nsi : @Nsi Loc) (h : Heap) tags loc,
     let o := [("shop", "supermarket"); ("name", "A;B")] in
     h !! tags = Some o ->
     gatherNames o = mkPrio [] [] /\
     _upgradeTags matchTags RegExp_i (Loaded nsi) tags loc h = (h ++ [o], Ok None)).
Proof.
  split; [exact gatherNames_semicolon|]. split.
  - intros Loc matchTags RegExp_i nsi h tags o loc value Hh Hc Hs Hq.
    destruct (upgradeTags_loaded matchTags RegExp_i nsi h tags o loc Hh)
      as (x & changed & kvs & E1 & _ & _ & ->).
    exists x, changed. split; [assumption|].
    unfold tryNames_of. rewrite Hq, (gatherNames_semicolon o value Hc Hs). simpl.
    now destruct (_ && _).
  - intros Loc matchTags RegExp_i nsi h tags loc o Hh.
    split; [reflexivity|].
    destruct (upgradeTags_loaded matchTags RegExp_i nsi h tags o loc Hh)
      as (x & changed & kvs & E1 & _ & _ & ->).
    assert (Ex : h ++ [x] = h ++ [o] /\ changed = false).
    { change (assign [] o) with o in E1. simpl in E1. unfold replaceWiki in E1.
      change (matchTag "shop") with (@None string) in E1.
      change (matchTag "name") with (@None string) in E1.
      cbn in E1. injection E1 as E1 E2. now split. }
    destruct Ex as [-> ->].
    change (tryNames_of nsi o) with (mkPrio (@nil string) (@nil string)). simpl.
    now destruct (_ && _).
Qed.

Lemma semicolon_names_dropped_witness :
  gatherNames [("shop", "supermarket"); ("name", "A;B")] = mkPrio [] [].
Proof.
  apply (proj1 semicolon_names_dropped _ "A;B").
  - left. exists "name". repeat split; [discriminate|]. left. reflexivity.
  - simpl. tauto.
Defined.

End UpgradeFacts.

(** ** [loadNsiData]: when the build of the indices fails *)

Module BuildFacts.
Import Chars Regex JS NSI Spec StoreFacts TupleFacts.

Section build.
Context {Loc : Type}.
Variable Matcher : Data -> Res (@MatchFn Loc).

(** What one turn of the build returns: the indices of a category whose
    tree is filed, or [kvt] alone for a category without items under an
    inherited name. *)
Lemma indexCategory_Ok (nsi nsi0 : @Nsi Loc) tkv :
  indexCategory nsi tkv = Ok nsi0 ->
  let t := hd EmptyString (split "/" 3 tkv) in
  let k := split "/" 3 tkv !! 1 in
  let v := split "/" 3 tkv !! 2 in
  let kvt0 := aset k (aset v t (default [] (aget k (kvt nsi)))) (kvt nsi) in
  exists category,
    aget tkv (data nsi) = Some category /\
    ((exists tree,
        aget t (trees nsi) = Some tree /\
        let items0 := map (annotate tkv (mainTag tree)) (default [] (items category)) in
        let c := fold_left (cacheItem (mainTag tree)) items0 (ids nsi, qids nsi) in
        nsi0 =
        mkNsi (match items category with
               | Some _ => aset tkv (mkCategory (Some items0) (properties category)) (data nsi)
               | None => data nsi
               end)
              (dissolved nsi) (replacements nsi) (trees nsi) kvt0 c.2 c.1 (matcher nsi)) \/
     (aget t (trees nsi) = None /\ inherited t = true /\
      default [] (items category) = [] /\
      nsi0 = mkNsi (data nsi) (dissolved nsi) (replacements nsi) (trees nsi)
                   kvt0 (qids nsi) (ids nsi) (matcher nsi))).
Proof.
  unfold indexCategory, tree_mainTag. cbv zeta.
  destruct (aget (hd EmptyString (split "/" 3 tkv)) (trees nsi)) as [tree|] eqn:Et.
  - simpl. destruct (aget tkv (data nsi)) as [category|]; [|discriminate].
    simpl. intros [= <-]. exists category. split; [reflexivity|]. left.
    exists tree. split; reflexivity.
  - destruct (inherited _) eqn:Ei; [|discriminate].
    simpl. destruct (aget tkv (data nsi)) as [category|]; [|discriminate].
    simpl. destruct (default [] (items category)) eqn:Eitems; [|discriminate].
    intros [= <-]. exists category. split; [reflexivity|]. right. auto.
Qed.

(** A turn changes neither the downloaded values nor the matcher, and keeps
    the keys of the data. *)
Lemma indexCategory_frame (nsi nsi0 : @Nsi Loc) tkv :
  indexCategory nsi tkv = Ok nsi0 ->
  dissolved nsi0 = dissolved nsi /\ replacements nsi0 = replacements nsi /\
  trees nsi0 = trees nsi /\ matcher nsi0 = matcher nsi /\
  akeys (data nsi0) = akeys (data nsi).
Proof.
  intros E. apply indexCategory_Ok in E as (category & Ec & [(tree & Et & ->)|(_ & _ & _ & ->)]);
    simpl; repeat split.
  destruct (items category); [|reflexivity].
  apply akeys_aset_In. apply aget_Some_In in Ec. now apply (in_map fst) in Ec.
Qed.

(** A turn that throws throws a [TypeError]. *)
Lemma indexCategory_Throw (nsi : @Nsi Loc) tkv e :
  indexCategory nsi tkv = Throw e -> e = TypeError.
Proof.
  unfold indexCategory, tree_mainTag. cbv zeta.
  destruct (aget (hd EmptyString (split "/" 3 tkv)) (trees nsi)) as [tree|]; simpl.
  - destruct (aget tkv (data nsi)); simpl; [discriminate|now intros [= <-]].
  - destruct (inherited _); simpl; [|now intros [= <-]].
    destruct (aget tkv (data nsi)) as [category|]; simpl; [|now intros [= <-]].
    destruct (default [] (items category)); [discriminate|now intros [= <-]].
Qed.

(** A turn goes through exactly for a buildable key. *)
Lemma indexCategory_buildable (nsi : @Nsi Loc) tkv :
  In tkv (akeys (data nsi)) ->
  (exists nsi0, indexCategory nsi tkv = Ok nsi0) <->
  buildable (data nsi) (trees nsi) tkv.
Proof.
  intros Hin. destruct (aget_is_Some _ _ Hin) as (category & Ec).
  unfold buildable. split.
  - intros (nsi0 & E).
    apply indexCategory_Ok in E as (c & Ec' & [(tree & Et & _)|(_ & Hi & Hitems & _)]).
    + left. apply aget_Some_In in Et. now apply (in_map fst) in Et.
    + right. split; [assumption|]. intros c0 Hc0. congruence.
  - unfold indexCategory, tree_mainTag. cbv zeta. rewrite Ec.
    intros [Ht|[Hi Hitems]].
    + destruct (aget_is_Some _ _ Ht) as (tree & ->). simpl. eauto.
    + destruct (aget _ (trees nsi)); simpl; [eauto|].
      rewrite Hi. simpl. rewrite (Hitems category eq_refl). eauto.
Qed.

(** Which keys are buildable does not change as the build goes on. *)
Lemma buildable_step (nsi nsi0 : @Nsi Loc) tkv tkv' :
  indexCategory nsi tkv = Ok nsi0 ->
  buildable (data nsi0) (trees nsi0) tkv' <-> buildable (data nsi) (trees nsi) tkv'.
Proof.
  intros E. apply indexCategory_Ok in E as (category & Ec & [(tree & Et & ->)|(_ & _ & _ & ->)]);
    simpl; [|reflexivity].
  unfold buildable.
  enough (H : (forall c, aget tkv'
                 (match items category with
                  | Some _ => aset tkv (mkCategory
                      (Some (map (annotate tkv (mainTag tree)) (default [] (items category))))
                      (properties category)) (data nsi)
                  | None => data nsi
                  end) = Some c -> default [] (items c) = []) <->
              (forall c, aget tkv' (data nsi) = Some c -> default [] (items c) = []))
    by now rewrite H.
  destruct (items category) as [l|] eqn:Ei; [|reflexivity].
  split; intros H c.
  - intros Hc. destruct (decide (tkv' = tkv)) as [->|Hne].
    + assert (c = category) by congruence. subst c. rewrite Ei. simpl.
      specialize (H (mkCategory (Some (map (annotate tkv (mainTag tree)) l))
                                (properties category))).
      rewrite aget_aset in H. destruct (decide (tkv = tkv)); [|congruence].
      specialize (H eq_refl). simpl in H. now destruct l.
    + apply H. rewrite aget_aset. now destruct (decide (tkv' = tkv)).
  - rewrite aget_aset. destruct (decide (tkv' = tkv)) as [->|Hne]; [|apply H].
    intros [= <-]. simpl. specialize (H category Ec). rewrite Ei in H.
    simpl in H. now rewrite H.
Qed.

Lemma forEach_tkv_cases tkvs : forall nsi : @Nsi Loc,
  (forall tkv, In tkv tkvs -> In tkv (akeys (data nsi))) ->
  ((exists nsi0, forEach_tkv nsi tkvs = Ok nsi0) <->
   forall tkv, In tkv tkvs -> buildable (data nsi) (trees nsi) tkv) /\
  (forall e, forEach_tkv nsi tkvs = Throw e -> e = TypeError).
Proof.
  induction tkvs as [|tkv rest IH]; intros nsi Hkeys; simpl.
  - split; [|discriminate]. split; [intros _ ? []|eauto].
  - pose proof (indexCategory_buildable nsi tkv (Hkeys tkv (or_introl eq_refl))) as Hb.
    destruct (indexCategory nsi tkv) as [nsi0|e0] eqn:E0; simpl.
    + destruct (indexCategory_frame _ _ _ E0) as (_ & _ & _ & _ & Hd).
      assert (Hkeys0 : forall tkv, In tkv rest -> In tkv (akeys (data nsi0))).
      { intros ? ?. rewrite Hd. apply Hkeys. now right. }
      destruct (IH nsi0 Hkeys0) as [IH1 IH2].
      split; [|exact IH2]. rewrite IH1. split.
      * intros H tkv' [<-|Hin]; [apply Hb; eauto|].
        apply (buildable_step _ _ _ tkv' E0). now apply H.
      * intros H tkv' Hin. apply (buildable_step _ _ _ tkv' E0). apply H. now right.
    + split.
      * split; [intros (? & ?); discriminate|].
        intros H. exfalso.
        destruct (proj2 Hb (H tkv (or_introl eq_refl))) as (? & ?). discriminate.
      * intros e [= <-]. now apply indexCategory_Throw in E0.
Qed.

(** What the build files under an id: an item with that id, annotated with
    its tkv key and with the main tag of the tree the key names. *)
Lemma cacheItem_ids mainTag (P : string -> Item -> Prop) items : forall c,
  (forall id item, aget id c.1 = Some item -> P id item) ->
  (forall item, In item items -> P (item_id item) item) ->
  forall id item,
    aget id (fold_left (cacheItem mainTag) items c).1 = Some item -> P id item.
Proof.
  induction items as [|item0 items IH]; intros c Hc Hitems id item; simpl; [apply Hc|].
  apply IH.
  - intros id' item'. unfold cacheItem. simpl. rewrite aget_aset.
    destruct (decide (id' = item_id item0)) as [->|_]; [|apply Hc].
    intros [= <-]. apply Hitems. now left.
  - intros item' Hin. apply Hitems. now right.
Qed.

Lemma indexCategory_ids (nsi nsi0 : @Nsi Loc) tkv (P : string -> Item -> Prop) :
  indexCategory nsi tkv = Ok nsi0 ->
  (forall id item, aget id (ids nsi) = Some item -> P id item) ->
  (forall tree item,
     aget (hd EmptyString (split "/" 3 tkv)) (trees nsi) = Some tree ->
     P (item_id item) (annotate tkv (mainTag tree) item)) ->
  forall id item, aget id (ids nsi0) = Some item -> P id item.
Proof.
  intros E Hold Hnew.
  apply indexCategory_Ok in E as (category & Ec & [(tree & Et & ->)|(_ & _ & _ & ->)]);
    simpl; [|exact Hold].
  apply cacheItem_ids; [exact Hold|].
  intros item Hin. apply in_map_iff in Hin as (raw & <- & _).
  now apply (Hnew tree raw).
Qed.

Lemma forEach_tkv_ids tkvs (P : string -> Item -> Prop) : forall nsi nsi0 : @Nsi Loc,
  forEach_tkv nsi tkvs = Ok nsi0 ->
  (forall id item, aget id (ids nsi) = Some item -> P id item) ->
  (forall tkv tree item,
     In tkv tkvs ->
     aget (hd EmptyString (split "/" 3 tkv)) (trees nsi) = Some tree ->
     P (item_id item) (annotate tkv (mainTag tree) item)) ->
  forall id item, aget id (ids nsi0) = Some item -> P id item.
Proof.
  induction tkvs as [|tkv rest IH]; intros nsi nsi0; simpl.
  - intros [= <-] Hold _. exact Hold.
  - destruct (indexCategory nsi tkv) as [nsi1|] eqn:E1; simpl; [|discriminate].
    intros E Hold Hnew.
    destruct (indexCategory_frame _ _ _ E1) as (_ & _ & Htr & _).
    apply (IH nsi1 nsi0 E).
    + apply (indexCategory_ids nsi nsi1 tkv P E1 Hold).
      intros tree item Ht. apply (Hnew tkv); [now left|assumption].
    + intros tkv' tree item Hin Ht. apply (Hnew tkv'); [now right|].
      now rewrite <- Htr.
Qed.

(** In the index the build returns, the item filed under an id has that id
    and carries its tkv key and the main tag of the tree of that key. *)
Lemma loadNsiData_ids vals0 vals1 vals2 vals3 nsi :
  loadNsiData Matcher vals0 vals1 vals2 vals3 = Ok nsi ->
  forall id item, aget id (ids nsi) = Some item ->
    item_id item = id /\
    exists tkv tree,
      In tkv (akeys vals0) /\
      aget (hd EmptyString (split "/" 3 tkv)) vals3 = Some tree /\
      item_tkv item = Some tkv /\
      item_mainTag item = Some (mainTag tree).
Proof.
  unfold loadNsiData. destruct (Matcher vals0) as [matcher|]; [|discriminate].
  simpl. intros E.
  apply (forEach_tkv_ids _ _ _ _ E).
  - intros id item [=].
  - intros tkv tree item Hin Ht. simpl in *. split; [reflexivity|].
    exists tkv, tree. auto.
Qed.

(** C9, as the code has it.  The build is a function of the four
    downloaded values and of what the calls that build the matcher do.  It
    completes exactly when these calls do not throw and every key of the
    data is [buildable]: its first part names a tree of the trees metadata,
    or is a name every object inherits from [Object.prototype] while the
    category has no item.  Otherwise it throws what the matcher calls
    throw, or a [TypeError]; how many parts a key has plays no role.  On
    the sample dataset the items come back with [tkv] and [mainTag] written
    into them. *)
Theorem loadNsiData_fails_on_unknown_tree vals0 vals1 vals2 vals3 :
  ((exists nsi, loadNsiData Matcher vals0 vals1 vals2 vals3 = Ok nsi) <->
   (exists matcher, Matcher vals0 = Ok matcher) /\
   forall tkv, In tkv (akeys vals0) -> buildable vals0 vals3 tkv) /\
  (forall e, loadNsiData Matcher vals0 vals1 vals2 vals3 = Throw e ->
     Matcher vals0 = Throw e \/
     ((exists matcher, Matcher vals0 = Ok matcher) /\ e = TypeError)) /\
  loadNsiData (fun _ => Ok sample_match) sample_data [] [] sample_trees = Ok sample_nsi.
Proof.
  split; [|split; [|reflexivity]]; unfold loadNsiData.
  - destruct (Matcher vals0) as [matcher|e0]; simpl.
    + destruct (forEach_tkv_cases (akeys vals0)
                  (mkNsi vals0 vals1 vals2 vals3 [] [] [] matcher)
                  (fun _ H => H)) as [H1 _].
      rewrite H1. simpl. split; [eauto|tauto].
    + split; [intros (? & ?); discriminate|intros [(? & ?) _]; discriminate].
  - intros e. destruct (Matcher vals0) as [matcher|e0]; simpl.
    + destruct (forEach_tkv_cases (akeys vals0)
                  (mkNsi vals0 vals1 vals2 vals3 [] [] [] matcher)
                  (fun _ H => H)) as [_ H2].
      intros H. right. split; [eauto|now apply H2].
    + intros [= <-]. now left.
Qed.

End build.

(** A key of one part only: the build completes and files the category
    under the key [undefined] of [kvt].  A key whose first part is no tree
    of the metadata but a name every object inherits: the build completes
    as well. *)
Lemma loadNsiData_accepts_short_key :
  split "/" 3 "brands" = ["brands"] /\
  (exists nsi,
     loadNsiData (fun _ => Ok sample_match)
                 [("brands", mkCategory (Some [acme_raw]) None)] [] [] sample_trees
     = Ok nsi /\
     kvt nsi = [(None, [(None, "brands")])]) /\
  aget "constructor" sample_trees = None /\
  exists nsi : @Nsi unit,
    loadNsiData (fun _ => Ok sample_match)
                [("constructor/shop/x", mkCategory None None)] [] [] sample_trees
    = Ok nsi.
Proof.
  split; [reflexivity|]. split; [eexists; split; reflexivity|].
  split; [reflexivity|]. eexists. reflexivity.
Qed.

End BuildFacts.

(** ** The loop over the hits of a tuple *)

Module HitFacts.
Import Chars Regex JS NSI Spec StoreFacts TupleFacts GatherFacts UpgradeFacts
       BuildFacts.

Lemma office_untouched : untouched "office".
Proof.
  split; [reflexivity|]. intros prefix H.
  apply (f_equal String.length) in H. rewrite length_append in H.
  simpl in H. lia.
Qed.

Section hits.
Context {Loc : Type}.
Variable matchTags : Tags -> string -> Preset.
Variable RegExp_i : string -> Res (string -> bool).
Variable nsi : @Nsi Loc.

Lemma skipHit_false newTags item :
  skipHit newTags item = false <->
  (exists qid,
     aget (key_of (item_mainTag item)) (item_tags item) = Some qid /\
     qid <> EmptyString /\
     aget ("not:" +:+ key_of (item_mainTag item)) newTags <> Some qid) /\
  ~ (truthy (aget "office" newTags) = true /\
     truthy (aget "office" (item_tags item)) = false).
Proof.
  unfold skipHit.
  set (itemQID := aget (key_of (item_mainTag item)) (item_tags item)).
  set (notQID := aget ("not:" +:+ key_of (item_mainTag item)) newTags).
  rewrite !orb_false_iff, negb_false_iff, andb_false_iff, negb_false_iff.
  rewrite bool_decide_eq_false, truthy_Some. split.
  - intros [[(qid & Eq & Hne) Hnot] Hoff]. split.
    + exists qid. repeat split; auto. congruence.
    + intros [H1 H2]. destruct Hoff; congruence.
  - intros [(qid & Eq & Hne & Hnot) Hoff]. repeat split.
    + eauto.
    + congruence.
    + destruct (truthy (aget "office" newTags)); [|now left].
      destruct (truthy (aget "office" (item_tags item))); [now right|].
      exfalso. now apply Hoff.
Qed.

Lemma hits_loop_first newTags hits :
  exists selected, hits_loop (Loaded nsi) newTags hits None = Ok selected /\
    match selected with
    | Some item =>
        exists before hit after,
          hits = before ++ hit :: after /\
          qualifies nsi newTags hit item /\
          forall hit', In hit' before -> forall item', ~ qualifies nsi newTags hit' item'
    | None =>
        forall hit, In hit hits -> forall item, ~ qualifies nsi newTags hit item
    end.
Proof.
  induction hits as [|hit rest IH]; simpl.
  - exists None. split; [reflexivity|]. intros ? [].
  - assert (Hcont : forall (Hbad : forall item, ~ qualifies nsi newTags hit item),
      exists selected, hits_loop (Loaded nsi) newTags rest None = Ok selected /\
        match selected with
        | Some item =>
            exists before hit0 after,
              hit :: rest = before ++ hit0 :: after /\
              qualifies nsi newTags hit0 item /\
              forall hit', In hit' before -> forall item', ~ qualifies nsi newTags hit' item'
        | None =>
            forall hit0, In hit0 (hit :: rest) -> forall item, ~ qualifies nsi newTags hit0 item
        end).
    { intros Hbad. destruct IH as (selected & E & Hsel). exists selected.
      split; [assumption|]. destruct selected as [item|].
      - destruct Hsel as (before & hit0 & after & -> & Hq & Hb).
        exists (hit :: before), hit0, after.
        split; [reflexivity|]. split; [assumption|].
        intros hit' [<-|Hin]; auto.
      - intros hit0 [<-|Hin]; auto. }
    destruct (ahas (itemID hit) (dissolved nsi)) eqn:Ed.
    { apply Hcont. intros item (Hd & _). apply Hd. now apply ahas_In. }
    destruct (aget (itemID hit) (ids nsi)) as [found|] eqn:Ei.
    2:{ apply Hcont. intros item (_ & Hi & _). congruence. }
    destruct (skipHit newTags found) eqn:Es.
    { apply Hcont. intros item (_ & Hi & Hq & Ho).
      assert (item = found) by congruence. subst item.
      assert (skipHit newTags found = false) by (apply skipHit_false; tauto).
      congruence. }
    exists (Some found). split; [reflexivity|].
    exists [], hit, rest. split; [reflexivity|]. split; [|intros ? []].
    apply skipHit_false in Es as [Hq Ho]. repeat split; auto.
    intros Hin. apply ahas_In in Hin. congruence.
Qed.

(** C1.  For a tuple whose top hit is classified ["primary"] or
    ["alternate"], the loop over its hits never throws and selects the item
    of the first hit, in ranked order, that [qualifies] (not dissolved, known
    in [ids], with a non-empty main-tag value that is not the feature's
    [not:<mainTag>] value, and no brand for an office); a dissolved id is
    never selected; when no hit qualifies the loop over the tuples goes on
    with the next tuple, otherwise it upgrades to the selected item.  The
    feature's tags are read from the working copy, whose [office] tag is
    the one of the input; in an index built by [loadNsiData] the item filed
    under an id has that id and the main tag of its tree. *)
Theorem first_qualifying_hit_selected :
  (forall newTags hits,
     exists selected, hits_loop (Loaded nsi) newTags hits None = Ok selected /\
       match selected with
       | Some item =>
           exists before hit after,
             hits = before ++ hit :: after /\
             qualifies nsi newTags hit item /\
             ~ In (itemID hit) (akeys (dissolved nsi)) /\
             forall hit', In hit' before ->
               forall item', ~ qualifies nsi newTags hit' item'
       | None =>
           forall hit, In hit hits -> forall item, ~ qualifies nsi newTags hit item
       end) /\
  (forall (h : Heap) tags newTags o loc foundQID changed tuple rest hit0 hits,
     h !! newTags = Some o ->
     matcher nsi (tuple_k tuple) (tuple_v tuple) (tuple_n tuple) loc
       = Some (hit0 :: hits) ->
     match_ hit0 = "primary" \/ match_ hit0 = "alternate" ->
     exists selected, hits_loop (Loaded nsi) o (hit0 :: hits) None = Ok selected /\
       tuples_loop RegExp_i (Loaded nsi) tags newTags loc foundQID changed
                   (tuple :: rest) h =
       match selected with
       | Some item => upgradeTo RegExp_i (Loaded nsi) tags newTags foundQID item h
       | None => tuples_loop RegExp_i (Loaded nsi) tags newTags loc foundQID
                             changed rest h
       end) /\
  (forall (h : Heap) tags o,
     h !! tags = Some o -> NoDup (akeys o) ->
     exists x changed,
       replaceWiki_forEach (Loaded nsi) (length h) (akeys (assign [] o)) false
                           (h ++ [assign [] o]) = (h ++ [x], Ok changed) /\
       aget "office" x = aget "office" o) /\
  (forall Matcher vals0 vals1 vals2 vals3,
     loadNsiData Matcher vals0 vals1 vals2 vals3 = Ok nsi ->
     forall id item, aget id (ids nsi) = Some item ->
       item_id item = id /\
       exists tkv tree,
         In tkv (akeys vals0) /\
         aget (hd EmptyString (split "/" 3 tkv)) vals3 = Some tree /\
         item_tkv item = Some tkv /\
         item_mainTag item = Some (mainTag tree)).
Proof.
  split; [|split; [|split; [|intros; eapply loadNsiData_ids; eauto]]].
  - intros newTags hits.
    destruct (hits_loop_first newTags hits) as (selected & E & Hsel).
    exists selected. split; [assumption|]. destruct selected as [item|]; [|assumption].
    destruct Hsel as (before & hit & after & -> & Hq & Hb).
    exists before, hit, after.
    split; [reflexivity|]. split; [assumption|]. split; [apply Hq|assumption].
  - intros h tags newTags o loc foundQID changed tuple rest hit0 hits Hh Hm Hk.
    destruct (hits_loop_first o (hit0 :: hits)) as (selected & E & _).
    exists selected. split; [assumption|].
    cbn [tuples_loop nsi_field]. rewrite bind_lift_Ok, Hm.
    assert (Hc : negb (String.eqb (match_ hit0) "primary")
                 && negb (String.eqb (match_ hit0) "alternate") = false).
    { destruct Hk as [-> | ->]; reflexivity. }
    rewrite Hc, (bind_get_object _ _ _ _ Hh), E, bind_lift_Ok.
    now destruct selected.
  - intros h tags o Hh Hnd.
    destruct (upgradeTags_loaded matchTags RegExp_i nsi h tags o None Hh)
      as (x & changed & kvs & E1 & Hx & _).
    exists x, changed. split; [assumption|].
    rewrite (Hx _ office_untouched). now rewrite assign_copy.
Qed.

End hits.

Lemma first_qualifying_hit_selected_witness :
  hits_loop (Loaded dissolved_nsi) [("shop", "convenience"); ("name", "Acme")]
            [mkHit "defunct-0c11d7" "primary"; mkHit "acme-4f2a91" "primary"] None
  = Ok (Some acme) /\
  tuples_loop no_RegExp (Loaded dissolved_nsi) 0 1 None None false
    [mkTuple "shop" (Some "convenience") "Acme"]
    [[("shop", "convenience"); ("name", "Acme")];
     [("shop", "convenience"); ("name", "Acme")]]
  = upgradeTo no_RegExp (Loaded dissolved_nsi) 0 1 None acme
      [[("shop", "convenience"); ("name", "Acme")];
       [("shop", "convenience"); ("name", "Acme")]].
Proof.
  split; [reflexivity|].
  destruct (proj1 (proj2 (first_qualifying_hit_selected no_preset no_RegExp dissolved_nsi))
              [[("shop", "convenience"); ("name", "Acme")];
               [("shop", "convenience"); ("name", "Acme")]]
              0 1 [("shop", "convenience"); ("name", "Acme")] None None false
              (mkTuple "shop" (Some "convenience") "Acme") []
              (mkHit "defunct-0c11d7" "primary") [mkHit "acme-4f2a91" "primary"]
              eq_refl eq_refl (or_introl eq_refl))
    as (selected & E & ->).
  injection E as <-. reflexivity.
Defined.

End HitFacts.

(** ** The [branch] splitting rule *)

Module BranchFacts.
Import Chars Regex JS NSI Spec StoreFacts TupleFacts GatherFacts RegexFacts.

Lemma backslash_special c : Ascii.eqb c backslash = true -> is_special c = true.
Proof. intros H. apply Ascii.eqb_eq in H. now subst. Qed.

(** Every character [escapeRegex] escapes may stand behind a backslash. *)
Lemma special_identity_escape c : is_special c = true -> is_identity_escape c = true.
Proof.
  destruct c as [[] [] [] [] [] [] [] []]; intros H;
    solve [reflexivity | discriminate H].
Qed.

(** Every syntax character is one [escapeRegex] escapes. *)
Lemma syntax_special c : is_special c = false -> is_syntax c = false.
Proof.
  destruct c as [[] [] [] [] [] [] [] []]; intros H;
    solve [reflexivity | discriminate H].
Qed.

(** The pattern text [escapeRegex] produces is read back as the literal. *)
Lemma literal_pattern_escape l :
  literal_pattern (escape_list l) = Some (lit_list_i l).
Proof.
  induction l as [|c l IH]; simpl; [reflexivity|].
  destruct (is_special c) eqn:Es.
  - cbn [literal_pattern].
    rewrite Ascii.eqb_refl, (special_identity_escape c Es), IH. reflexivity.
  - cbn [literal_pattern].
    destruct (Ascii.eqb c backslash) eqn:Eb.
    + apply backslash_special in Eb. congruence.
    + rewrite (syntax_special c Es), IH. reflexivity.
Qed.

Lemma capture_rest_sound l : forall L r,
  capture_rest L l = Some r ->
  exists p ws, l = p ++ ws :: r /\ lang L p /\ is_space ws = true /\ lang (Plus dot) r.
Proof.
  induction l as [|c l IH]; intros L r; simpl; [discriminate|].
  destruct (nullable L && is_space c && matches_list (Plus dot) l) eqn:E.
  - intros [= <-]. apply andb_true_iff in E as [E E3].
    apply andb_true_iff in E as [E1 E2].
    exists [], c. repeat split; auto.
    + now apply nullable_lang.
    + now apply matches_list_lang.
  - intros H. apply IH in H as (p & ws & -> & Hp & Hws & Hr).
    exists (c :: p), ws. repeat split; auto. now apply deriv_lang.
Qed.

Lemma capture_rest_complete p : forall L n ws r,
  (forall q, lang L q -> length q = n) ->
  lang L p -> is_space ws = true -> lang (Plus dot) r ->
  capture_rest L (p ++ ws :: r) = Some r.
Proof.
  induction p as [|c p IH]; intros L n ws r Hlen Hp Hws Hr; simpl.
  - apply nullable_lang in Hp. apply matches_list_lang in Hr.
    now rewrite Hp, Hws, Hr.
  - assert (Hn : nullable L = false).
    { destruct (nullable L) eqn:E; [|reflexivity].
      apply nullable_lang in E. apply Hlen in E. apply Hlen in Hp.
      simpl in *. congruence. }
    rewrite Hn. simpl. apply (IH _ (pred n)); auto.
    + intros q Hq. apply deriv_lang in Hq. apply Hlen in Hq. simpl in Hq. lia.
    + now apply deriv_lang.
Qed.

Lemma captures_capture_rest candidate origName r :
  capture_rest (lit_list_i (chars candidate)) (chars origName) = Some (chars r)
  <-> captures candidate origName r.
Proof.
  unfold captures. split.
  - intros H. apply capture_rest_sound in H as (p & ws & E & Hp & Hws & Hr).
    apply lang_lit_list_i in Hp. apply lang_plus_dot in Hr as [Hne Hd].
    exists p, ws. repeat split; auto.
    intros ->. now apply Hne.
  - intros (p & ws & -> & Hp & Hws & Hne & Hd).
    apply (capture_rest_complete p _ (length (chars candidate))); auto.
    + intros q Hq. apply lang_lit_list_i in Hq. symmetry.
      now apply Forall2_length in Hq.
    + now apply lang_lit_list_i.
    + apply lang_plus_dot. split; [|assumption].
      intros E. apply Hne. rewrite <- (str_chars r), E. reflexivity.
Qed.

(** The compiled pattern always parses, and the group it returns is the
    one [captures] describes. *)
Lemma matchBranch_captures candidate origName :
  exists result, matchBranch (escapeRegex candidate) origName = Ok result /\
    forall r, result = Some r <-> captures candidate origName r.
Proof.
  unfold matchBranch, escapeRegex. rewrite chars_str, literal_pattern_escape.
  eexists. split; [reflexivity|]. intros r.
  rewrite <- captures_capture_rest.
  destruct (capture_rest _ _) as [l|]; simpl.
  - split.
    + intros [= <-]. now rewrite chars_str.
    + intros [= ->]. now rewrite str_chars.
  - split; discriminate.
Qed.

Lemma captures_unique candidate origName r1 r2 :
  captures candidate origName r1 -> captures candidate origName r2 -> r1 = r2.
Proof.
  intros H1 H2.
  destruct (matchBranch_captures candidate origName) as (result & _ & H).
  apply H in H1, H2. congruence.
Qed.

Lemma first_branch_Some origName candidates branch :
  first_branch origName candidates = Some branch <->
  exists before candidate after,
    candidates = before ++ candidate :: after /\
    (forall c, In c before -> forall r, captures c origName r -> trim r = EmptyString) /\
    captures candidate origName branch /\ trim branch <> EmptyString.
Proof.
  induction candidates as [|c rest IH]; simpl.
  - split; [discriminate|]. intros (before & ? & ? & E & _).
    now destruct before.
  - destruct (matchBranch_captures c origName) as (result & -> & Hres).
    assert (Hskip : (forall r, captures c origName r -> trim r = EmptyString) ->
      (first_branch origName rest = Some branch <->
       exists before candidate after,
         c :: rest = before ++ candidate :: after /\
         (forall c, In c before -> forall r, captures c origName r -> trim r = EmptyString) /\
         captures candidate origName branch /\ trim branch <> EmptyString)).
    { intros Hblank. rewrite IH. split.
      - intros (before & candidate & after & -> & Hb & Hc & Ht).
        exists (c :: before), candidate, after.
        split; [reflexivity|]. split; [|tauto].
        intros c' [<-|Hin]; eauto.
      - intros (before & candidate & after & E & Hb & Hc & Ht).
        destruct before as [|b before]; simpl in E; injection E as <- ->.
        + apply Hblank in Hc. contradiction.
        + exists before, candidate, after.
          split; [reflexivity|]. split; [|tauto].
          intros c' Hin. apply Hb. now right. }
    destruct result as [r|].
    + assert (Hr : captures c origName r) by now apply Hres.
      destruct (nonempty (trim r)) eqn:En.
      * apply nonempty_true in En. split.
        -- intros [= <-]. exists [], c, rest.
           split; [reflexivity|]. split; [intros ? []|tauto].
        -- intros (before & candidate & after & E & Hb & Hc & Ht).
           destruct before as [|b before]; simpl in E; injection E as <- ->.
           ++ f_equal. eapply captures_unique; eauto.
           ++ exfalso. apply En. apply (Hb c); [now left|assumption].
      * apply Hskip. intros r' Hr'.
        assert (r' = r) by (eapply captures_unique; eauto). subst r'.
        unfold nonempty in En. apply negb_false_iff in En.
        now apply String.eqb_eq in En.
    + apply Hskip. intros r' Hr'. apply Hres in Hr'. discriminate.
Qed.

Lemma first_branch_None origName candidates :
  first_branch origName candidates = None <->
  forall c, In c candidates -> forall r, captures c origName r -> trim r = EmptyString.
Proof.
  induction candidates as [|c rest IH]; simpl.
  - split; [intros _ ? []|reflexivity].
  - destruct (matchBranch_captures c origName) as (result & -> & Hres).
    assert (Hskip : (forall r, captures c origName r -> trim r = EmptyString) ->
      (first_branch origName rest = None <->
       forall c', c = c' \/ In c' rest ->
         forall r, captures c' origName r -> trim r = EmptyString)).
    { intros Hblank. rewrite IH. split.
      - intros H c' [<-|Hin]; eauto.
      - intros H c' Hin. apply H. now right. }
    destruct result as [r|].
    + assert (Hr : captures c origName r) by now apply Hres.
      destruct (nonempty (trim r)) eqn:En.
      * apply nonempty_true in En. split; [discriminate|].
        intros H. exfalso. apply En. apply (H c); [now left|assumption].
      * apply Hskip. intros r' Hr'.
        assert (r' = r) by (eapply captures_unique; eauto). subst r'.
        unfold nonempty in En. apply negb_false_iff in En.
        now apply String.eqb_eq in En.
    + apply Hskip. intros r' Hr'. apply Hres in Hr'. discriminate.
Qed.

Lemma branch_loop_run newTags origName candidates (h : Heap) o :
  h !! newTags = Some o ->
  branch_loop newTags origName candidates h =
  (match first_branch origName candidates with
   | Some branch => <[newTags := aset "branch" branch o]> h
   | None => h
   end, Ok tt).
Proof.
  intros Hh. induction candidates as [|c rest IH]; simpl; [reflexivity|].
  destruct (matchBranch_captures c origName) as (result & -> & _).
  rewrite bind_lift_Ok. destruct result as [r|]; [|exact IH].
  destruct (nonempty (trim r)); [|exact IH].
  unfold set_prop. now rewrite (update_run _ _ _ _ Hh).
Qed.

(** *** Sorting longest first *)

Lemma insert_longest_perm a l : Permutation (insert_longest a l) (a :: l).
Proof.
  induction l as [|b l IH]; simpl; [reflexivity|].
  destruct (String.length b <=? String.length a); [reflexivity|].
  rewrite IH. apply perm_swap.
Qed.

Lemma sort_longest_perm l : Permutation (sort_longest l) l.
Proof.
  induction l as [|a l IH]; simpl; [reflexivity|].
  rewrite insert_longest_perm. now constructor.
Qed.

Lemma insert_longest_sorted a l :
  StronglySorted (fun x y => String.length y <= String.length x) l ->
  StronglySorted (fun x y => String.length y <= String.length x) (insert_longest a l).
Proof.
  induction l as [|b l IH]; simpl; intros Hs.
  - constructor; constructor.
  - apply StronglySorted_inv in Hs as [Hs Hb].
    destruct (String.length b <=? String.length a) eqn:E.
    + apply Nat.leb_le in E. constructor; [now constructor|].
      constructor; [assumption|].
      eapply List.Forall_impl; [|exact Hb]. simpl. intros; lia.
    + apply Nat.leb_gt in E. constructor; [now apply IH|].
      apply List.Forall_forall. intros x Hx.
      apply (Permutation_in _ (insert_longest_perm a l)) in Hx.
      destruct Hx as [<-|Hx]; [lia|].
      rewrite List.Forall_forall in Hb. now apply Hb.
Qed.

Lemma sort_longest_sorted l :
  StronglySorted (fun x y => String.length y <= String.length x) (sort_longest l).
Proof.
  induction l as [|a l IH]; simpl; [constructor|now apply insert_longest_sorted].
Qed.

Lemma In_set_of x l : In x (set_of l) <-> In x l.
Proof.
  unfold set_of.
  enough (H : forall acc, In x (fold_left (fun acc y => add y acc) l acc)
                          <-> In x acc \/ In x l).
  { rewrite H. simpl. tauto. }
  induction l as [|y l IH]; intros acc; simpl; [tauto|].
  rewrite IH, In_add. split.
  - intros [[->|H]|H]; auto.
  - intros [H|[->|H]]; auto.
Qed.

Lemma splitBranch_run tags newTags (h : Heap) t o :
  h !! tags = Some t -> h !! newTags = Some o ->
  splitBranch tags newTags h =
  if truthy (aget "name" o) && truthy (aget "name" t)
     && negb (bool_decide (aget "name" o = aget "name" t))
     && negb (truthy (aget "branch" o))
  then
    let newSet := set_of (primary (gatherNames o) ++ alternate (gatherNames o)) in
    if negb (has (key_of (aget "name" t)) newSet)
    then branch_loop newTags (key_of (aget "name" t)) (sort_longest newSet) h
    else (h, Ok tt)
  else (h, Ok tt).
Proof.
  intros Ht Ho. unfold splitBranch.
  rewrite (bind_get_prop _ _ _ _ _ Ht), (bind_get_prop _ _ _ _ _ Ho),
          (bind_get_prop _ _ _ _ _ Ho).
  destruct (_ && _); [|reflexivity].
  rewrite (bind_get_object _ _ _ _ Ho). cbv zeta.
  now destruct (negb _).
Qed.

(** C2, as the code has it.  After the merge, when the new name exists and
    differs from the original name, no branch is set yet, and the original
    name is not among the names gathered from the merged tags, the rule goes
    through those names sorted longest first and sets [branch] to what the
    FIRST CANDIDATE WHOSE CAPTURED REMAINDER IS NOT BLANK captures in the
    original name, then stops; a candidate that captures only white space is
    passed over, and when no candidate is left the tags stay as they are.
    The feature [{shop: "convenience", name: "Acme Riverside"}] matched to the
    item named "Acme" gets the tags of the item and [branch = "Riverside"]. *)
Theorem branch_split_rule :
  (forall (h : Heap) tags newTags t o origName newName,
     h !! tags = Some t -> h !! newTags = Some o ->
     aget "name" t = Some origName -> aget "name" o = Some newName ->
     origName <> EmptyString -> newName <> EmptyString -> newName <> origName ->
     truthy (aget "branch" o) = false ->
     let newSet := set_of (primary (gatherNames o) ++ alternate (gatherNames o)) in
     ~ In origName newSet ->
     let candidates := sort_longest newSet in
     Permutation candidates newSet /\
     StronglySorted (fun a b => String.length b <= String.length a) candidates /\
     ((exists before candidate after branch,
         candidates = before ++ candidate :: after /\
         (forall c, In c before -> forall r, captures c origName r -> trim r = EmptyString) /\
         captures candidate origName branch /\ trim branch <> EmptyString /\
         splitBranch tags newTags h = (<[newTags := aset "branch" branch o]> h, Ok tt))
      \/
      ((forall c, In c candidates -> forall r, captures c origName r -> trim r = EmptyString) /\
       splitBranch tags newTags h = (h, Ok tt)))) /\
  _upgradeTags no_preset no_RegExp (Loaded sample_nsi) 0 None
    [[("shop", "convenience"); ("name", "Acme Riverside")]]
  = ([[("shop", "convenience"); ("name", "Acme Riverside")];
      [("name", "Acme"); ("brand", "Acme"); ("brand:wikidata", "Q1");
       ("shop", "convenience"); ("branch", "Riverside")]],
     Ok (Some 1)).
Proof.
  split; [|reflexivity].
  intros h tags newTags t o origName newName Ht Ho Hn Hn' Hne Hne' Hdiff Hb
         newSet Hmoved candidates.
  split; [apply sort_longest_perm|]. split; [apply sort_longest_sorted|].
  rewrite (splitBranch_run _ _ _ _ _ Ht Ho), Hn, Hn', Hb. simpl.
  apply nonempty_true in Hne, Hne'. rewrite Hne, Hne'. simpl.
  rewrite bool_decide_eq_false_2 by congruence. simpl.
  fold newSet.
  assert (Hhas : has origName newSet = false).
  { destruct (has origName newSet) eqn:E; [|reflexivity].
    apply has_In in E. contradiction. }
  rewrite Hhas. simpl. fold candidates.
  rewrite (branch_loop_run _ _ _ _ _ Ho).
  destruct (first_branch origName candidates) as [branch|] eqn:E.
  - left. apply first_branch_Some in E
      as (before & candidate & after & Ec & Hbefore & Hc & Htrim).
    exists before, candidate, after, branch. tauto.
  - right. split; [|reflexivity]. now apply first_branch_None.
Qed.

Lemma branch_split_rule_witness :
  exists branch,
    trim branch <> EmptyString /\
    splitBranch 0 1
      [[("shop", "convenience"); ("name", "Acme Riverside")];
       [("name", "Acme"); ("brand", "Acme"); ("brand:wikidata", "Q1");
        ("shop", "convenience")]]
    = ([[("shop", "convenience"); ("name", "Acme Riverside")];
        [("name", "Acme"); ("brand", "Acme"); ("brand:wikidata", "Q1");
         ("shop", "convenience"); ("branch", branch)]], Ok tt).
Proof.
  destruct (proj1 branch_split_rule
              [[("shop", "convenience"); ("name", "Acme Riverside")];
               [("name", "Acme"); ("brand", "Acme"); ("brand:wikidata", "Q1");
                ("shop", "convenience")]]
              0 1 _ _ "Acme Riverside" "Acme" eq_refl eq_refl eq_refl eq_refl
              ltac:(discriminate) ltac:(discriminate) ltac:(discriminate) eq_refl
              ltac:(vm_compute; intuition discriminate))
    as (_ & _ & [(before & candidate & after & branch & _ & _ & _ & Ht & E)|[_ E]]).
  - exists branch. split; [exact Ht|exact E].
  - vm_compute in E. discriminate E.
Defined.

(** The original name "Acme" followed by two spaces: the candidate "Acme"
    matches and captures one space, no branch is set, and nothing else
    matches. *)
Lemma branch_not_set_for_blank_remainder :
  captures "Acme" "Acme  " " " /\
  exists merged,
    _upgradeTags no_preset no_RegExp (Loaded sample_nsi) 0 None
      [[("shop", "convenience"); ("name", "Acme  ")]]
    = ([[("shop", "convenience"); ("name", "Acme  ")]; merged], Ok (Some 1)) /\
    aget "name" merged = Some "Acme" /\
    aget "branch" merged = None.
Proof.
  split.
  - exists (chars "Acme"), " "%char. repeat split; try discriminate.
    repeat constructor.
  - exists [("name", "Acme"); ("brand", "Acme"); ("brand:wikidata", "Q1");
            ("shop", "convenience")].
    split; [vm_compute; reflexivity|]. split; reflexivity.
Qed.

(** *** What [trim] leaves of a text *)

Lemma trim_start_nil l : trim_start l = [] <-> forallb is_space l = true.
Proof.
  induction l as [|c l IH]; simpl; [tauto|].
  destruct (is_space c); simpl; [exact IH|]. split; discriminate.
Qed.

Lemma trim_start_hd l : forall c l', trim_start l = c :: l' -> is_space c = false.
Proof.
  induction l as [|c0 l IH]; intros c l'; simpl; [discriminate|].
  destruct (is_space c0) eqn:E; [apply IH|]. now intros [= <- _].
Qed.

(** [trim] leaves nothing exactly of a text of white space. *)
Lemma trim_blank (s : string) : trim s = EmptyString <-> blank s.
Proof.
  unfold trim, blank. rewrite <- trim_start_nil.
  destruct (trim_start (chars s)) as [|c l] eqn:E; [tauto|].
  split; [|discriminate]. intros H. exfalso.
  apply trim_start_hd in E.
  assert (Hnil : trim_start (rev (c :: l)) = []).
  { apply (f_equal chars) in H. rewrite chars_str in H.
    apply (f_equal (@rev ascii)) in H. now rewrite rev_involutive in H. }
  apply trim_start_nil in Hnil. simpl in Hnil.
  rewrite forallb_app in Hnil. simpl in Hnil. rewrite E in Hnil.
  rewrite andb_false_r in Hnil. discriminate.
Qed.

(** C10.  In the loop of the branch rule a candidate whose pattern matches
    but captures only white space is passed over and the next candidate is
    tried; [branch] is set only to a captured remainder that has a
    character which is no white space, and the value stored is the
    remainder as captured, not trimmed.  White space is what [trim]
    strips: the trimmed remainder is empty exactly when the remainder is
    [blank]. *)
Theorem branch_needs_nonblank_remainder (h : Heap) newTags o origName :
  h !! newTags = Some o ->
  (forall r, trim r = EmptyString <-> blank r) /\
  (forall candidate rest r,
     captures candidate origName r -> blank r ->
     branch_loop newTags origName (candidate :: rest) h
     = branch_loop newTags origName rest h) /\
  (forall candidate rest r,
     captures candidate origName r -> ~ blank r ->
     branch_loop newTags origName (candidate :: rest) h
     = (<[newTags := aset "branch" r o]> h, Ok tt)) /\
  (forall candidates,
     branch_loop newTags origName candidates h = (h, Ok tt) \/
     exists candidate r,
       In candidate candidates /\ captures candidate origName r /\
       ~ blank r /\
       branch_loop newTags origName candidates h
       = (<[newTags := aset "branch" r o]> h, Ok tt)).
Proof.
  intros Ho. split; [exact trim_blank|]. split; [|split].
  - intros candidate rest r Hc Ht. apply trim_blank in Ht.
    rewrite !(branch_loop_run _ _ _ _ _ Ho). simpl.
    destruct (matchBranch_captures candidate origName) as (result & -> & Hres).
    apply Hres in Hc. subst result.
    destruct (nonempty (trim r)) eqn:E; [|reflexivity].
    apply nonempty_true in E. contradiction.
  - intros candidate rest r Hc Ht. rewrite <- trim_blank in Ht.
    rewrite (branch_loop_run _ _ _ _ _ Ho). simpl.
    destruct (matchBranch_captures candidate origName) as (result & -> & Hres).
    apply Hres in Hc. subst result.
    apply nonempty_true in Ht. now rewrite Ht.
  - intros candidates. rewrite (branch_loop_run _ _ _ _ _ Ho).
    destruct (first_branch origName candidates) as [branch|] eqn:E; [right|now left].
    apply first_branch_Some in E
      as (before & candidate & after & -> & _ & Hc & Ht).
    rewrite trim_blank in Ht.
    exists candidate, branch. repeat split; auto.
    apply in_or_app. right. now left.
Qed.

(** The candidate [Acme] captures one space in [Acme] with two spaces
    behind it and is passed over, and no [branch] is set; in
    [Acme  Riverside ] it captures [ Riverside ], which is stored as it
    is. *)
Lemma branch_needs_nonblank_remainder_witness :
  branch_loop 1 "Acme  " ["Acme"; "Q1"]
    [[("shop", "convenience"); ("name", "Acme  ")];
     [("name", "Acme"); ("brand", "Acme"); ("brand:wikidata", "Q1");
      ("shop", "convenience")]]
  = ([[("shop", "convenience"); ("name", "Acme  ")];
      [("name", "Acme"); ("brand", "Acme"); ("brand:wikidata", "Q1");
       ("shop", "convenience")]], Ok tt) /\
  branch_loop 1 "Acme  Riverside " ["Acme"; "Q1"]
    [[("shop", "convenience"); ("name", "Acme  Riverside ")];
     [("name", "Acme"); ("brand", "Acme"); ("brand:wikidata", "Q1");
      ("shop", "convenience")]]
  = ([[("shop", "convenience"); ("name", "Acme  Riverside ")];
      [("name", "Acme"); ("brand", "Acme"); ("brand:wikidata", "Q1");
       ("shop", "convenience"); ("branch", " Riverside ")]], Ok tt).
Proof.
  split.
  - refine (eq_trans
              (proj1 (proj2 (branch_needs_nonblank_remainder
                 [[("shop", "convenience"); ("name", "Acme  ")];
                  [("name", "Acme"); ("brand", "Acme"); ("brand:wikidata", "Q1");
                   ("shop", "convenience")]]
                 1 _ "Acme  " eq_refl)) "Acme" ["Q1"] " " _ _)
              eq_refl).
    + exists (chars "Acme"), " "%char. repeat split; try discriminate.
      repeat constructor.
    + reflexivity.
  - refine (proj1 (proj2 (proj2 (branch_needs_nonblank_remainder
              [[("shop", "convenience"); ("name", "Acme  Riverside ")];
               [("name", "Acme"); ("brand", "Acme"); ("brand:wikidata", "Q1");
                ("shop", "convenience")]]
              1 _ "Acme  Riverside " eq_refl))) "Acme" ["Q1"] " Riverside " _ _).
    + exists (chars "Acme"), " "%char. repeat split; try discriminate.
      repeat constructor.
    + discriminate.
Defined.

End BranchFacts.

(** ** Upgrading to the selected item, and the cross-reference tags *)

Module CrossRefFacts.
Import Chars Regex JS NSI Spec StoreFacts TupleFacts GatherFacts RegexFacts
       UpgradeFacts BranchFacts.

Lemma keepTags_of_In regexes (o : Tags) key value :
  In (key, value) (keepTags_of regexes o) ->
  aget key o = Some value /\ existsb (fun regex => regex key) regexes = true.
Proof.
  unfold keepTags_of.
  enough (H : forall keys keep,
    (forall k v, In (k, v) keep ->
       aget k o = Some v /\ existsb (fun regex => regex k) regexes = true) ->
    forall k v,
      In (k, v) (fold_left (fun keepTags osmkey =>
                   if existsb (fun regex => regex osmkey) regexes
                   then match aget osmkey o with
                        | Some value => aset osmkey value keepTags
                        | None => keepTags
                        end
                   else keepTags) keys keep) ->
      aget k o = Some v /\ existsb (fun regex => regex k) regexes = true).
  { apply H. intros ? ? []. }
  induction keys as [|osmkey keys IH]; intros keep Hkeep k v; simpl; [apply Hkeep|].
  apply IH. intros k1 v1.
  destruct (existsb (fun regex => regex osmkey) regexes) eqn:Ee; [|apply Hkeep].
  destruct (aget osmkey o) as [value0|] eqn:Ea; [|apply Hkeep].
  intros Hin.
  destruct (decide (k1 = osmkey)) as [->|Hne].
  - assert (Hget : aget osmkey (aset osmkey value0 keep) = Some value0).
    { rewrite aget_aset. now destruct (decide (osmkey = osmkey)). }
    clear Hget.
    assert (Hv : v1 = value0 \/ In (osmkey, v1) keep).
    { clear -Hin. induction keep as [|[k0 v0] keep IHk]; simpl in *.
      - destruct Hin as [[= ->]|[]]. now left.
      - destruct (decide (osmkey = k0)) as [->|Hne]; simpl in Hin.
        + destruct Hin as [[= ->]|Hin]; [now left|]. right. now right.
        + destruct Hin as [[= -> ->]|Hin]; [congruence|].
          destruct (IHk Hin) as [?|?]; [now left|]. right. now right. }
    destruct Hv as [->|Hv]; [now split|apply Hkeep; assumption].
  - apply Hkeep.
    clear -Hin Hne. induction keep as [|[k0 v0] keep IHk]; simpl in *.
    + destruct Hin as [[= -> ->]|[]]. congruence.
    + destruct (decide (osmkey = k0)) as [->|Hne0]; simpl in Hin.
      * destruct Hin as [[= -> ->]|Hin]; [congruence|]. now right.
      * destruct Hin as [Hin|Hin]; [now left|]. right. now apply IHk.
Qed.

Section crossref.
Context {Loc : Type}.
Variable matchTags : Tags -> string -> Preset.
Variable RegExp_i : string -> Res (string -> bool).
Variable nsi : @Nsi Loc.

(** With the category of the item at hand and its patterns compiled,
    [upgradeTo] writes the merged tags, perhaps with a branch, into the
    working copy and returns it. *)
Lemma upgradeTo_run (h : Heap) tags newTags t o foundQID item category regexes :
  h !! tags = Some t -> h !! newTags = Some o -> tags <> newTags ->
  aget (key_of (item_tkv item)) (data nsi) = Some category ->
  compile_all RegExp_i (preserve_of category item) = Ok regexes ->
  let keepTags :=
    keepTags_of (regexes ++ [test (mkRegExp true (lit_i "building") true);
                             test (mkRegExp true (lit_i "takeaway") true)]) o in
  exists result,
    upgradeTo RegExp_i (Loaded nsi) tags newTags foundQID item h
    = (<[newTags := result]> h, Ok (Some newTags)) /\
    (result = merged nsi foundQID item keepTags o \/
     exists branch, trim branch <> EmptyString /\
       result = aset "branch" branch (merged nsi foundQID item keepTags o)).
Proof.
  intros Ht Ho Hne Hcat Hre keepTags.
  unfold upgradeTo. cbn [nsi_field]. rewrite bind_lift_Ok, Hcat, bind_lift_Ok.
  fold (preserve_of category item). rewrite Hre, bind_lift_Ok.
  rewrite (bind_get_object _ _ _ _ Ho), bind_lift_Ok. fold keepTags.
  unfold delete_prop.
  rewrite (bind_run _ _ _ _ _ (forEachM_update _ _ _ _ _ Ho)).
  set (o1 := fold_left _ _ o).
  set (h1 := <[newTags := o1]> h).
  assert (Ho1 : h1 !! newTags = Some o1) by (eapply lookup_written; eauto).
  set (o2 := if truthy foundQID then adel "wikidata" (adel "wikipedia" o1) else o1).
  assert (Hdel : (if truthy foundQID
                  then bind (update newTags (adel "wikipedia"))
                         (fun _ => update newTags (adel "wikidata"))
                  else ret tt) h1 = (<[newTags := o2]> h, Ok tt)).
  { subst o2 h1. destruct (truthy foundQID).
    - rewrite (bind_update _ _ _ _ _ Ho1).
      erewrite update_run by (eapply lookup_written; eauto).
      now rewrite !list_insert_insert_eq.
    - unfold ret. reflexivity. }
  rewrite (bind_run _ _ _ _ _ Hdel).
  assert (Ho2 : <[newTags := o2]> h !! newTags = Some o2)
    by (eapply lookup_written; eauto).
  unfold assign_to. rewrite (bind_update _ _ _ _ _ Ho2), list_insert_insert_eq.
  erewrite bind_update by (eapply lookup_written; eauto).
  rewrite list_insert_insert_eq.
  fold (merged nsi foundQID item keepTags o).
  set (m := merged nsi foundQID item keepTags o).
  assert (Hm : <[newTags := m]> h !! newTags = Some m)
    by (eapply lookup_written; eauto).
  assert (Ht' : <[newTags := m]> h !! tags = Some t).
  { rewrite list_lookup_insert_ne; [assumption|congruence]. }
  assert (Hsplit : exists result,
    splitBranch tags newTags (<[newTags := m]> h) = (<[newTags := result]> h, Ok tt) /\
    (result = m \/ exists branch, trim branch <> EmptyString /\ result = aset "branch" branch m)).
  { rewrite (splitBranch_run _ _ _ _ _ Ht' Hm).
    destruct (_ && _); [|exists m; split; [reflexivity|now left]].
    cbv zeta. destruct (negb _); [|exists m; split; [reflexivity|now left]].
    rewrite (branch_loop_run _ _ _ _ _ Hm).
    destruct (first_branch _ _) as [branch|] eqn:E;
      [|exists m; split; [reflexivity|now left]].
    exists (aset "branch" branch m). rewrite list_insert_insert_eq.
    split; [reflexivity|]. right. exists branch. split; [|reflexivity].
    apply first_branch_Some in E as (_ & _ & _ & _ & _ & _ & H). exact H. }
  destruct Hsplit as (result & Es & Hres).
  exists result. split; [|exact Hres].
  now rewrite (bind_run _ _ _ _ _ Es).
Qed.

Lemma compile_all_In patterns : forall regexes re,
  compile_all RegExp_i patterns = Ok regexes -> In re regexes ->
  exists s, In s patterns /\ RegExp_i s = Ok re.
Proof.
  induction patterns as [|s patterns IH]; intros regexes re; simpl.
  - intros [= <-] [].
  - destruct (RegExp_i s) as [re0|] eqn:E0; simpl; [|discriminate].
    destruct (compile_all RegExp_i patterns) as [res|] eqn:E1; simpl; [|discriminate].
    intros [= <-] [<-|Hin].
    + exists s. split; [now left|assumption].
    + destruct (IH res re eq_refl Hin) as (s' & Hs & E). exists s'.
      split; [now right|assumption].
Qed.

(** The tag of one of the two raw keys in the merged result comes from the
    item or was preserved from the feature. *)
Lemma merged_crossref foundQID item regexes (o : Tags) key value :
  truthy foundQID = true -> key = "wikidata" \/ key = "wikipedia" ->
  let keepTags :=
    keepTags_of (regexes ++ [test (mkRegExp true (lit_i "building") true);
                             test (mkRegExp true (lit_i "takeaway") true)]) o in
  aget key (merged nsi foundQID item keepTags o) = Some value ->
  In (key, value) (item_tags item) \/
  (aget key o = Some value /\ exists re, In re regexes /\ re key = true).
Proof.
  intros Hq Hkey keepTags. unfold merged. rewrite Hq, !aget_assign.
  destruct (aget key (rev keepTags)) as [v|] eqn:Ek.
  - intros [= ->]. right.
    apply aget_Some_In in Ek. apply in_rev in Ek.
    apply keepTags_of_In in Ek as [Ho Hex]. split; [assumption|].
    rewrite existsb_app in Hex. apply orb_true_iff in Hex as [Hex|Hex].
    + apply existsb_exists in Hex as (re & Hin & Hre). eauto.
    + destruct Hkey as [-> | ->]; discriminate Hex.
  - destruct (aget key (rev (item_tags item))) as [v|] eqn:Ei.
    + intros [= ->]. left. apply aget_Some_In in Ei. now apply in_rev in Ei.
    + rewrite !aget_adel.
      destruct Hkey as [-> | ->]; simpl; discriminate.
Qed.

(** C6, as the code has it.  When the [wikidata] tag of the input, or else
    its [wikipedia] tag, resolves through [qids], the resolved value is tried
    as one more primary name, so the feature enters the loop over the tuples
    whenever it has a pair to try, with or without a name.  When an item is
    then selected, [wikipedia] and [wikidata] are deleted from the working
    copy BEFORE the tags of the item and the preserved tags are assigned:
    the result has such a tag only if the item has it or a [preserveTags]
    pattern kept the feature's own.  The feature
    [{shop: "convenience", wikidata: "Q1"}], which has no name, is upgraded
    to the item whose main tag is [Q1], and its raw [wikidata] tag is gone. *)
Theorem crossref_name_and_raw_tags :
  (forall (h : Heap) tags o loc,
     h !! tags = Some o -> truthy (foundQID_of nsi o) = true ->
     In (key_of (foundQID_of nsi o)) (primary (tryNames_of nsi o)) /\
     exists x changed kvs,
       gatherKVs matchTags (Loaded nsi) o = Ok kvs /\
       ((size (primary kvs) =? 0) && (size (alternate kvs) =? 0) = false ->
        _upgradeTags matchTags RegExp_i (Loaded nsi) tags loc h
        = tuples_loop RegExp_i (Loaded nsi) tags (length h) loc
            (foundQID_of nsi o) changed
            (gatherTuples kvs (tryNames_of nsi o)) (h ++ [x]))) /\
  (forall (h : Heap) tags newTags t o foundQID item category regexes,
     h !! tags = Some t -> h !! newTags = Some o -> tags <> newTags ->
     aget (key_of (item_tkv item)) (data nsi) = Some category ->
     compile_all RegExp_i (preserve_of category item) = Ok regexes ->
     truthy foundQID = true ->
     exists result,
       upgradeTo RegExp_i (Loaded nsi) tags newTags foundQID item h
       = (<[newTags := result]> h, Ok (Some newTags)) /\
       forall key value,
         key = "wikidata" \/ key = "wikipedia" ->
         aget key result = Some value ->
         In (key, value) (item_tags item) \/
         (aget key o = Some value /\
          exists s re, In s (preserve_of category item) /\
                       RegExp_i s = Ok re /\ re key = true)) /\
  _upgradeTags no_preset no_RegExp (Loaded sample_nsi) 0 None
    [[("shop", "convenience"); ("wikidata", "Q1")]]
  = ([[("shop", "convenience"); ("wikidata", "Q1")];
      [("brand", "Acme"); ("brand:wikidata", "Q1"); ("name", "Acme");
       ("shop", "convenience")]], Ok (Some 1)).
Proof.
  split; [|split; [|vm_compute; reflexivity]].
  - intros h tags o loc Hh Hq. split.
    + unfold tryNames_of. rewrite Hq. simpl. apply In_add. now left.
    + destruct (upgradeTags_loaded matchTags RegExp_i nsi h tags o loc Hh)
        as (x & changed & kvs & _ & _ & Ekv & E).
      exists x, changed, kvs. split; [assumption|]. intros Hkv.
      rewrite E, Hkv.
      assert (Hn : (size (primary (tryNames_of nsi o)) =? 0)
                   && (size (alternate (tryNames_of nsi o)) =? 0) = false).
      { unfold tryNames_of. rewrite Hq. simpl.
        unfold add. destruct (has _ _) eqn:Eh.
        - apply has_In in Eh. destruct (primary (gatherNames o)); [destruct Eh|reflexivity].
        - unfold size. rewrite length_app. simpl.
          rewrite Nat.add_comm. reflexivity. }
      now rewrite Hn.
  - intros h tags newTags t o foundQID item category regexes Ht Ho Hne Hcat Hre Hq.
    destruct (upgradeTo_run h tags newTags t o foundQID item category regexes
                Ht Ho Hne Hcat Hre) as (result & E & Hres).
    exists result. split; [assumption|]. intros key value Hkey Hget.
    assert (Hm : aget key (merged nsi foundQID item
                   (keepTags_of (regexes ++ [test (mkRegExp true (lit_i "building") true);
                                             test (mkRegExp true (lit_i "takeaway") true)]) o) o)
                 = Some value).
    { destruct Hres as [->|(branch & _ & ->)]; [assumption|].
      rewrite aget_aset in Hget.
      destruct (decide (key = "branch")) as [->|_]; [|assumption].
      destruct Hkey; discriminate. }
    apply merged_crossref in Hm; [|assumption..].
    destruct Hm as [Hm|[Hm (re & Hin & Hre')]]; [now left|right].
    split; [assumption|].
    destruct (compile_all_In _ _ _ Hre Hin) as (s & Hs & Es). eauto.
Qed.

End crossref.

Lemma crossref_name_and_raw_tags_witness :
  (exists x changed,
     _upgradeTags no_preset no_RegExp (Loaded sample_nsi) 0 None
       [[("shop", "convenience"); ("wikidata", "Q1")]]
     = tuples_loop no_RegExp (Loaded sample_nsi) 0 1 None (Some "Q1") changed
         [mkTuple "shop" (Some "convenience") "Q1"]
         ([[("shop", "convenience"); ("wikidata", "Q1")]] ++ [x])) /\
  _upgradeTags no_preset no_RegExp (Loaded sample_nsi) 0 None
    [[("shop", "convenience"); ("wikidata", "Q1")]]
  = ([[("shop", "convenience"); ("wikidata", "Q1")];
      [("brand", "Acme"); ("brand:wikidata", "Q1"); ("name", "Acme");
       ("shop", "convenience")]], Ok (Some 1)).
Proof.
  split; [|vm_compute; reflexivity].
  destruct (proj1 (crossref_name_and_raw_tags no_preset no_RegExp sample_nsi)
              [[("shop", "convenience"); ("wikidata", "Q1")]] 0
              [("shop", "convenience"); ("wikidata", "Q1")] None eq_refl eq_refl)
    as (_ & x & changed & kvs & Ekv & E).
  injection Ekv as <-. exists x, changed. exact (E eq_refl).
Defined.

(** An item that preserves [wikidata]: the feature's raw [wikidata] tag,
    resolved through [qids], is still in the result. *)
Lemma raw_wikidata_kept_by_preserveTags :
  foundQID_of keeper_nsi [("shop", "convenience"); ("wikidata", "Q7")] = Some "Q7" /\
  _upgradeTags no_preset wikidata_RegExp (Loaded keeper_nsi) 0 None
    [[("shop", "convenience"); ("wikidata", "Q7")]]
  = ([[("shop", "convenience"); ("wikidata", "Q7")];
      [("brand", "Keeper"); ("brand:wikidata", "Q7"); ("name", "Keeper");
       ("shop", "convenience"); ("wikidata", "Q7")]], Ok (Some 1)).
Proof. split; [reflexivity|vm_compute; reflexivity]. Qed.

End CrossRefFacts.

(** * Further properties of the service *)

(** ** [_isGenericName] and features without a pair to try *)

Module GenericFacts.
Import Chars Regex JS NSI Spec SpecMore StoreFacts TupleFacts GatherFacts
       UpgradeFacts.

Section generic.
Context {Loc : Type}.
Variable nsi : @Nsi Loc.

Lemma generic_loop_loaded tuples :
  exists b, generic_loop (Loaded nsi) tuples = Ok b /\
    (b = true <->
     exists tuple hit0 hits,
       In tuple tuples /\
       matcher nsi (tuple_k tuple) (tuple_v tuple) (tuple_n tuple) None
         = Some (hit0 :: hits) /\
       match_ hit0 = "excludeGeneric").
Proof.
  induction tuples as [|tuple rest IH]; simpl.
  - exists false. split; [reflexivity|]. split; [discriminate|].
    intros (? & ? & ? & [] & _).
  - destruct IH as (b & E & Hb).
    assert (Hrest : (forall hit0 hits,
               matcher nsi (tuple_k tuple) (tuple_v tuple) (tuple_n tuple) None
                 = Some (hit0 :: hits) -> match_ hit0 <> "excludeGeneric") ->
             exists b0, generic_loop (Loaded nsi) rest = Ok b0 /\
               (b0 = true <->
                exists tuple0 hit0 hits,
                  (tuple = tuple0 \/ In tuple0 rest) /\
                  matcher nsi (tuple_k tuple0) (tuple_v tuple0) (tuple_n tuple0) None
                    = Some (hit0 :: hits) /\
                  match_ hit0 = "excludeGeneric")).
    { intros Hno. exists b. split; [assumption|]. rewrite Hb. split.
      - intros (t & h0 & hs & Hin & H). exists t, h0, hs. tauto.
      - intros (t & h0 & hs & [<-|Hin] & Hm & Hk).
        + exfalso. eapply Hno; eauto.
        + exists t, h0, hs. tauto. }
    destruct (matcher nsi (tuple_k tuple) (tuple_v tuple) (tuple_n tuple) None)
      as [[|hit0 hits]|] eqn:Em.
    + apply Hrest. discriminate.
    + destruct (String.eqb_spec (match_ hit0) "excludeGeneric") as [Ek|Ek].
      * exists true. split; [reflexivity|]. split; [|reflexivity]. intros _.
        exists tuple, hit0, hits. split; [now left|]. now split.
      * apply Hrest. intros h0 hs [= <- <-]. exact Ek.
    + apply Hrest. discriminate.
Qed.

Variable matchTags : Tags -> string -> Preset.
Variable RegExp_i : string -> Res (string -> bool).

(** X1.  With the data loaded [_isGenericName] never throws.  It answers
    [true] exactly when the feature has a non-empty name and, for one of the
    pairs [gatherKVs] files (primary or alternate), the best hit of the
    matcher for that pair and the name, asked without a location, is
    classified ["excludeGeneric"]. *)
Theorem isGenericName_loaded (tags : Tags) :
  exists b, _isGenericName matchTags (Loaded nsi) tags = Ok b /\
    (b = true <->
     exists name kvs kv hit0 hits,
       aget "name" tags = Some name /\ name <> EmptyString /\
       gatherKVs matchTags (Loaded nsi) tags = Ok kvs /\
       In kv (primary kvs ++ alternate kvs) /\
       matcher nsi (tuple_k (tuple_of name kv)) (tuple_v (tuple_of name kv))
               name None = Some (hit0 :: hits) /\
       match_ hit0 = "excludeGeneric").
Proof.
  unfold _isGenericName.
  destruct (truthy (aget "name" tags)) eqn:En; simpl.
  2:{ exists false. split; [reflexivity|]. split; [discriminate|].
      intros (name & kvs & kv & hit0 & hits & Hn & Hne & _).
      rewrite Hn in En. simpl in En. apply nonempty_true in Hne. congruence. }
  apply truthy_Some in En as (name & En & Hne). rewrite En. simpl.
  destruct (gatherKVs_total matchTags nsi tags) as (kvs & Ekv). rewrite Ekv. simpl.
  destruct ((size (primary kvs) =? 0) && (size (alternate kvs) =? 0)) eqn:Es.
  - exists false. split; [reflexivity|]. split; [discriminate|].
    intros (name' & kvs' & kv & hit0 & hits & _ & _ & [= <-] & Hin & _).
    apply andb_true_iff in Es as [E1 E2].
    apply Nat.eqb_eq in E1, E2. unfold size in *.
    destruct (primary kvs), (alternate kvs); try discriminate. destruct Hin.
  - destruct (generic_loop_loaded (gatherTuples kvs (mkPrio [name] [])))
      as (b & -> & Hb).
    exists b. split; [reflexivity|]. rewrite Hb, gatherTuples_flat. simpl.
    rewrite app_nil_r. split.
    + intros (tuple & hit0 & hits & Hin & Hm & Hk).
      apply in_map_iff in Hin as (kv & <- & Hin).
      exists name, kvs, kv, hit0, hits. repeat split; auto.
    + intros (name' & kvs' & kv & hit0 & hits & Hn & _ & [= <-] & Hin & Hm & Hk).
      assert (name' = name) by congruence. subst name'.
      exists (tuple_of name kv), hit0, hits. split; [|now split].
      apply in_map_iff. eauto.
Qed.

(** X2.  With the data loaded, a feature none of whose tags with a value
    has a key of [kvt], and that is no generic building, is never handed to
    the matcher: [_upgradeTags] returns [null], or the copy when a wikidata
    replacement changed it. *)
Theorem upgradeTags_without_pairs (h : Heap) tags o loc :
  h !! tags = Some o ->
  (forall key value, aget key o = Some value -> value <> EmptyString ->
     ~ In (Some key) (akeys (kvt nsi))) ->
  buildingPreset (preset_id (matchTags o "area")) = false ->
  exists x changed,
    replaceWiki_forEach (Loaded nsi) (length h) (akeys (assign [] o)) false
                        (h ++ [assign [] o]) = (h ++ [x], Ok changed) /\
    _upgradeTags matchTags RegExp_i (Loaded nsi) tags loc h
    = (h ++ [x], Ok (if changed then Some (length h) else None)).
Proof.
  intros Hh Hno Hb.
  destruct (upgradeTags_loaded matchTags RegExp_i nsi h tags o loc Hh)
    as (x & changed & kvs & E1 & _ & Ekv & ->).
  exists x, changed. split; [assumption|].
  assert (Hempty : primary kvs = [] /\ alternate kvs = []).
  { unfold gatherKVs in Ekv.
    destruct (gatherKVs_forEach_loaded nsi o (akeys o) (mkPrio [] []))
      as (acc & Eacc & Hp & Ha).
    rewrite Eacc, Hb in Ekv. simpl in Ekv. injection Ekv as <-.
    split.
    - destruct (primary acc) as [|kv l]; [reflexivity|]. exfalso.
      destruct (proj1 (Hp kv) (or_introl eq_refl))
        as [[]|(key & value & _ & Hv & Hne & _ & Hin & _)].
      eapply Hno; eauto.
    - destruct (alternate acc) as [|kv l]; [reflexivity|]. exfalso.
      destruct (proj1 (Ha kv) (or_introl eq_refl))
        as [[]|(key & _ & Hv & Hin & _)].
      apply (Hno key "yes" Hv); [discriminate|assumption]. }
  destruct Hempty as [-> ->]. reflexivity.
Qed.

End generic.

Lemma isGenericName_loaded_witness :
  exists b, _isGenericName no_preset (Loaded sample_nsi)
              [("shop", "convenience"); ("name", "Shop")] = Ok b.
Proof.
  destruct (isGenericName_loaded sample_nsi no_preset
              [("shop", "convenience"); ("name", "Shop")]) as (b & E & _).
  exists b. exact E.
Defined.

Lemma upgradeTags_without_pairs_witness :
  exists (x : Tags) (changed : bool),
    _upgradeTags no_preset no_RegExp (Loaded sample_nsi) 0 None
      [[("highway", "residential"); ("name", "Acme")]]
    = ([[("highway", "residential"); ("name", "Acme")]] ++ [x],
       Ok (if changed then Some 1 else None)).
Proof.
  destruct (upgradeTags_without_pairs sample_nsi no_preset no_RegExp
              [[("highway", "residential"); ("name", "Acme")]] 0
              [("highway", "residential"); ("name", "Acme")] None eq_refl)
    as (x & changed & _ & E).
  - intros key value Hv _ [Hin|[]]. injection Hin as <-.
    vm_compute in Hv. discriminate.
  - reflexivity.
  - exists x, changed. exact E.
Defined.

End GenericFacts.

(** ** [gatherNames]: what is gathered, and what never is *)

Module NameMoreFacts.
Import Chars Regex JS NSI Spec SpecMore StoreFacts TupleFacts GatherFacts
       RegexFacts NameFacts.

Lemma lang_alts rs r l : In r rs -> lang r l -> lang (alts rs) l.
Proof.
  induction rs as [|r0 rs IH]; intros Hin Hl; [destruct Hin|].
  destruct rs as [|r1 rs].
  - destruct Hin as [->|[]]. exact Hl.
  - change (alts (r0 :: r1 :: rs)) with (Alt r0 (alts (r1 :: rs))).
    destruct Hin as [->|Hin]; [now apply lang_alt_l|].
    apply lang_alt_r. now apply IH.
Qed.

Lemma lang_lit_i word l :
  Forall2 (fun x y => ci_char x y = true) (chars word) l -> lang (lit_i word) l.
Proof. intros H. now apply lang_lit_list_i. Qed.

(** [colou?r] takes both spellings. *)
Lemma lang_colour l :
  Forall2 (fun x y => ci_char x y = true) (chars "colour") l \/
  Forall2 (fun x y => ci_char x y = true) (chars "color") l ->
  lang (Cat (lit_i "colo") (Cat (Opt (lit_i "u")) (lit_i "r"))) l.
Proof.
  intros [H|H].
  - change (chars "colour") with (chars "colo" ++ chars "ur") in H.
    apply Forall2_app_inv_l in H as (l1 & l2 & H1 & H2 & ->).
    change (chars "ur") with (chars "u" ++ chars "r") in H2.
    apply Forall2_app_inv_l in H2 as (l3 & l4 & H3 & H4 & ->).
    constructor; [now apply lang_lit_i|].
    constructor; [apply lang_alt_r; now apply lang_lit_i|now apply lang_lit_i].
  - change (chars "color") with (chars "colo" ++ chars "r") in H.
    apply Forall2_app_inv_l in H as (l1 & l2 & H1 & H2 & ->).
    constructor; [now apply lang_lit_i|].
    change l2 with ([] ++ l2).
    constructor; [apply lang_alt_l; constructor|now apply lang_lit_i].
Qed.

Lemma test_notNames prefix suffix word :
  In word notName_suffixes -> ci_eq word suffix ->
  test notNames (prefix +:+ ":" +:+ suffix) = true.
Proof.
  intros Hin Hci. unfold test, matches. apply matches_list_lang.
  rewrite !chars_app. cbn [bol eol body notNames].
  constructor; [apply lang_star_any|].
  rewrite <- (app_nil_r (chars ":" ++ chars suffix)).
  constructor; [|constructor].
  constructor; [apply lang_lit_i; repeat constructor|].
  unfold ci_eq in Hci. unfold notName_suffixes in Hin. simpl in Hin.
  destruct Hin as [<-|[<-|Hin]].
  - eapply lang_alts; [now left|]. apply lang_colour. now left.
  - eapply lang_alts; [now left|]. apply lang_colour. now right.
  - repeat (destruct Hin as [<-|Hin];
            [eapply lang_alts; [|apply lang_lit_i; exact Hci]; simpl; tauto|]).
    destruct Hin.
Qed.

Lemma step_sound tags st key :
  sound tags st -> sound tags (gatherNames_step (patterns_of tags) tags st key).
Proof.
  intros [Hp Ha]. unfold gatherNames_step.
  destruct (truthy (aget key tags)) eqn:Et; simpl; [|now split].
  apply truthy_Some in Et as (value & Ev & Hne). rewrite Ev. simpl.
  destruct (isNamelike (patterns_of tags) key Primary) eqn:Ep.
  - destruct (test semicolon value) eqn:Es; [now split|].
    split; [|exact Ha]. simpl. intros v Hv. apply In_add in Hv as [->|Hv]; [|auto].
    exists key. repeat split; auto.
    intros H. apply test_semicolon in H. congruence.
  - destruct (negb _ && isNamelike (patterns_of tags) key Alternate) eqn:Ea;
      [|now split].
    apply andb_true_iff in Ea as [_ Ea].
    destruct (test semicolon value) eqn:Es; [now split|].
    split; [exact Hp|]. simpl. intros v Hv. apply In_add in Hv as [->|Hv]; [|auto].
    exists key. repeat split; auto.
    intros H. apply test_semicolon in H. congruence.
Qed.

Lemma fold_sound tags keys : forall st,
  sound tags st ->
  sound tags (fold_left (gatherNames_step (patterns_of tags) tags) keys st).
Proof.
  induction keys as [|k keys IH]; intros st Hs; simpl; [assumption|].
  apply IH. now apply step_sound.
Qed.

(** X3.  Every name [gatherNames] returns is the non-empty value, without a
    semicolon, of a tag of the feature: a primary name of a tag whose key
    the primary pattern takes; an alternate name of a tag whose key the
    alternate pattern takes and the primary pattern does not, or of the
    [country] tag of a flagpole for which no primary name was gathered. *)
Theorem gatherNames_sound (tags : Tags) (v : string) :
  (In v (primary (gatherNames tags)) ->
     exists key, aget key tags = Some v /\ v <> EmptyString /\
       ~ In ";"%char (chars v) /\
       isNamelike (patterns_of tags) key Primary = true) /\
  (In v (alternate (gatherNames tags)) ->
     v <> EmptyString /\ ~ In ";"%char (chars v) /\
     ((exists key, aget key tags = Some v /\
         isNamelike (patterns_of tags) key Alternate = true /\
         isNamelike (patterns_of tags) key Primary = false) \/
      (aget "man_made" tags = Some "flagpole" /\ aget "country" tags = Some v /\
       primary (gatherNames tags) = []))).
Proof.
  unfold gatherNames.
  assert (Hs : sound tags (fold_left (gatherNames_step (patterns_of tags) tags)
                             (akeys tags) (mkNames [] [] false))).
  { apply fold_sound. split; intros ? []. }
  set (st := fold_left _ _ _) in *. destruct Hs as [Hp Ha].
  unfold gatherNames_country.
  destruct (bool_decide (aget "man_made" tags = Some "flagpole")
            && (size (names_primary st) =? 0) && (size (names_alternate st) =? 0)
            && truthy (aget "country" tags)) eqn:Ec.
  - apply andb_true_iff in Ec as [Ec Ect]. apply andb_true_iff in Ec as [Ec Esa].
    apply andb_true_iff in Ec as [Em Esp].
    apply bool_decide_eq_true in Em. apply Nat.eqb_eq in Esp, Esa.
    apply truthy_Some in Ect as (c & Ecv & Hne). rewrite Ecv. simpl.
    unfold size in *.
    destruct (names_primary st) eqn:Enp; [|discriminate].
    destruct (names_alternate st) eqn:Ena; [|discriminate].
    destruct (test semicolon c) eqn:Es; simpl; rewrite ?Enp, ?Ena; simpl.
    + split; intros [].
    + destruct (foundSemi st); simpl; [split; intros []|].
      split; [intros []|]. intros [<-|[]]. repeat split; auto.
      intros H. apply test_semicolon in H. congruence.
  - destruct (foundSemi st); simpl.
    + split; intros [].
    + split; [apply Hp|]. intros Hv. destruct (Ha v Hv) as (key & H1 & H2 & H3 & H4 & H5).
      repeat split; auto. left. eauto.
Qed.

Lemma gatherNames_sound_witness :
  exists key, aget key [("shop", "convenience"); ("name", "Acme")] = Some "Acme".
Proof.
  destruct (proj1 (gatherNames_sound [("shop", "convenience"); ("name", "Acme")] "Acme"))
    as (key & H & _).
  - simpl. now left.
  - exists key. exact H.
Defined.

(** *** When no name-like value has a semicolon *)

Lemma step_incl patterns tags st key v :
  (In v (names_primary st) ->
   In v (names_primary (gatherNames_step patterns tags st key))) /\
  (In v (names_alternate st) ->
   In v (names_alternate (gatherNames_step patterns tags st key))).
Proof.
  unfold gatherNames_step.
  repeat (match goal with |- context [if ?b then _ else _] => destruct b end;
          simpl); split; auto; intros H; apply In_add; now right.
Qed.

Lemma fold_incl patterns tags keys v : forall st,
  (In v (names_primary st) ->
   In v (names_primary (fold_left (gatherNames_step patterns tags) keys st))) /\
  (In v (names_alternate st) ->
   In v (names_alternate (fold_left (gatherNames_step patterns tags) keys st))).
Proof.
  induction keys as [|k keys IH]; intros st; simpl; [tauto|].
  destruct (IH (gatherNames_step patterns tags st k)) as [I1 I2].
  destruct (step_incl patterns tags st k v) as [S1 S2]. tauto.
Qed.

Lemma step_no_semi tags st key :
  (forall key v, namelike_tag tags key v -> ~ In ";"%char (chars v)) ->
  foundSemi st = false ->
  foundSemi (gatherNames_step (patterns_of tags) tags st key) = false.
Proof.
  intros Hns Hf. unfold gatherNames_step.
  destruct (truthy (aget key tags)) eqn:Et; simpl; [|assumption].
  apply truthy_Some in Et as (value & Ev & Hne). rewrite Ev. simpl.
  destruct (isNamelike (patterns_of tags) key Primary) eqn:Ep.
  - destruct (test semicolon value) eqn:Es; [|assumption].
    exfalso. apply test_semicolon in Es. apply (Hns key value); [|assumption].
    repeat split; auto.
  - destruct (negb _ && isNamelike (patterns_of tags) key Alternate) eqn:Ea;
      [|assumption].
    apply andb_true_iff in Ea as [_ Ea].
    destruct (test semicolon value) eqn:Es; [|assumption].
    exfalso. apply test_semicolon in Es. apply (Hns key value); [|assumption].
    repeat split; auto.
Qed.

Lemma step_gathers tags st key v :
  (forall key v, namelike_tag tags key v -> ~ In ";"%char (chars v)) ->
  namelike_tag tags key v ->
  let st' := gatherNames_step (patterns_of tags) tags st key in
  (isNamelike (patterns_of tags) key Primary = true -> In v (names_primary st')) /\
  (In v (names_primary st') \/ In v (names_alternate st')).
Proof.
  intros Hns Hl. pose proof (Hns key v Hl) as Hsemi.
  destruct Hl as (Hv & Hne & Hlike). unfold gatherNames_step.
  rewrite Hv. simpl. apply nonempty_true in Hne. rewrite Hne. simpl.
  assert (Es : test semicolon v = false).
  { destruct (test semicolon v) eqn:E; [|reflexivity].
    apply test_semicolon in E. contradiction. }
  rewrite Es.
  destruct (isNamelike (patterns_of tags) key Primary) eqn:Ep; simpl.
  - split; [intros _|left]; apply In_add; now left.
  - destruct Hlike as [?|Ha]; [discriminate|]. rewrite Ha.
    split; [discriminate|].
    destruct (has v (names_primary st)) eqn:Eh; simpl.
    + left. now apply has_In.
    + right. apply In_add. now left.
Qed.

Lemma fold_gathers tags keys : forall st,
  (forall key v, namelike_tag tags key v -> ~ In ";"%char (chars v)) ->
  foundSemi st = false ->
  let st' := fold_left (gatherNames_step (patterns_of tags) tags) keys st in
  foundSemi st' = false /\
  forall key v, In key keys -> namelike_tag tags key v ->
    (isNamelike (patterns_of tags) key Primary = true -> In v (names_primary st')) /\
    (In v (names_primary st') \/ In v (names_alternate st')).
Proof.
  induction keys as [|k keys IH]; intros st Hns Hf; simpl.
  - split; [assumption|]. intros ? ? [].
  - destruct (IH (gatherNames_step (patterns_of tags) tags st k) Hns
                (step_no_semi tags st k Hns Hf)) as [If Ig].
    split; [assumption|]. intros key v [<-|Hin] Hl; [|now apply Ig].
    destruct (step_gathers tags st k v Hns Hl) as [G1 G2].
    destruct (fold_incl (patterns_of tags) tags keys v
                (gatherNames_step (patterns_of tags) tags st k)) as [I1 I2].
    split; [auto|]. destruct G2; [left|right]; auto.
Qed.

(** X4.  When no value [gatherNames] considers has a semicolon, nothing is
    lost: the value of every tag with a primary name-like key is a primary
    name, and the value of every tag with an alternate name-like key is a
    primary or an alternate name. *)
Theorem gatherNames_complete (tags : Tags) :
  (forall v, name_candidate tags v -> ~ In ";"%char (chars v)) ->
  forall key v, namelike_tag tags key v ->
    (isNamelike (patterns_of tags) key Primary = true ->
     In v (primary (gatherNames tags))) /\
    (In v (primary (gatherNames tags)) \/ In v (alternate (gatherNames tags))).
Proof.
  intros Hclean key v Hl.
  assert (Hns : forall key v, namelike_tag tags key v -> ~ In ";"%char (chars v)).
  { intros k w Hk. apply Hclean. left. eauto. }
  destruct (fold_gathers tags (akeys tags) (mkNames [] [] false) Hns eq_refl)
    as [Hf Hg].
  assert (Hin : In key (akeys tags)).
  { destruct Hl as (Hv & _). apply aget_Some_In in Hv. now apply (in_map fst) in Hv. }
  destruct (Hg key v Hin Hl) as [G1 G2].
  unfold gatherNames. set (st := fold_left _ _ _) in *.
  assert (Hc : gatherNames_country tags st = st).
  { unfold gatherNames_country.
    destruct (bool_decide _ && (size (names_primary st) =? 0)
              && (size (names_alternate st) =? 0) && _) eqn:Ec; [|reflexivity].
    apply andb_true_iff in Ec as [Ec _]. apply andb_true_iff in Ec as [Ec Esa].
    apply andb_true_iff in Ec as [_ Esp]. apply Nat.eqb_eq in Esp, Esa.
    unfold size in *.
    destruct G2 as [G|G]; [destruct (names_primary st)|destruct (names_alternate st)];
      try discriminate; destruct G. }
  rewrite Hc, Hf. simpl. tauto.
Qed.

Lemma gatherNames_complete_witness :
  In "Acme" (primary (gatherNames [("shop", "convenience"); ("name", "Acme")])).
Proof.
  refine (proj1 (gatherNames_complete [("shop", "convenience"); ("name", "Acme")]
                   _ "name" "Acme" _) eq_refl).
  - intros v [(key & Hv & _)|(Hm & _)] Hs.
    + simpl in Hv.
      destruct (decide (key = "shop")); [injection Hv as <-; vm_compute in Hs; intuition discriminate|].
      destruct (decide (key = "name")); [injection Hv as <-; vm_compute in Hs; intuition discriminate|].
      discriminate.
    + discriminate Hm.
  - repeat split; [discriminate|]. now left.
Defined.

(** X5.  The flagpole fallback: for a flagpole none of whose tags is
    name-like, a non-empty [country] value without a semicolon is the one
    name gathered, as an alternate name. *)
Theorem gatherNames_flagpole_country (tags : Tags) (country : string) :
  aget "man_made" tags = Some "flagpole" ->
  aget "country" tags = Some country ->
  country <> EmptyString -> ~ In ";"%char (chars country) ->
  (forall key v, ~ namelike_tag tags key v) ->
  gatherNames tags = mkPrio [] [country].
Proof.
  intros Hm Hc Hne Hsemi Hnone.
  assert (Hall : forall key v, namelike_tag tags key v -> In ";"%char (chars v)).
  { intros key v Hl. now apply Hnone in Hl. }
  assert (Hns : forall key v, namelike_tag tags key v -> ~ In ";"%char (chars v)).
  { intros key v Hl. now apply Hnone in Hl. }
  destruct (fold_gathers_nothing tags (akeys tags) (mkNames [] [] false) Hall)
    as [Hp Ha].
  destruct (fold_gathers tags (akeys tags) (mkNames [] [] false) Hns eq_refl)
    as [Hf _].
  unfold gatherNames. set (st := fold_left _ _ _) in *. simpl in Hp, Ha.
  unfold gatherNames_country. rewrite Hm, Hp, Ha, Hc. simpl.
  apply nonempty_true in Hne. rewrite Hne. simpl.
  assert (Es : test semicolon country = false).
  { destruct (test semicolon country) eqn:E; [|reflexivity].
    apply test_semicolon in E. contradiction. }
  rewrite Es. simpl. now rewrite Hf.
Qed.

Lemma gatherNames_flagpole_country_witness :
  gatherNames [("man_made", "flagpole"); ("country", "France")]
  = mkPrio [] ["France"].
Proof.
  apply gatherNames_flagpole_country; try reflexivity; try discriminate.
  - vm_compute. intuition discriminate.
  - intros key v (Hv & _ & Hlike). simpl in Hv.
    destruct (decide (key = "man_made")) as [->|_];
      [vm_compute in Hlike; destruct Hlike; discriminate|].
    destruct (decide (key = "country")) as [->|_];
      [vm_compute in Hlike; destruct Hlike; discriminate|].
    discriminate.
Defined.

(** X6.  In every context a key that ends in a colon and one of the
    suffixes colour, color, type, forward, backward, left, right, etymology,
    pronunciation or wikipedia, in any letter case, is not name-like: the
    value of such a tag ([name:etymology], [operator:type],
    [brand:wikipedia]) is not gathered on its account. *)
Theorem isNamelike_excludes_suffix (patterns : Prio RegExp)
    (prefix suffix word : string) (which : Which) :
  In word notName_suffixes -> ci_eq word suffix ->
  isNamelike patterns (prefix +:+ ":" +:+ suffix) which = false.
Proof.
  intros Hin Hci. unfold isNamelike.
  rewrite (test_notNames prefix suffix word Hin Hci). apply andb_false_r.
Qed.

Lemma isNamelike_excludes_suffix_witness :
  isNamelike (patterns_of []) ("name" +:+ ":" +:+ "Etymology") Primary = false.
Proof.
  apply (isNamelike_excludes_suffix _ "name" "Etymology" "etymology").
  - simpl. tauto.
  - repeat constructor.
Defined.

(** X19.  Outside of routes and flagpoles the alternate pattern has no end
    anchor: every key that begins with [brand] or [operator], in any letter
    case, is an alternate name key whatever follows, unless it ends in one
    of the excluded suffixes.  The value of a tag such as
    [operator_website] is gathered as an alternate name. *)
Theorem default_alternate_is_prefix (tags : Tags) (word prefix rest : string) :
  truthy (aget "route" tags) = false ->
  aget "man_made" tags <> Some "flagpole" ->
  In word ["brand"; "operator"] -> ci_eq word prefix ->
  test notNames (prefix +:+ rest) = false ->
  isNamelike (patterns_of tags) (prefix +:+ rest) Alternate = true.
Proof.
  intros Hroute Hflag Hword Hci Hnot. unfold isNamelike. rewrite Hnot, andb_true_r.
  unfold patterns_of. rewrite Hroute, bool_decide_eq_false_2 by assumption.
  unfold pick, alternate, test, matches. simpl bol. simpl eol. simpl body. cbv iota.
  fold (chars (prefix +:+ rest)). apply matches_list_lang.
  rewrite chars_app. change (chars prefix ++ chars rest)
    with ([] ++ (chars prefix ++ chars rest)).
  constructor; [constructor|]. constructor; [|apply lang_star_any].
  apply lang_lit_i in Hci.
  simpl in Hword. destruct Hword as [<-|[<-|[]]].
  - now apply lang_alt_l.
  - apply lang_alt_r, lang_alt_r. now apply lang_alt_l.
Qed.

Lemma default_alternate_is_prefix_witness :
  isNamelike (patterns_of []) ("operator" +:+ "_website") Alternate = true.
Proof.
  apply (default_alternate_is_prefix [] "operator" "operator" "_website").
  - reflexivity.
  - discriminate.
  - simpl. tauto.
  - repeat constructor.
  - vm_compute. reflexivity.
Defined.

End NameMoreFacts.

(** ** The tags of an upgraded feature, key by key *)

Module MergeFacts.
Import Chars Regex JS NSI Spec SpecMore StoreFacts TupleFacts GatherFacts
       RegexFacts UpgradeFacts BranchFacts CrossRefFacts.

Lemma NoDup_akeys_aset (m : Tags) k v : NoDup (akeys m) -> NoDup (akeys (aset k v m)).
Proof.
  destruct (aget k m) as [v0|] eqn:E.
  - intros H. rewrite akeys_aset_In; [assumption|].
    apply aget_Some_In in E. now apply (in_map fst) in E.
  - apply aget_None in E. rewrite aset_fresh by assumption.
    intros H. unfold akeys. rewrite map_app. simpl.
    apply NoDup_app. split; [assumption|]. split.
    + intros x Hx Hk. apply list_elem_of_singleton in Hk as ->.
      apply E. now apply list_elem_of_In.
    + apply NoDup_singleton.
Qed.

Lemma aget_app (l1 l2 : Tags) key :
  aget key (l1 ++ l2) =
  match aget key l1 with Some v => Some v | None => aget key l2 end.
Proof.
  induction l1 as [|[k v] l1 IH]; simpl; [reflexivity|].
  destruct (decide (key = k)); [reflexivity|assumption].
Qed.

Lemma aget_rev_NoDup (m : Tags) key :
  NoDup (akeys m) -> aget key (rev m) = aget key m.
Proof.
  induction m as [|[k v] m IH]; simpl; [reflexivity|].
  intros H. apply NoDup_cons_1_1 in H as Hk. apply NoDup_cons_1_2 in H as Hm.
  rewrite aget_app, IH by assumption. simpl.
  destruct (decide (key = k)) as [->|Hne].
  - rewrite list_elem_of_In in Hk. apply aget_None in Hk. now rewrite Hk.
  - now destruct (aget key m).
Qed.

Lemma keepTags_of_fold regexes (o : Tags) key : forall keys keep,
  (forall k, In k keys -> In k (akeys o)) ->
  aget key (fold_left (fun keepTags osmkey =>
               if existsb (fun regex => regex osmkey) regexes
               then match aget osmkey o with
                    | Some value => aset osmkey value keepTags
                    | None => keepTags
                    end
               else keepTags) keys keep) =
  if existsb (fun regex => regex key) regexes && has key keys
  then aget key o else aget key keep.
Proof.
  induction keys as [|osmkey keys IH]; intros keep Hsub; simpl.
  - now rewrite andb_false_r.
  - rewrite IH by (intros; apply Hsub; now right).
    fold (has key keys).
    destruct (existsb (fun regex => regex key) regexes) eqn:Ek; simpl.
    + destruct (has key keys) eqn:Eh; [now rewrite orb_true_r|].
      rewrite orb_false_r.
      destruct (String.eqb_spec key osmkey) as [<-|Hne].
      * rewrite Ek.
        destruct (aget_is_Some o key (Hsub key (or_introl eq_refl))) as (v & Ev).
        rewrite Ev, aget_aset. now destruct (decide (key = key)).
      * destruct (existsb (fun regex => regex osmkey) regexes); [|reflexivity].
        destruct (aget osmkey o); [|reflexivity].
        rewrite aget_aset. destruct (decide (key = osmkey)); congruence.
    + destruct (existsb (fun regex => regex osmkey) regexes) eqn:Eo; [|reflexivity].
      destruct (aget osmkey o); [|reflexivity].
      rewrite aget_aset. destruct (decide (key = osmkey)) as [->|]; congruence.
Qed.

Lemma aget_keepTags_of regexes (o : Tags) key :
  aget key (keepTags_of regexes o) =
  if existsb (fun regex => regex key) regexes then aget key o else None.
Proof.
  unfold keepTags_of. rewrite keepTags_of_fold by auto. simpl.
  destruct (existsb _ regexes); [|reflexivity]. simpl.
  destruct (has key (akeys o)) eqn:Eh; [reflexivity|].
  symmetry. apply aget_None. intros Hin. apply has_In in Hin. congruence.
Qed.

Lemma NoDup_keepTags_of regexes (o : Tags) : NoDup (akeys (keepTags_of regexes o)).
Proof.
  unfold keepTags_of.
  enough (H : forall keys keep, NoDup (akeys keep) ->
    NoDup (akeys (fold_left (fun keepTags osmkey =>
               if existsb (fun regex => regex osmkey) regexes
               then match aget osmkey o with
                    | Some value => aset osmkey value keepTags
                    | None => keepTags
                    end
               else keepTags) keys keep))).
  { apply H. constructor. }
  induction keys as [|osmkey keys IH]; intros keep Hk; simpl; [assumption|].
  apply IH. destruct (existsb _ regexes); [|assumption].
  destruct (aget osmkey o); [|assumption]. now apply NoDup_akeys_aset.
Qed.

Lemma aget_delete_all (ks : list (option string)) key : forall o : Tags,
  aget key (fold_left (fun o k => adel (key_of k) o) ks o) =
  if existsb (fun k => String.eqb key (key_of k)) ks then None else aget key o.
Proof.
  induction ks as [|k ks IH]; intros o; simpl; [reflexivity|].
  rewrite IH, aget_adel.
  destruct (String.eqb_spec key (key_of k)) as [->|Hne]; simpl.
  - destruct (existsb _ ks); [reflexivity|]. now destruct (decide (key_of k = key_of k)).
  - destruct (existsb _ ks); [reflexivity|]. now destruct (decide (key = key_of k)).
Qed.

Lemma aget_discarded {Loc} (nsi : @Nsi Loc) foundQID (o : Tags) key :
  aget key (let o1 := fold_left (fun o k => adel (key_of k) o) (akeys (kvt nsi)) o in
            if truthy foundQID then adel "wikidata" (adel "wikipedia" o1) else o1) =
  if discarded nsi foundQID key then None else aget key o.
Proof.
  cbv zeta. unfold discarded.
  destruct (truthy foundQID); simpl; rewrite ?aget_adel, aget_delete_all.
  - destruct (String.eqb_spec key "wikidata") as [->|H1]; simpl;
      [now rewrite orb_true_r|].
    destruct (String.eqb_spec key "wikipedia") as [->|H2]; simpl;
      [now rewrite orb_true_r|].
    rewrite orb_false_r.
    repeat case_decide; congruence.
  - now rewrite orb_false_r.
Qed.

(** The merged tags, key by key. *)
Lemma aget_merged {Loc} (nsi : @Nsi Loc) foundQID item regexes (o : Tags) key :
  NoDup (akeys (item_tags item)) ->
  aget key (merged nsi foundQID item
              (keepTags_of (regexes ++ [test (mkRegExp true (lit_i "building") true);
                                        test (mkRegExp true (lit_i "takeaway") true)]) o) o) =
  if preserved regexes key && ahas key o then aget key o
  else if ahas key (item_tags item) then aget key (item_tags item)
  else if discarded nsi foundQID key then None else aget key o.
Proof.
  intros Hnd. unfold merged. cbv zeta. rewrite !aget_assign.
  rewrite (aget_rev_NoDup (keepTags_of _ o)) by apply NoDup_keepTags_of.
  rewrite aget_keepTags_of. fold (preserved regexes key).
  rewrite aget_rev_NoDup by assumption.
  pose proof (aget_discarded nsi foundQID o key) as Hd. cbv zeta in Hd. rewrite Hd.
  unfold ahas.
  destruct (preserved regexes key); simpl.
  - destruct (aget key o) as [v|] eqn:Eo; [reflexivity|].
    destruct (aget key (item_tags item)); [reflexivity|].
    now destruct (discarded nsi foundQID key).
  - now destruct (aget key (item_tags item)).
Qed.

Section merge.
Context {Loc : Type}.
Variable RegExp_i : string -> Res (string -> bool).
Variable nsi : @Nsi Loc.

(** X7.  The tags of an upgraded feature, key by key.  For every key but
    [branch], which the branch rule may add: a tag of the working copy whose
    key a [preserveTags] pattern of the item (or else of its category)
    takes, or whose key is [building] or [takeaway] in any letter case,
    keeps its value; otherwise a tag of the item is taken over; otherwise a
    tag whose key is a key of [kvt] or, when the cross-reference resolved,
    [wikidata] or [wikipedia] is dropped; any other tag of the working copy
    stays as it is.  The upgrade does not throw and returns the working
    copy. *)
Theorem upgradeTo_merge_law (h : Heap) tags newTags t o foundQID item category regexes :
  h !! tags = Some t -> h !! newTags = Some o -> tags <> newTags ->
  aget (key_of (item_tkv item)) (data nsi) = Some category ->
  compile_all RegExp_i (preserve_of category item) = Ok regexes ->
  NoDup (akeys (item_tags item)) ->
  exists result,
    upgradeTo RegExp_i (Loaded nsi) tags newTags foundQID item h
    = (<[newTags := result]> h, Ok (Some newTags)) /\
    forall key, key <> "branch" ->
      aget key result =
      if preserved regexes key && ahas key o then aget key o
      else if ahas key (item_tags item) then aget key (item_tags item)
      else if discarded nsi foundQID key then None else aget key o.
Proof.
  intros Ht Ho Hne Hcat Hre Hnd.
  destruct (upgradeTo_run RegExp_i nsi h tags newTags t o foundQID item category
              regexes Ht Ho Hne Hcat Hre) as (result & E & Hres).
  exists result. split; [assumption|]. intros key Hkey.
  rewrite <- (aget_merged nsi foundQID item regexes o key Hnd).
  destruct Hres as [->|(branch & _ & ->)]; [reflexivity|].
  rewrite aget_aset. now destruct (decide (key = "branch")).
Qed.

End merge.

Lemma upgradeTo_merge_law_witness :
  exists result,
    upgradeTo no_RegExp (Loaded sample_nsi) 0 1 None acme
      [[("shop", "convenience"); ("name", "acme"); ("building", "yes")];
       [("shop", "convenience"); ("name", "acme"); ("building", "yes")]]
    = ([[("shop", "convenience"); ("name", "acme"); ("building", "yes")]; result],
       Ok (Some 1)) /\
    aget "building" result = Some "yes" /\ aget "name" result = Some "Acme".
Proof.
  destruct (upgradeTo_merge_law no_RegExp sample_nsi
              [[("shop", "convenience"); ("name", "acme"); ("building", "yes")];
               [("shop", "convenience"); ("name", "acme"); ("building", "yes")]]
              0 1 _ _ None acme (mkCategory (Some [acme]) None) []
              eq_refl eq_refl) as (result & E & H).
  - discriminate.
  - reflexivity.
  - reflexivity.
  - apply NoDup_ListNoDup. repeat constructor; simpl; intuition discriminate.
  - exists result. split; [exact E|].
    split; [exact (H "building" ltac:(discriminate))
           |exact (H "name" ltac:(discriminate))].
Defined.

End MergeFacts.

(** ** The loop over the tuples *)

Module LoopFacts.
Import Chars Regex JS NSI Spec SpecMore StoreFacts TupleFacts GatherFacts
       RegexFacts UpgradeFacts HitFacts.

Section loop.
Context {Loc : Type}.
Variable matchTags : Tags -> string -> Preset.
Variable RegExp_i : string -> Res (string -> bool).
Variable nsi : @Nsi Loc.

(** One turn of the loop: a tuple is either passed over, and then no item
    is [actionable] for it, or upgraded to an item that is. *)
Lemma tuples_loop_step (h : Heap) tags newTags o loc foundQID changed tuple rest :
  h !! newTags = Some o ->
  (exists item, actionable nsi o loc tuple item /\
     tuples_loop RegExp_i (Loaded nsi) tags newTags loc foundQID changed
                 (tuple :: rest) h
     = upgradeTo RegExp_i (Loaded nsi) tags newTags foundQID item h) \/
  ((forall item, ~ actionable nsi o loc tuple item) /\
   tuples_loop RegExp_i (Loaded nsi) tags newTags loc foundQID changed
               (tuple :: rest) h
   = tuples_loop RegExp_i (Loaded nsi) tags newTags loc foundQID changed rest h).
Proof.
  intros Ho. cbn [tuples_loop nsi_field]. rewrite bind_lift_Ok.
  destruct (matcher nsi (tuple_k tuple) (tuple_v tuple) (tuple_n tuple) loc)
    as [[|hit0 hits]|] eqn:Em.
  - right. split; [|reflexivity].
    intros item (h0 & hs & _ & _ & _ & E & _). congruence.
  - destruct (negb (String.eqb (match_ hit0) "primary")
              && negb (String.eqb (match_ hit0) "alternate")) eqn:Ek.
    + right. split; [|reflexivity].
      intros item (h0 & hs & _ & _ & _ & E & Hk & _).
      assert (h0 = hit0) by congruence. subst h0.
      destruct Hk as [Hk|Hk]; rewrite Hk in Ek; discriminate Ek.
    + rewrite (bind_get_object _ _ _ _ Ho).
      destruct (hits_loop_first matchTags nsi o (hit0 :: hits)) as (selected & E & Hsel).
      rewrite E, bind_lift_Ok. destruct selected as [item|].
      * left. exists item. split; [|reflexivity].
        destruct Hsel as (before & hit & after & Eh & Hq & Hb).
        exists hit0, hits, before, hit, after.
        split; [exact Em|]. split; [|auto].
        apply andb_false_iff in Ek.
        destruct Ek as [Ek|Ek]; apply negb_false_iff, String.eqb_eq in Ek; auto.
      * right. split; [|reflexivity].
        intros item (h0 & hs & before & hit & after & E' & _ & Eh & Hq & _).
        assert (Heq : hit0 :: hits = h0 :: hs) by congruence.
        refine (Hsel hit _ item Hq).
        rewrite Heq, Eh. apply in_or_app. right. now left.
  - right. split; [|reflexivity].
    intros item (h0 & hs & _ & _ & _ & E & _). congruence.
Qed.

Lemma actionable_cases (o : Tags) loc tuples :
  (exists tuple item, In tuple tuples /\ actionable nsi o loc tuple item) \/
  (forall tuple, In tuple tuples -> forall item, ~ actionable nsi o loc tuple item).
Proof.
  induction tuples as [|tuple rest IH]; [right; intros ? []|].
  destruct (tuples_loop_step [o] 0 0 o loc None false tuple rest eq_refl)
    as [(item & Ha & _)|[Hna _]].
  - left. exists tuple, item. split; [now left|assumption].
  - destruct IH as [(tuple' & item & Hin & Ha)|Hnone].
    + left. exists tuple', item. split; [now right|assumption].
    + right. intros tuple' [<-|Hin]; auto.
Qed.

Lemma tuples_loop_none (h : Heap) tags newTags o loc foundQID changed :
  h !! newTags = Some o ->
  forall tuples,
    (forall tuple, In tuple tuples -> forall item, ~ actionable nsi o loc tuple item) ->
    tuples_loop RegExp_i (Loaded nsi) tags newTags loc foundQID changed tuples h
    = (h, Ok (if changed then Some newTags else None)).
Proof.
  intros Ho. induction tuples as [|tuple rest IH]; intros Hnone; [reflexivity|].
  destruct (tuples_loop_step h tags newTags o loc foundQID changed tuple rest Ho)
    as [(item & Ha & _)|[_ E]].
  - exfalso. apply (Hnone tuple (or_introl eq_refl) item Ha).
  - rewrite E. apply IH. intros tuple' Hin. apply Hnone. now right.
Qed.

Lemma tuples_loop_some (h : Heap) tags newTags o loc foundQID changed :
  h !! newTags = Some o ->
  forall tuples,
    (exists tuple item, In tuple tuples /\ actionable nsi o loc tuple item) ->
    exists item,
      tuples_loop RegExp_i (Loaded nsi) tags newTags loc foundQID changed tuples h
      = upgradeTo RegExp_i (Loaded nsi) tags newTags foundQID item h.
Proof.
  intros Ho. induction tuples as [|tuple rest IH].
  - intros (? & ? & [] & _).
  - intros (tuple' & item' & Hin & Ha).
    destruct (tuples_loop_step h tags newTags o loc foundQID changed tuple rest Ho)
      as [(item & _ & E)|[Hna E]]; [eauto|].
    rewrite E. apply IH. destruct Hin as [<-|Hin]; [|eauto].
    exfalso. apply (Hna item' Ha).
Qed.

(** X8.  The loop over the tuples upgrades to the item of the first tuple,
    in the order of [gatherTuples], for which an item is [actionable]: the
    matcher answers the tuple with hits, the top hit is classified
    ["primary"] or ["alternate"], and the item is the one of the first hit
    that qualifies.  The tuples after it are not looked at.  When no tuple
    has an actionable item the loop never throws, leaves the store as it is
    and returns the working copy if a replacement changed it, and [null]
    otherwise. *)
Theorem tuples_loop_first_actionable (h : Heap) tags newTags o loc foundQID changed :
  h !! newTags = Some o ->
  forall tuples,
  (exists before tuple after item,
     tuples = before ++ tuple :: after /\
     actionable nsi o loc tuple item /\
     (forall tuple', In tuple' before ->
        forall item', ~ actionable nsi o loc tuple' item') /\
     tuples_loop RegExp_i (Loaded nsi) tags newTags loc foundQID changed tuples h
     = upgradeTo RegExp_i (Loaded nsi) tags newTags foundQID item h) \/
  ((forall tuple, In tuple tuples -> forall item, ~ actionable nsi o loc tuple item) /\
   tuples_loop RegExp_i (Loaded nsi) tags newTags loc foundQID changed tuples h
   = (h, Ok (if changed then Some newTags else None))).
Proof.
  intros Ho. induction tuples as [|tuple rest IH].
  - right. split; [intros ? []|reflexivity].
  - destruct (tuples_loop_step h tags newTags o loc foundQID changed tuple rest Ho)
      as [(item & Ha & E)|[Hna E]].
    + left. exists [], tuple, rest, item.
      split; [reflexivity|]. split; [assumption|]. split; [intros ? []|assumption].
    + rewrite E.
      destruct IH as [(before & tuple0 & after & item & -> & Ha & Hb & E')|[Hnone E']].
      * left. exists (tuple :: before), tuple0, after, item.
        split; [reflexivity|]. split; [assumption|]. split; [|assumption].
        intros tuple' [<-|Hin]; auto.
      * right. split; [|assumption].
        intros tuple' [<-|Hin]; auto.
Qed.

End loop.

Lemma tuples_loop_first_actionable_witness :
  exists item,
    tuples_loop no_RegExp (Loaded sample_nsi) 0 1 None None false
      [mkTuple "amenity" (Some "cafe") "Acme"; mkTuple "shop" (Some "convenience") "Acme"]
      [[("shop", "convenience"); ("name", "Acme")];
       [("shop", "convenience"); ("name", "Acme")]]
    = upgradeTo no_RegExp (Loaded sample_nsi) 0 1 None item
        [[("shop", "convenience"); ("name", "Acme")];
         [("shop", "convenience"); ("name", "Acme")]].
Proof.
  destruct (tuples_loop_first_actionable no_preset no_RegExp sample_nsi
              [[("shop", "convenience"); ("name", "Acme")];
               [("shop", "convenience"); ("name", "Acme")]]
              0 1 [("shop", "convenience"); ("name", "Acme")] None None false
              eq_refl
              [mkTuple "amenity" (Some "cafe") "Acme";
               mkTuple "shop" (Some "convenience") "Acme"])
    as [(before & tuple & after & item & _ & _ & _ & E)|[_ E]].
  - exists item. exact E.
  - exfalso. vm_compute in E. discriminate E.
Defined.

End LoopFacts.

(** ** The trivial Wikidata/Wikipedia replacements *)

Module ReplaceFacts.
Import Chars Regex JS NSI Spec SpecMore StoreFacts TupleFacts GatherFacts
       RegexFacts UpgradeFacts.

Lemma lang_cat_inv r1 r2 l :
  lang (Cat r1 r2) l -> exists l1 l2, l = l1 ++ l2 /\ lang r1 l1 /\ lang r2 l2.
Proof. intros H. inv H. eauto. Qed.

Lemma lang_eps_inv l : lang Eps l -> l = [].
Proof. intros H. now inv H. Qed.

Lemma lang_lit_list l : forall l', lang (lit_list l) l' -> l' = l.
Proof.
  induction l as [|c l IH]; intros l' H; simpl in H.
  - now inv H.
  - apply lang_cat_inv in H as (l1 & l2 & -> & H1 & H2).
    inv H1. simpl. f_equal; [|now apply IH].
    symmetry. now apply Ascii.eqb_eq.
Qed.

(** A key [/^(\w+:)?wikidata$/] takes ends in [wikidata]. *)
Lemma wikidataKey_suffix k :
  test wikidataKey k = true -> exists p, k = p +:+ "wikidata".
Proof.
  unfold test, matches. simpl bol. simpl eol. simpl body. cbv iota.
  fold (chars k). rewrite matches_list_lang. intros H.
  apply lang_cat_inv in H as (l0 & l3 & E & H0 & H3).
  apply lang_eps_inv in H0 as ->.
  apply lang_cat_inv in H3 as (l4 & l5 & -> & H4 & H5).
  apply lang_eps_inv in H5 as ->.
  apply lang_cat_inv in H4 as (l1 & l2 & -> & H1 & H2).
  apply lang_lit_list in H2. subst l2.
  simpl in E. rewrite app_nil_r in E.
  exists (str l1). rewrite <- (str_chars k), E.
  rewrite <- (str_chars (str l1 +:+ "wikidata")), chars_app, chars_str.
  reflexivity.
Qed.

Lemma substring_prefix p : forall s, substring 0 (String.length p) (p +:+ s) = p.
Proof.
  induction p as [|c p IH]; intros s; simpl.
  - now destruct s.
  - now rewrite IH.
Qed.

Lemma wikipedia_of_prefix p : wikipedia_of (p +:+ "wikidata") = p +:+ "wikipedia".
Proof.
  unfold wikipedia_of. rewrite length_append. simpl String.length.
  replace (String.length p + 8 - 8) with (String.length p) by lia.
  now rewrite substring_prefix.
Qed.

Lemma wikidata_ne_wikipedia p p' : p +:+ "wikidata" <> p' +:+ "wikipedia".
Proof.
  intros H. apply (f_equal chars) in H. rewrite !chars_app in H.
  apply (f_equal (@rev ascii)) in H. rewrite !rev_app_distr in H.
  simpl in H. discriminate H.
Qed.

Lemma append_inj_l p p' s : p +:+ s = p' +:+ s -> p = p'.
Proof.
  intros H. apply (f_equal chars) in H. rewrite !chars_app in H.
  apply app_inv_tail in H. rewrite <- (str_chars p), H. apply str_chars.
Qed.

(** The keys the turns for two different [*:wikidata] keys write are all
    different. *)
Lemma wiki_keys_apart k k0 :
  test wikidataKey k = true -> test wikidataKey k0 = true -> k <> k0 ->
  k <> wikipedia_of k0 /\ wikipedia_of k <> k0 /\
  wikipedia_of k <> wikipedia_of k0 /\ k <> wikipedia_of k.
Proof.
  intros Hk Hk0 Hne.
  apply wikidataKey_suffix in Hk as (p & ->).
  apply wikidataKey_suffix in Hk0 as (p0 & ->).
  rewrite !wikipedia_of_prefix. repeat split.
  - apply wikidata_ne_wikipedia.
  - intros H. symmetry in H. revert H. apply wikidata_ne_wikipedia.
  - intros H. apply append_inj_l in H. congruence.
  - apply wikidata_ne_wikipedia.
Qed.

Lemma aget_replaceTag_obj key field (x : Tags) k :
  aget k (replaceTag_obj key field x) =
  if decide (k = key) then replaced field (aget key x) else aget k x.
Proof.
  unfold replaceTag_obj, replaced. destruct field as [value|].
  - destruct (truthy value).
    + rewrite aget_aset. now destruct (decide (k = key)).
    + rewrite aget_adel. now destruct (decide (k = key)).
  - now destruct (decide (k = key)) as [->|].
Qed.

Lemma replaceTag_spec newTags key field changed (h : Heap) x :
  h !! newTags = Some x ->
  replaceTag newTags key field changed h =
  (<[newTags := replaceTag_obj key field x]> h,
   Ok (match field with Some _ => true | None => changed end)).
Proof.
  intros Hh. unfold replaceTag, replaceTag_obj. destruct field as [value|].
  - destruct (truthy value).
    + unfold set_prop. now rewrite (bind_update _ _ _ _ _ Hh).
    + unfold delete_prop. now rewrite (bind_update _ _ _ _ _ Hh).
  - unfold ret. now rewrite list_insert_id.
Qed.

Section replace.
Context {Loc : Type}.
Variable nsi : @Nsi Loc.

Lemma replaceWiki_spec newTags osmkey changed (h : Heap) x :
  h !! newTags = Some x ->
  replaceWiki (Loaded nsi) newTags osmkey changed h =
  (<[newTags := replaceWiki_obj nsi x osmkey]> h,
   Ok (changed || replaceWiki_fires nsi x osmkey)).
Proof.
  intros Hh. unfold replaceWiki, matchTag, replaceWiki_obj, replaceWiki_fires.
  destruct (test wikidataKey osmkey) eqn:Et; simpl.
  2:{ unfold ret. now rewrite list_insert_id, orb_false_r. }
  rewrite (bind_get_prop _ _ _ _ _ Hh). simpl. rewrite bind_lift_Ok.
  unfold replacement_of.
  destruct (aget _ (replacements nsi)) as [rep|].
  2:{ unfold ret. now rewrite list_insert_id, orb_false_r. }
  rewrite (bind_run _ _ _ _ _ (replaceTag_spec newTags osmkey (wikidata rep) changed h x Hh)).
  fold (wikipedia_of osmkey).
  rewrite (replaceTag_spec newTags (wikipedia_of osmkey) (wikipedia rep) _ _
             (replaceTag_obj osmkey (wikidata rep) x))
    by (eapply lookup_written; eauto).
  rewrite list_insert_insert_eq. unfold rewrites.
  destruct (wikidata rep), (wikipedia rep), changed; reflexivity.
Qed.

(** A turn writes two keys at most. *)
Lemma aget_replaceWiki_obj (x : Tags) osmkey k :
  k <> osmkey -> k <> wikipedia_of osmkey ->
  aget k (replaceWiki_obj nsi x osmkey) = aget k x.
Proof.
  intros H1 H2. unfold replaceWiki_obj.
  destruct (test wikidataKey osmkey); [|reflexivity].
  destruct (replacement_of nsi x osmkey); [|reflexivity].
  rewrite !aget_replaceTag_obj. now repeat case_decide.
Qed.

Lemma existsb_ext_In {A} (P Q : A -> bool) l :
  (forall a, In a l -> P a = Q a) -> existsb P l = existsb Q l.
Proof.
  induction l as [|a l IH]; intros H; simpl; [reflexivity|].
  rewrite (H a) by now left. rewrite IH; [reflexivity|].
  intros; apply H; now right.
Qed.

Lemma replaceWiki_forEach_spec newTags keys : forall changed (h : Heap) x,
  h !! newTags = Some x -> NoDup keys ->
  replaceWiki_forEach (Loaded nsi) newTags keys changed h =
  (<[newTags := fold_left (replaceWiki_obj nsi) keys x]> h,
   Ok (changed || existsb (replaceWiki_fires nsi x) keys)).
Proof.
  induction keys as [|osmkey rest IH]; intros changed h x Hh Hnd; simpl.
  - unfold ret. now rewrite list_insert_id, orb_false_r.
  - rewrite (bind_run _ _ _ _ _ (replaceWiki_spec newTags osmkey changed h x Hh)).
    apply NoDup_cons in Hnd as [Hk Hnd].
    rewrite (IH _ _ (replaceWiki_obj nsi x osmkey))
      by (assumption || (eapply lookup_written; eauto)).
    rewrite list_insert_insert_eq, orb_assoc. do 3 f_equal.
    apply existsb_ext_In. intros k Hin. unfold replaceWiki_fires.
    destruct (test wikidataKey k) eqn:Et; [|reflexivity]. simpl.
    unfold replacement_of. rewrite aget_replaceWiki_obj; [reflexivity| |].
    + intros ->. apply Hk. now apply list_elem_of_In.
    + apply wikidataKey_suffix in Et as (p & ->).
      unfold wikipedia_of. apply wikidata_ne_wikipedia.
Qed.

Lemma fold_replaceWiki_obj keys : forall x : Tags,
  NoDup keys ->
  let x' := fold_left (replaceWiki_obj nsi) keys x in
  (forall k, In k keys -> test wikidataKey k = true ->
     aget k x' =
       match replacement_of nsi x k with
       | Some rep => replaced (wikidata rep) (aget k x)
       | None => aget k x
       end /\
     aget (wikipedia_of k) x' =
       match replacement_of nsi x k with
       | Some rep => replaced (wikipedia rep) (aget (wikipedia_of k) x)
       | None => aget (wikipedia_of k) x
       end) /\
  (forall k, (forall k0, In k0 keys -> test wikidataKey k0 = true ->
                k <> k0 /\ k <> wikipedia_of k0) ->
     aget k x' = aget k x).
Proof.
  induction keys as [|osmkey rest IH]; intros x Hnd; simpl.
  - split; [intros ? []|reflexivity].
  - apply NoDup_cons in Hnd as [Hk Hnd].
    rewrite list_elem_of_In in Hk.
    destruct (IH (replaceWiki_obj nsi x osmkey) Hnd) as [IH1 IH2].
    assert (Hframe : forall k,
      (forall k0, In k0 (osmkey :: rest) -> test wikidataKey k0 = true ->
         k <> k0 /\ k <> wikipedia_of k0) ->
      aget k (fold_left (replaceWiki_obj nsi) rest (replaceWiki_obj nsi x osmkey))
      = aget k x).
    { intros k Hf. rewrite IH2 by (intros; apply Hf; [now right|assumption]).
      unfold replaceWiki_obj.
      destruct (test wikidataKey osmkey) eqn:Et; [|reflexivity].
      destruct (Hf osmkey (or_introl eq_refl) Et) as [H1 H2].
      destruct (replacement_of nsi x osmkey); [|reflexivity].
      rewrite !aget_replaceTag_obj. now repeat case_decide. }
    split; [|exact Hframe].
    intros k [<-|Hin] Et.
    + assert (Hself : osmkey <> wikipedia_of osmkey).
      { apply wikidataKey_suffix in Et as (p & ->).
        unfold wikipedia_of. apply wikidata_ne_wikipedia. }
      rewrite !IH2.
      * unfold replaceWiki_obj. rewrite Et.
        destruct (replacement_of nsi x osmkey); [|tauto].
        rewrite !aget_replaceTag_obj. repeat case_decide; try congruence. tauto.
      * intros k0 Hin0 Et0.
        assert (osmkey <> k0) by (intros ->; contradiction).
        destruct (wiki_keys_apart osmkey k0 Et Et0) as (? & ? & ? & ?); auto.
      * intros k0 Hin0 Et0.
        assert (osmkey <> k0) by (intros ->; contradiction).
        destruct (wiki_keys_apart osmkey k0 Et Et0) as (? & ? & ? & ?); auto.
    + assert (Hne : k <> osmkey) by (intros ->; contradiction).
      destruct (IH1 k Hin Et) as [I1 I2]. rewrite I1, I2.
      assert (Hk1 : aget k (replaceWiki_obj nsi x osmkey) = aget k x
                    /\ aget (wikipedia_of k) (replaceWiki_obj nsi x osmkey)
                       = aget (wikipedia_of k) x).
      { unfold replaceWiki_obj.
        destruct (test wikidataKey osmkey) eqn:Eo; [|tauto].
        destruct (wiki_keys_apart k osmkey Et Eo Hne) as (? & ? & ? & ?).
        destruct (replacement_of nsi x osmkey); [|tauto].
        rewrite !aget_replaceTag_obj. repeat case_decide; try congruence. tauto. }
      destruct Hk1 as [K1 K2]. unfold replacement_of. rewrite K1, K2. tauto.
Qed.

(** X9.  The trivial replacements of the first loop, for a working copy
    without duplicate keys.  The loop never throws.  For every key of the
    copy that [/^(\w+:)?wikidata$/] takes and whose value has an entry in
    [replacements]: the tag is set to the [wikidata] field of the entry when
    that is a non-empty text, deleted when the field has another value, and
    left when the entry has no such field; the companion [*wikipedia] tag
    is treated the same way with the [wikipedia] field.  A key of that kind
    without an entry keeps its value and its companion; every key that is
    neither of that kind nor such a companion keeps its value.  [changed]
    is set exactly when some such key has an entry with one of the two
    fields. *)
Theorem wikidata_replacements (h : Heap) newTags (x0 : Tags) :
  h !! newTags = Some x0 -> NoDup (akeys x0) ->
  exists x changed,
    replaceWiki_forEach (Loaded nsi) newTags (akeys x0) false h
    = (<[newTags := x]> h, Ok changed) /\
    (forall k, In k (akeys x0) -> test wikidataKey k = true ->
       aget k x =
         match replacement_of nsi x0 k with
         | Some rep => replaced (wikidata rep) (aget k x0)
         | None => aget k x0
         end /\
       aget (wikipedia_of k) x =
         match replacement_of nsi x0 k with
         | Some rep => replaced (wikipedia rep) (aget (wikipedia_of k) x0)
         | None => aget (wikipedia_of k) x0
         end) /\
    (forall k, (forall k0, In k0 (akeys x0) -> test wikidataKey k0 = true ->
                  k <> k0 /\ k <> wikipedia_of k0) ->
       aget k x = aget k x0) /\
    (changed = true <->
     exists k rep, In k (akeys x0) /\ test wikidataKey k = true /\
       replacement_of nsi x0 k = Some rep /\ rewrites rep = true).
Proof.
  intros Hh Hnd.
  exists (fold_left (replaceWiki_obj nsi) (akeys x0) x0),
         (existsb (replaceWiki_fires nsi x0) (akeys x0)).
  split; [now rewrite (replaceWiki_forEach_spec _ _ _ _ _ Hh Hnd)|].
  destruct (fold_replaceWiki_obj (akeys x0) x0 Hnd) as [H1 H2].
  split; [exact H1|]. split; [exact H2|].
  rewrite existsb_exists. unfold replaceWiki_fires. split.
  - intros (k & Hin & Hf). apply andb_true_iff in Hf as [Et Hf].
    destruct (replacement_of nsi x0 k) as [rep|] eqn:Er; [|discriminate].
    exists k, rep. auto.
  - intros (k & rep & Hin & Et & Er & Hw). exists k.
    split; [assumption|]. now rewrite Et, Er.
Qed.

End replace.

Lemma wikidata_replacements_witness :
  exists x,
    replaceWiki_forEach
      (Loaded (mkNsi [] [] [("Q5", mkReplacement (Some (Some "Q6")) (Some None))]
                     [] [] [] [] sample_match))
      0 ["brand:wikidata"; "brand:wikipedia"] false
      [[("brand:wikidata", "Q5"); ("brand:wikipedia", "en:Old")]]
    = ([x], Ok true) /\
    aget "brand:wikidata" x = Some "Q6" /\ aget "brand:wikipedia" x = None.
Proof.
  destruct (wikidata_replacements
              (mkNsi [] [] [("Q5", mkReplacement (Some (Some "Q6")) (Some None))]
                     [] [] [] [] sample_match)
              [[("brand:wikidata", "Q5"); ("brand:wikipedia", "en:Old")]] 0
              [("brand:wikidata", "Q5"); ("brand:wikipedia", "en:Old")]
              eq_refl)
    as (x & changed & E & H1 & _ & Hc).
  - apply NoDup_ListNoDup. repeat constructor; simpl; intuition discriminate.
  - exists x. destruct (H1 "brand:wikidata") as [K1 K2];
      [simpl; tauto|vm_compute; reflexivity|].
    assert (changed = true) as ->.
    { apply Hc. exists "brand:wikidata", (mkReplacement (Some (Some "Q6")) (Some None)).
      repeat split. simpl. tauto. }
    split; [exact E|]. split; [exact K1|exact K2].
Defined.

End ReplaceFacts.

(** ** The indices [loadNsiData] builds *)

Module BuiltFacts.
Import Chars Regex JS NSI Spec SpecMore StoreFacts TupleFacts GatherFacts
       BuildFacts.

Section alist_more.
Context {K V : Type} `{EqDecision K}.
Implicit Types (m : list (K * V)) (k : K) (v : V).

Lemma In_akeys_aset m k k' v :
  In k' (akeys (aset k v m)) <-> k' = k \/ In k' (akeys m).
Proof.
  induction m as [|[k0 v0] m IH]; simpl.
  - intuition.
  - case_decide; subst; simpl.
    + intuition.
    + rewrite IH. intuition.
Qed.

Lemma akeys_aget_Some m k : In k (akeys m) <-> exists v, aget k m = Some v.
Proof.
  split; [apply aget_is_Some|].
  intros (v & H). apply aget_Some_In in H. now apply (in_map fst) in H.
Qed.
End alist_more.

Section built.
Context {Loc : Type}.
Variable Matcher : Data -> Res (@MatchFn Loc).

(** A turn writes the entry of its key into [kvt]. *)
Lemma indexCategory_kvt (nsi nsi0 : @Nsi Loc) tkv :
  indexCategory nsi tkv = Ok nsi0 ->
  kvt nsi0 =
  aset (key_part tkv)
       (aset (value_part tkv) (tree_part tkv)
             (default [] (aget (key_part tkv) (kvt nsi))))
       (kvt nsi).
Proof.
  intros E.
  apply indexCategory_Ok in E as (category & _ & [(tree & _ & ->)|(_ & _ & _ & ->)]);
    reflexivity.
Qed.

(** A property of the keys handled so far and the state, kept by every
    turn, holds of all keys at the end. *)
Lemma forEach_tkv_inv (I : list string -> @Nsi Loc -> Prop) :
  (forall done nsi1 nsi2 tkv,
     I done nsi1 -> indexCategory nsi1 tkv = Ok nsi2 -> I (done ++ [tkv]) nsi2) ->
  forall tkvs done nsi nsi0,
    forEach_tkv nsi tkvs = Ok nsi0 -> I done nsi -> I (done ++ tkvs) nsi0.
Proof.
  intros Hstep. induction tkvs as [|tkv rest IH]; intros done nsi nsi0; simpl.
  - intros [= <-]. now rewrite app_nil_r.
  - destruct (indexCategory nsi tkv) as [nsi1|] eqn:E1; simpl; [|discriminate].
    intros E HI. change (tkv :: rest) with ([tkv] ++ rest). rewrite app_assoc.
    apply (IH _ nsi1); [assumption|]. eapply Hstep; eauto.
Qed.

Lemma kvt_get_step (kvt : KVT) k0 v0 t0 k v :
  kvt_get (aset k0 (aset v0 t0 (default [] (aget k0 kvt))) kvt) k v =
  if decide (k = k0 /\ v = v0) then Some t0 else kvt_get kvt k v.
Proof.
  unfold kvt_get. rewrite aget_aset.
  destruct (decide (k = k0)) as [->|Hk].
  - rewrite aget_aset. destruct (decide (v = v0)) as [->|Hv].
    + now rewrite decide_True.
    + rewrite decide_False by tauto. now destruct (aget k0 kvt).
  - now rewrite decide_False by tauto.
Qed.

(** X10.  The index [kvt] of a completed build.  Its keys are exactly the
    second parts of the keys of the data (a key of one part files under
    [undefined]); an entry [k -> v -> t] comes from a key of the data whose
    parts are [t], [k] and [v], and for every key of the data the entry of
    its second and third part names the tree of the LAST key of the data
    with these two parts.  The build leaves the dissolved items, the
    replacements and the trees as they were downloaded, keeps the keys of
    the data, and the matcher is the one built over the downloaded data. *)
Theorem loadNsiData_kvt vals0 vals1 vals2 vals3 nsi :
  loadNsiData Matcher vals0 vals1 vals2 vals3 = Ok nsi ->
  (forall k, In k (akeys (kvt nsi)) <->
     exists tkv, In tkv (akeys vals0) /\ key_part tkv = k) /\
  (forall k v t, kvt_get (kvt nsi) k v = Some t ->
     exists tkv, In tkv (akeys vals0) /\
       tree_part tkv = t /\ key_part tkv = k /\ value_part tkv = v) /\
  (forall before tkv after,
     akeys vals0 = before ++ tkv :: after ->
     (forall tkv', In tkv' after ->
        ~ (key_part tkv' = key_part tkv /\ value_part tkv' = value_part tkv)) ->
     kvt_get (kvt nsi) (key_part tkv) (value_part tkv) = Some (tree_part tkv)) /\
  dissolved nsi = vals1 /\ replacements nsi = vals2 /\ trees nsi = vals3 /\
  Matcher vals0 = Ok (matcher nsi) /\ akeys (data nsi) = akeys vals0.
Proof.
  unfold loadNsiData. destruct (Matcher vals0) as [matcher0|]; [|discriminate].
  simpl. intros E.
  apply (forEach_tkv_inv (fun done nsi =>
    (forall k, In k (akeys (kvt nsi)) <->
       exists tkv, In tkv done /\ key_part tkv = k) /\
    (forall k v t, kvt_get (kvt nsi) k v = Some t ->
       exists tkv, In tkv done /\
         tree_part tkv = t /\ key_part tkv = k /\ value_part tkv = v) /\
    (forall before tkv after,
       done = before ++ tkv :: after ->
       (forall tkv', In tkv' after ->
          ~ (key_part tkv' = key_part tkv /\ value_part tkv' = value_part tkv)) ->
       kvt_get (kvt nsi) (key_part tkv) (value_part tkv) = Some (tree_part tkv)) /\
    dissolved nsi = vals1 /\ replacements nsi = vals2 /\ trees nsi = vals3 /\
    Ok matcher0 = Ok (matcher nsi) /\ akeys (data nsi) = akeys vals0))
    with (done := []) in E.
  - exact E.
  - clear. intros done nsi1 nsi2 tkv (Hk & Hs & Hl & Hd & Hr & Ht & Hm & Hdata) E.
    pose proof (indexCategory_kvt _ _ _ E) as Ekvt.
    destruct (indexCategory_frame _ _ _ E) as (Fd & Fr & Ft & Fm & Fdata).
    rewrite Ekvt, Fd, Fr, Ft, Fm, Fdata. clear E Ekvt Fd Fr Ft Fm Fdata.
    split; [|split; [|split]].
    + intros k. rewrite In_akeys_aset, Hk. split.
      * intros [->|(tkv' & Hin & Hp)].
        -- exists tkv. split; [apply in_or_app; right; now left|reflexivity].
        -- exists tkv'. split; [apply in_or_app; now left|assumption].
      * intros (tkv' & Hin & Hp). apply in_app_or in Hin as [Hin|[<-|[]]].
        -- right. eauto.
        -- now left.
    + intros k v t. rewrite kvt_get_step.
      destruct (decide (k = key_part tkv /\ v = value_part tkv)) as [[-> ->]|_].
      * intros [= <-]. exists tkv. split; [apply in_or_app; right; now left|auto].
      * intros H. destruct (Hs k v t H) as (tkv' & Hin & H').
        exists tkv'. split; [apply in_or_app; now left|assumption].
    + intros before tkv0 after Hdec Hlast. rewrite kvt_get_step.
      destruct after as [|a after _] using rev_ind.
      * apply (f_equal (@rev string)) in Hdec.
        rewrite !rev_app_distr in Hdec. simpl in Hdec.
        injection Hdec as <- _. now rewrite decide_True.
      * rewrite app_comm_cons, app_assoc in Hdec.
        apply app_inj_tail in Hdec as [-> <-].
        rewrite decide_False.
        -- apply (Hl before tkv0 after eq_refl).
           intros tkv' Hin. apply Hlast. apply in_or_app. now left.
        -- intros [H1 H2]. apply (Hlast tkv); [apply in_or_app; right; now left|].
           split; congruence.
    + repeat split; assumption.
  - simpl. split; [|split; [|split]].
    + intros k. split; [intros []|intros (? & [] & _)].
    + intros k v t [=].
    + intros before tkv after Hdec. now destruct before.
    + auto.
Qed.

Lemma cacheItem_keys mainTag items : forall c id,
  In id (akeys c.1) \/ (exists item, In item items /\ item_id item = id) ->
  In id (akeys (fold_left (cacheItem mainTag) items c).1).
Proof.
  induction items as [|item0 items IH]; intros c id; simpl.
  - intros [H|(? & [] & _)]. exact H.
  - intros H. apply IH. unfold cacheItem. simpl.
    rewrite In_akeys_aset.
    destruct H as [H|(item & [<-|Hin] & <-)]; eauto.
Qed.

Lemma cacheItem_qids mainTag (P : string -> string -> Prop) items : forall c,
  (forall key qid, aget key c.2 = Some qid -> P key qid) ->
  (forall item wd, In item items ->
     aget mainTag (item_tags item) = Some wd -> wd <> EmptyString ->
     P wd wd /\
     forall wp, aget (replace_first "wikidata" "wikipedia" mainTag) (item_tags item)
                = Some wp -> P wp wd) ->
  forall key qid,
    aget key (fold_left (cacheItem mainTag) items c).2 = Some qid -> P key qid.
Proof.
  induction items as [|item0 items IH]; intros c Hc Hitems key qid; simpl; [apply Hc|].
  apply IH; [|intros; eapply Hitems; eauto; now right].
  intros key' qid'. unfold cacheItem. simpl.
  destruct (truthy (aget mainTag (item_tags item0))) eqn:Ewd; simpl.
  2:{ rewrite andb_false_r. apply Hc. }
  apply truthy_Some in Ewd as (wd & Ewd & Hne). rewrite Ewd. simpl.
  destruct (Hitems item0 wd (or_introl eq_refl) Ewd Hne) as [Pwd Pwp].
  assert (H1 : forall key qid, aget key (aset wd wd c.2) = Some qid -> P key qid).
  { intros k q. rewrite aget_aset.
    destruct (decide (k = wd)) as [->|_]; [now intros [= <-]|apply Hc]. }
  rewrite andb_true_r.
  destruct (truthy (aget _ (item_tags item0))) eqn:Ewp; [|apply H1].
  apply truthy_Some in Ewp as (wp & Ewp & _). rewrite Ewp. simpl.
  rewrite aget_aset.
  destruct (decide (key' = wp)) as [->|_]; [|apply H1].
  intros [= <-]. now apply Pwp.
Qed.

Lemma same_items_In (c c0 : Category) item :
  same_items c c0 -> In item (default [] (items c)) ->
  exists item0, In item0 (default [] (items c0)) /\
    item_id item0 = item_id item /\ item_tags item0 = item_tags item.
Proof.
  unfold same_items. intros E Hin.
  apply (in_map (fun item => (item_id item, item_tags item))) in Hin.
  rewrite E in Hin. apply in_map_iff in Hin as (item0 & [= H1 H2] & Hin0). eauto.
Qed.

(** X11.  The indices [ids] and [qids] of a completed build.  Every item of
    the downloaded data is filed in [ids] under its id, so an id the data
    hold always resolves, to an item with that id.  Every binding of [qids]
    leads to a non-empty value, the main-tag value of an item of the data,
    and is filed under that value or under the value of the item's matching
    [*wikipedia] tag: a cross-reference that resolves always names the main
    tag value of an item. *)
Theorem loadNsiData_ids_qids vals0 vals1 vals2 vals3 nsi :
  loadNsiData Matcher vals0 vals1 vals2 vals3 = Ok nsi ->
  (forall tkv category item,
     aget tkv vals0 = Some category -> In item (default [] (items category)) ->
     exists filed, aget (item_id item) (ids nsi) = Some filed /\
       item_id filed = item_id item) /\
  (forall key qid, aget key (qids nsi) = Some qid -> qid_source vals0 vals3 key qid).
Proof.
  intros E. pose proof (loadNsiData_ids Matcher _ _ _ _ _ E) as Hids.
  unfold loadNsiData in E. destruct (Matcher vals0) as [matcher0|]; [|discriminate].
  simpl in E.
  apply (forEach_tkv_inv (fun done nsi =>
    trees nsi = vals3 /\
    (forall tkv c, aget tkv (data nsi) = Some c ->
       exists c0, aget tkv vals0 = Some c0 /\ same_items c c0) /\
    (forall tkv c0, aget tkv vals0 = Some c0 ->
       exists c, aget tkv (data nsi) = Some c /\ same_items c c0) /\
    (forall tkv category item, In tkv done ->
       aget tkv vals0 = Some category -> In item (default [] (items category)) ->
       In (item_id item) (akeys (ids nsi))) /\
    (forall key qid, aget key (qids nsi) = Some qid -> qid_source vals0 vals3 key qid)))
    with (done := []) in E.
  - destruct E as (_ & _ & _ & Hfiled & Hq). split; [|exact Hq].
    intros tkv category item Hc Hin.
    assert (Hk : In (item_id item) (akeys (ids nsi))).
    { apply (Hfiled tkv category item); [|assumption..].
      simpl. apply akeys_aget_Some. eauto. }
    apply akeys_aget_Some in Hk as (filed & Hf). exists filed.
    split; [assumption|]. now apply Hids in Hf.
  - clear. intros done nsi1 nsi2 tkv (Ht & Hd & Hd' & Hfiled & Hq) E.
    apply indexCategory_Ok in E
      as (category & Ec & [(tree & Et & ->)|(_ & _ & Hnone & ->)]); simpl.
    2:{ split; [assumption|]. split; [assumption|]. split; [assumption|].
        split; [|assumption].
        intros tkv' category' item Hin Hc' Hitem.
        apply in_app_or in Hin as [Hin|[<-|[]]]; [eauto|].
        destruct (Hd tkv category Ec) as (c0 & Ec0 & Hsame).
        assert (category' = c0) by congruence. subst category'.
        symmetry in Hsame.
        destruct (same_items_In c0 category item Hsame Hitem) as (item' & Hin' & _).
        rewrite Hnone in Hin'. destruct Hin'. }
    destruct (Hd tkv category Ec) as (c0 & Ec0 & Hsame).
    set (items0 := map (annotate tkv (mainTag tree)) (default [] (items category))).
    assert (Hann : same_items (mkCategory (Some items0) (properties category)) category).
    { unfold same_items, items0. simpl. rewrite map_map. reflexivity. }
    split; [assumption|]. split; [|split; [|split]].
    + intros tkv' c. destruct (items category) eqn:Ei; [|apply Hd].
      rewrite aget_aset. destruct (decide (tkv' = tkv)) as [->|_]; [|apply Hd].
      intros [= <-]. exists c0. split; [assumption|].
      unfold same_items in *. now rewrite Hann.
    + intros tkv' c0' Hc0'. destruct (items category) eqn:Ei; [|now apply Hd'].
      rewrite aget_aset. destruct (decide (tkv' = tkv)) as [->|_]; [|now apply Hd'].
      eexists. split; [reflexivity|].
      assert (c0' = c0) by congruence. subst c0'.
      unfold same_items in *. now rewrite Hann.
    + intros tkv' category' item Hin Hc' Hitem.
      apply cacheItem_keys. simpl.
      apply in_app_or in Hin as [Hin|[<-|[]]]; [left; eauto|].
      right. assert (category' = c0) by congruence. subst category'.
      symmetry in Hsame.
      destruct (same_items_In c0 category item Hsame Hitem) as (item' & Hin' & Hid & _).
      exists (annotate tkv (mainTag tree) item'). split; [|exact Hid].
      unfold items0. now apply in_map.
    + apply cacheItem_qids; [exact Hq|].
      intros item wd Hin Hwd Hne. unfold items0 in Hin.
      apply in_map_iff in Hin as (raw & <- & Hraw). simpl in *.
      destruct (same_items_In category c0 raw Hsame Hraw) as (item0 & Hin0 & _ & Htags).
      split.
      * split; [assumption|]. exists tkv, c0, item0, tree.
        rewrite Htags, <- Ht. repeat split; auto.
      * intros wp Hwp. split; [assumption|]. exists tkv, c0, item0, tree.
        rewrite Htags, <- Ht. repeat split; auto.
  - simpl. split; [reflexivity|]. split; [|split; [|split]].
    + intros tkv c Hc. exists c. split; [assumption|reflexivity].
    + intros tkv c Hc. exists c. split; [assumption|reflexivity].
    + intros ? ? ? [].
    + intros ? ? [=].
Qed.

End built.

Lemma loadNsiData_ids_qids_witness :
  qid_source sample_data sample_trees "Q1" "Q1".
Proof.
  destruct (loadNsiData_ids_qids (fun _ => Ok sample_match) sample_data [] []
              sample_trees sample_nsi eq_refl) as [_ H].
  exact (H "Q1" "Q1" eq_refl).
Defined.

Lemma loadNsiData_kvt_witness :
  kvt_get (kvt sample_nsi) (Some "shop") (Some "convenience") = Some "brands".
Proof.
  destruct (loadNsiData_kvt (fun _ => Ok sample_match) sample_data [] [] sample_trees
              sample_nsi eq_refl) as (_ & _ & H & _).
  exact (H [] "brands/shop/convenience" [] eq_refl (fun _ F => match F with end)).
Defined.

End BuiltFacts.

(** ** From [init] to a usable cache *)

Module LifecycleFacts.
Import Chars Regex JS NSI Spec SpecMore Lifecycle StoreFacts TupleFacts
       GatherFacts PreloadFacts UpgradeFacts BuildFacts GenericFacts MergeFacts.

Section lifecycle.
Context {Loc : Type}.
Variable w : @Outside Loc.

(** The turn of the build on the cache and the turn as a function agree;
    a turn that throws has written its entry of [kvt]. *)
Lemma indexCategory_st_spec (nsi : @Nsi Loc) tkv :
  match indexCategory nsi tkv with
  | Ok nsi0 => indexCategory_st nsi tkv = (nsi0, Ok tt)
  | Throw e =>
      exists partial, indexCategory_st nsi tkv = (partial, Throw e) /\
        kvt partial <> [] /\
        dissolved partial = dissolved nsi /\
        replacements partial = replacements nsi /\ trees partial = trees nsi /\
        matcher partial = matcher nsi
  end.
Proof.
  unfold indexCategory, indexCategory_st.
  assert (Hne : forall (k : option string) vmap (m : KVT), aset k vmap m <> []).
  { intros k vmap [|[k0 v0] m]; simpl; [discriminate|]. now case_decide. }
  destruct (tree_mainTag (trees nsi) (hd EmptyString (split "/" 3 tkv)))
    as [[mainTag|]|e]; simpl.
  - destruct (aget tkv (data nsi)) as [category|]; simpl; [reflexivity|].
    eexists. split; [reflexivity|]. simpl. repeat split; auto.
  - destruct (aget tkv (data nsi)) as [category|]; simpl.
    + destruct (default [] (items category)) as [|item rest]; [reflexivity|].
      eexists. split; [reflexivity|]. simpl. repeat split; auto.
    + eexists. split; [reflexivity|]. simpl. repeat split; auto.
  - eexists. split; [reflexivity|]. simpl. repeat split; auto.
Qed.

Lemma forEach_tkv_st_spec tkvs : forall nsi : @Nsi Loc,
  match forEach_tkv nsi tkvs with
  | Ok nsi0 => forEach_tkv_st nsi tkvs = (nsi0, Ok tt)
  | Throw e =>
      exists partial, forEach_tkv_st nsi tkvs = (partial, Throw e) /\
        kvt partial <> [] /\ dissolved partial = dissolved nsi /\
        replacements partial = replacements nsi /\ trees partial = trees nsi /\
        matcher partial = matcher nsi
  end.
Proof.
  induction tkvs as [|tkv rest IH]; intros nsi; simpl; [reflexivity|].
  pose proof (indexCategory_st_spec nsi tkv) as Hs.
  destruct (indexCategory nsi tkv) as [nsi1|e] eqn:E1; simpl.
  - rewrite Hs. specialize (IH nsi1).
    apply indexCategory_frame in E1 as (F1 & F2 & F3 & F4 & _).
    destruct (forEach_tkv nsi1 rest) as [nsi0|e]; [exact IH|].
    destruct IH as (partial & -> & Hk & Hd & Hr & Ht & Hm).
    exists partial. split; [reflexivity|]. repeat split; congruence.
  - destruct Hs as (partial & -> & Hk & Hd & Hr & Ht & Hm).
    exists partial. repeat split; auto.
Qed.

(** The callback of [loadNsiData] and the build as a function agree. *)
Lemma loadNsiData_then_spec vals0 vals1 vals2 vals3 (s : @Service Loc) :
  match loadNsiData (Matcher w) vals0 vals1 vals2 vals3 with
  | Ok nsi =>
      loadNsiData_then w vals0 vals1 vals2 vals3 s
      = (mkService (_nsiStatus s) (Indexed nsi) (fileMap s), Ok tt)
  | Throw e =>
      (Matcher w vals0 = Throw e /\
       loadNsiData_then w vals0 vals1 vals2 vals3 s
       = (mkService (_nsiStatus s) (Unindexed vals0 vals1 vals2 vals3) (fileMap s),
          Throw e)) \/
      (exists built partial,
         Matcher w vals0 = Ok built /\
         loadNsiData_then w vals0 vals1 vals2 vals3 s
         = (mkService (_nsiStatus s) (Indexed partial) (fileMap s), Throw e) /\
         matcher partial = built /\ kvt partial <> [] /\
         dissolved partial = vals1 /\ replacements partial = vals2 /\
         trees partial = vals3)
  end.
Proof.
  unfold loadNsiData, loadNsiData_then.
  destruct (Matcher w vals0) as [built|e0]; simpl; [|left; auto].
  pose proof (forEach_tkv_st_spec (akeys vals0)
                (mkNsi vals0 vals1 vals2 vals3 [] [] [] built)) as Hs.
  destruct (forEach_tkv _ (akeys vals0)) as [nsi|e].
  - now rewrite Hs.
  - destruct Hs as (partial & -> & Hk & Hd & Hr & Ht & Hm). right.
    exists built, partial. simpl. repeat split; auto.
Qed.

(** The steps before the data are loaded leave the module as it is. *)
Lemma prelude_cases (s : @Service Loc) :
  exists seen p,
    then_ (then_ (then_ (resolved (ensureLoaded w))
                        (fun _ => loadNsiPresets w))
                 (fun _ => delay))
          (fun _ => resolved (mergeLocationSets w)) s
    = (seen, s, p) /\
    Forall (eq s) seen /\
    (p = Fulfilled tt <-> ready w).
Proof.
  unfold ready, then_, resolved, loadNsiPresets, delay, callback, all2.
  destruct (ensureLoaded w) as [|[]|], (nsi_presets w) as [|[]|],
    (nsi_features w) as [|[]|], (merge w) as [[]|e],
    (mergeLocationSets w) as [|[]|];
    eexists _, _; (split; [reflexivity|]); (split; [repeat constructor|]);
    split; intros H;
    try discriminate H; try reflexivity;
    try (destruct H as (H1 & H2 & H3 & H4 & H5); discriminate);
    repeat split.
Qed.

(** The files of the build, all four or not. *)
Lemma files_cases :
  (exists vals0 vals1 vals2 vals3,
     fetched w vals0 vals1 vals2 vals3 /\
     all2 (all2 (nsi_data w) (nsi_dissolved w))
          (all2 (nsi_replacements w) (nsi_trees w))
     = Fulfilled ((vals0, vals1), (vals2, vals3))) \/
  ((forall vals0 vals1 vals2 vals3, ~ fetched w vals0 vals1 vals2 vals3) /\
   (all2 (all2 (nsi_data w) (nsi_dissolved w))
         (all2 (nsi_replacements w) (nsi_trees w)) = Pending \/
    all2 (all2 (nsi_data w) (nsi_dissolved w))
         (all2 (nsi_replacements w) (nsi_trees w)) = Rejected)).
Proof.
  unfold fetched.
  destruct (nsi_data w) as [|vals0|], (nsi_dissolved w) as [|vals1|],
    (nsi_replacements w) as [|vals2|], (nsi_trees w) as [|vals3|]; simpl;
    try (right; split; [intros ? ? ? ? (? & ? & ? & ?); discriminate|auto]; fail).
  left. exists vals0, vals1, vals2, vals3. auto.
Qed.

Lemma fetched_unique v0 v1 v2 v3 u0 u1 u2 u3 :
  fetched w v0 v1 v2 v3 -> fetched w u0 u1 u2 u3 ->
  u0 = v0 /\ u1 = v1 /\ u2 = v2 /\ u3 = v3.
Proof.
  intros (F0 & F1 & F2 & F3) (G0 & G1 & G2 & G3). repeat split; congruence.
Qed.

(** Where a run of [init] goes.  When something before the callback of
    [loadNsiData] does not go through, the module stays as
    [setNsiSources] left it, but for the status ['failed'] after a
    rejection.  Otherwise the callback runs, and the state it leaves is
    there to be seen before the status is written. *)
Lemma init_cases (s : @Service Loc) :
  let s1 := setNsiSources s in
  (~ (ready w /\ exists v0 v1 v2 v3, fetched w v0 v1 v2 v3) /\
   (at_rest (init w s) = s1 \/
    at_rest (init w s) = mkService failed (_nsi s) (assign (fileMap s) sources)) /\
   Forall (eq s1) (init w s).1) \/
  (ready w /\ exists v0 v1 v2 v3,
     fetched w v0 v1 v2 v3 /\
     let r := loadNsiData_then w v0 v1 v2 v3 s1 in
     at_rest (init w s)
     = mkService (match r.2 with Ok _ => ok | Throw _ => failed end)
                 (_nsi r.1) (fileMap r.1) /\
     Forall (fun m => m = s1 \/ m = r.1) (init w s).1 /\
     In r.1 (init w s).1).
Proof.
  cbv zeta. unfold init, at_rest. cbv zeta.
  destruct (prelude_cases (setNsiSources s)) as (seen & p & Ep & Hseen & Hp).
  destruct (catch _ _ (setNsiSources s)) as [[seen' s'] r'] eqn:Erun.
  unfold catch in Erun. unfold then_ at 1 2 in Erun. rewrite Ep in Erun.
  cbn [fst snd].
  destruct p as [|[]|].
  - injection Erun as <- <- <-.
    left. split; [intros [Hr _]; apply Hp in Hr; discriminate|].
    split; [now left|assumption].
  - destruct files_cases as [(v0 & v1 & v2 & v3 & Hf & Ef)|[Hnf Ef]].
    + right. split; [now apply Hp|]. exists v0, v1, v2, v3.
      split; [assumption|].
      unfold loadNsiData_async in Erun. rewrite Ef in Erun.
      unfold then_, resolved, callback in Erun. cbn [fst snd] in Erun.
      assert (Hall : Forall (fun m => m = setNsiSources s \/
                        m = (loadNsiData_then w v0 v1 v2 v3 (setNsiSources s)).1) seen).
      { eapply Forall_impl; [exact Hseen|]. intros ? <-. now left. }
      destruct (loadNsiData_then w v0 v1 v2 v3 (setNsiSources s)) as [s2 [[]|e]];
        simpl in *; injection Erun as <- <- <-;
        (split; [reflexivity|]);
        (split; [|apply in_or_app; right; simpl; auto]);
        rewrite !Forall_app;
        (split; [split; [assumption|]|]);
        repeat (apply List.Forall_cons; [solve [auto]|]); apply List.Forall_nil.
    + left. split; [intros (_ & v0 & v1 & v2 & v3 & Hf); now apply (Hnf v0 v1 v2 v3)|].
      unfold loadNsiData_async in Erun.
      destruct Ef as [Ef|Ef]; rewrite Ef in Erun; unfold then_, resolved in Erun;
        simpl in Erun; injection Erun as <- <- <-.
      * split; [now left|]. rewrite Forall_app. split; [assumption|].
        repeat constructor.
      * split; [now right|]. rewrite !Forall_app. split; [|repeat constructor].
        split; [assumption|]. repeat constructor.
  - simpl in Erun. injection Erun as <- <- <-.
    left. split; [intros [Hr _]; apply Hp in Hr; discriminate|].
    split; [now right|]. rewrite Forall_app. split; [assumption|].
    repeat constructor.
Qed.

Lemma isGenericName_total (matchTags : Tags -> string -> Preset) (nsi : @Nsi Loc) tags :
  exists b, _isGenericName matchTags (Loaded nsi) tags = Ok b.
Proof.
  unfold _isGenericName. destruct (negb (truthy (aget "name" tags))); [eauto|].
  destruct (gatherKVs_total matchTags nsi tags) as (kvs & ->). simpl.
  destruct (_ && _); [eauto|].
  destruct (generic_loop_loaded nsi (gatherTuples kvs (mkPrio [key_of (aget "name" tags)] [])))
    as (b & E & _).
  eauto.
Qed.

(** A run of [init] on the module as it is loaded: the moments of the run
    and what the callback of [loadNsiData] left, when it ran. *)
Lemma init_loaded_cases (files : Tags) :
  let s1 := mkService loading (@Empty Loc) (assign files sources) in
  let run := init w (loaded_module files) in
  (~ (ready w /\ exists v0 v1 v2 v3, fetched w v0 v1 v2 v3) /\
   (at_rest run = s1 \/ at_rest run = mkService failed Empty (assign files sources)) /\
   Forall (eq s1) run.1) \/
  (ready w /\ exists v0 v1 v2 v3 c r,
     fetched w v0 v1 v2 v3 /\
     loadNsiData_then w v0 v1 v2 v3 s1
     = (mkService loading c (assign files sources), r) /\
     at_rest run
     = mkService (match r with Ok _ => ok | Throw _ => failed end) c
                 (assign files sources) /\
     Forall (fun m => m = s1 \/ m = mkService loading c (assign files sources)) run.1 /\
     In (mkService loading c (assign files sources)) run.1).
Proof.
  cbv zeta.
  destruct (init_cases (loaded_module files))
    as [(Hn & Hrest & Hseen)|(Hr & v0 & v1 & v2 & v3 & Hf & Hrest & Hseen & Hin)].
  - left. auto.
  - right. split; [assumption|]. exists v0, v1, v2, v3.
    cbv zeta in Hrest, Hseen, Hin.
    assert (E : exists c r,
              loadNsiData_then w v0 v1 v2 v3 (setNsiSources (loaded_module files))
              = (mkService loading c (assign files sources), r)).
    { unfold loadNsiData_then. destruct (Matcher w v0); simpl; eauto. }
    destruct E as (c & r & E). exists c, r.
    rewrite E in Hrest, Hseen, Hin. auto.
Qed.

(** X12.  What [status] tells about the cache, for a module that [init]
    found as it is loaded, at every moment another job can look at it.
    When the run is over the status is ['ok'] exactly when every step
    before the data went through, the four data files arrived and the
    build of the indices completed.  Whenever the status is ['ok'] the
    cache is the index that build returns.  The status ['loading'] does not
    tell that the cache is still [{}]: after a build that completed there
    is a moment at which the status is ['loading'] and the cache is the
    built index already, for the status is written in a later job.  The
    cache is [{}] at every moment of a run in which not everything
    arrived, and the status is ['loading'] at every moment but the last. *)
Theorem init_status_and_cache (files : Tags) :
  let run := init w (loaded_module files) in
  (status (at_rest run) = ok <->
   ready w /\ exists vals0 vals1 vals2 vals3 nsi,
     fetched w vals0 vals1 vals2 vals3 /\
     loadNsiData (Matcher w) vals0 vals1 vals2 vals3 = Ok nsi) /\
  (forall m, observable run m -> status m = ok ->
     m = at_rest run /\
     exists vals0 vals1 vals2 vals3 nsi,
       fetched w vals0 vals1 vals2 vals3 /\
       loadNsiData (Matcher w) vals0 vals1 vals2 vals3 = Ok nsi /\
       cache m = Indexed nsi) /\
  (forall vals0 vals1 vals2 vals3 nsi,
     ready w -> fetched w vals0 vals1 vals2 vals3 ->
     loadNsiData (Matcher w) vals0 vals1 vals2 vals3 = Ok nsi ->
     cache (at_rest run) = Indexed nsi /\
     exists m, observable run m /\ status m = loading /\ cache m = Indexed nsi) /\
  (forall m, observable run m ->
     cache m = Empty \/
     (ready w /\ exists vals0 vals1 vals2 vals3, fetched w vals0 vals1 vals2 vals3)) /\
  (forall m, observable run m -> status m = loading \/ m = at_rest run).
Proof.
  cbv zeta. unfold observable.
  destruct (init_loaded_cases files)
    as [(Hn & Hrest & Hseen)
       |(Hr & v0 & v1 & v2 & v3 & c & r & Hf & E & Hrest & Hseen & Hin)];
    cbv zeta in *.
  - rewrite Forall_forall in Hseen.
    assert (Hobs : forall m,
              In m ((init w (loaded_module files)).1 ++ [(init w (loaded_module files)).2]) ->
              cache m = Empty /\ status m <> ok /\
              (status m = loading \/ m = at_rest (init w (loaded_module files)))).
    { intros m Hm. apply in_app_or in Hm as [Hm|[<-|[]]].
      - apply list_elem_of_In, Hseen in Hm as <-. simpl. repeat split; auto; discriminate.
      - fold (at_rest (init w (loaded_module files))).
        destruct Hrest as [-> | ->]; simpl; repeat split; auto; discriminate. }
    split; [|split; [|split; [|split]]].
    + split.
      * intros Hok. destruct Hrest as [E|E]; rewrite E in Hok; discriminate.
      * intros (Hr & v0 & v1 & v2 & v3 & nsi & Hf & _). exfalso. apply Hn. eauto 10.
    + intros m Hm Hok. now apply Hobs in Hm as (_ & Hno & _).
    + intros v0 v1 v2 v3 nsi Hr Hf _. exfalso. apply Hn. eauto 10.
    + intros m Hm. left. now apply Hobs in Hm.
    + intros m Hm. now apply Hobs in Hm.
  - rewrite Forall_forall in Hseen.
    assert (Huniq : forall u0 u1 u2 u3, fetched w u0 u1 u2 u3 ->
              u0 = v0 /\ u1 = v1 /\ u2 = v2 /\ u3 = v3).
    { intros. now apply fetched_unique. }
    pose proof (loadNsiData_then_spec v0 v1 v2 v3
                  (mkService loading Empty (assign files sources))) as Hs.
    assert (Hobs : forall m,
              In m ((init w (loaded_module files)).1 ++ [(init w (loaded_module files)).2]) ->
              m = mkService loading Empty (assign files sources) \/
              m = mkService loading c (assign files sources) \/
              m = at_rest (init w (loaded_module files))).
    { intros m Hm. apply in_app_or in Hm as [Hm|[<-|[]]]; [|auto].
      apply list_elem_of_In, Hseen in Hm as [-> | ->]; auto. }
    destruct (loadNsiData (Matcher w) v0 v1 v2 v3) as [nsi|e] eqn:El.
    + rewrite E in Hs. injection Hs as -> ->.
      split; [|split; [|split; [|split]]].
      * rewrite Hrest. simpl. split; [|reflexivity]. intros _.
        split; [assumption|]. exists v0, v1, v2, v3, nsi. auto.
      * intros m Hm Hok.
        apply Hobs in Hm as [-> |[-> | ->]]; try discriminate Hok.
        split; [reflexivity|]. exists v0, v1, v2, v3, nsi.
        rewrite Hrest. auto.
      * intros u0 u1 u2 u3 nsi' _ Hf' El'.
        destruct (Huniq _ _ _ _ Hf') as (-> & -> & -> & ->).
        rewrite El in El'. injection El' as <-.
        split; [now rewrite Hrest|].
        exists (mkService loading (Indexed nsi) (assign files sources)).
        split; [apply in_or_app; now left|]. auto.
      * intros m _. right. split; [assumption|]. eauto 10.
      * intros m Hm. apply Hobs in Hm as [-> |[-> | ->]]; auto.
    + assert (Hfailed : r <> Ok tt).
      { destruct Hs as [(_ & Hs)|(built & partial & _ & Hs & _)];
          rewrite E in Hs; injection Hs as _ ->; discriminate. }
      assert (Hst : status (at_rest (init w (loaded_module files))) = failed).
      { rewrite Hrest. destruct r as [[]|]; [now destruct Hfailed|reflexivity]. }
      split; [|split; [|split; [|split]]].
      * split; [intros Hok; rewrite Hst in Hok; discriminate|].
        intros (_ & u0 & u1 & u2 & u3 & nsi' & Hf' & El').
        destruct (Huniq _ _ _ _ Hf') as (-> & -> & -> & ->). congruence.
      * intros m Hm Hok.
        apply Hobs in Hm as [-> |[-> | ->]]; try discriminate Hok.
        rewrite Hst in Hok. discriminate.
      * intros u0 u1 u2 u3 nsi' _ Hf' El'.
        destruct (Huniq _ _ _ _ Hf') as (-> & -> & -> & ->). congruence.
      * intros m _. right. split; [assumption|]. eauto 10.
      * intros m Hm. apply Hobs in Hm as [-> |[-> | ->]]; auto.
Qed.

(** X13.  A build that fails leaves a cache that is no longer [{}].  When
    everything arrived and the build throws, the status ends as
    ['failed'].  When it is one of the calls that build the matcher that
    throws, the cache is the object assigned before them, with the
    downloaded values and empty indices.  When the matcher is built and
    the loop over the data throws, it throws a [TypeError], and the cache
    holds the matcher, the downloaded dissolved items, replacements and
    trees and the part of [kvt] written up to the throw, and
    [_isGenericName] runs on it without throwing. *)
Theorem failed_build_leaves_cache (matchTags : Tags -> string -> Preset) (files : Tags)
    vals0 vals1 vals2 vals3 e :
  ready w -> fetched w vals0 vals1 vals2 vals3 ->
  loadNsiData (Matcher w) vals0 vals1 vals2 vals3 = Throw e ->
  let run := init w (loaded_module files) in
  status (at_rest run) = failed /\
  cache (at_rest run) <> Empty /\
  ((Matcher w vals0 = Throw e /\
    cache (at_rest run) = Unindexed vals0 vals1 vals2 vals3) \/
   (exists built partial,
      Matcher w vals0 = Ok built /\ e = TypeError /\
      cache (at_rest run) = Indexed partial /\
      matcher partial = built /\ kvt partial <> [] /\
      dissolved partial = vals1 /\ replacements partial = vals2 /\
      trees partial = vals3 /\
      forall tags, exists b, _isGenericName matchTags (Loaded partial) tags = Ok b)).
Proof.
  intros Hr Hf El. cbv zeta.
  destruct (init_loaded_cases files)
    as [(Hn & _)|(_ & v0 & v1 & v2 & v3 & c & r & Hf' & E & Hrest & _)];
    cbv zeta in *.
  { exfalso. apply Hn. eauto 10. }
  destruct (fetched_unique _ _ _ _ _ _ _ _ Hf Hf') as (-> & -> & -> & ->).
  pose proof (loadNsiData_then_spec vals0 vals1 vals2 vals3
                (mkService loading Empty (assign files sources))) as Hs.
  rewrite El in Hs. rewrite Hrest. unfold status, cache. simpl.
  destruct Hs as [(Hm & Hs)|(built & partial & Hm & Hs & Hb & Hk & Hd & Hrep & Ht)];
    rewrite E in Hs; injection Hs as -> ->.
  - split; [reflexivity|]. split; [discriminate|]. left. auto.
  - split; [reflexivity|]. split; [discriminate|]. right.
    exists built, partial. repeat split; auto.
    + unfold loadNsiData in El. rewrite Hm in El. simpl in El.
      destruct (forEach_tkv_cases (akeys vals0)
                  (mkNsi vals0 vals1 vals2 vals3 [] [] [] built)) as (_ & Hthrow);
        [auto|]. now apply Hthrow.
    + intros tags. apply isGenericName_total.
Qed.

(** X14.  Whatever becomes of the promises, [init] has written the seven
    sources of the index into the file map, and they stay there at every
    moment of the run: a source that was configured under one of these
    keys is overwritten, and every other entry of the file map is left as
    it was. *)
Theorem init_file_map (s : @Service Loc) (k : string) :
  aget k (fileMap (at_rest (init w s))) =
  match aget k sources with
  | Some url => Some url
  | None => aget k (fileMap s)
  end /\
  forall m, observable (init w s) m ->
    aget k (fileMap m) =
    match aget k sources with
    | Some url => Some url
    | None => aget k (fileMap s)
    end.
Proof.
  assert (Hfm : forall m, observable (init w s) m ->
                  fileMap m = assign (fileMap s) sources).
  { unfold observable. intros m Hm.
    assert (Hthen : forall v0 v1 v2 v3,
              fileMap (loadNsiData_then w v0 v1 v2 v3 (setNsiSources s)).1
              = assign (fileMap s) sources).
    { intros. unfold loadNsiData_then. now destruct (Matcher w v0). }
    destruct (init_cases s)
      as [(_ & Hrest & Hseen)|(_ & v0 & v1 & v2 & v3 & _ & Hrest & Hseen & _)];
      cbv zeta in *; rewrite Forall_forall in Hseen;
      (apply in_app_or in Hm as [Hm|[<-|[]]];
       [apply list_elem_of_In, Hseen in Hm|fold (at_rest (init w s))]).
    - now subst m.
    - destruct Hrest as [-> | ->]; reflexivity.
    - destruct Hm as [-> | ->]; [reflexivity|apply Hthen].
    - rewrite Hrest. simpl. apply Hthen. }
  assert (Hget : aget k (assign (fileMap s) sources) =
                 match aget k sources with
                 | Some url => Some url
                 | None => aget k (fileMap s)
                 end).
  { rewrite aget_assign, aget_rev_NoDup; [reflexivity|].
    apply NoDup_ListNoDup. vm_compute.
    repeat constructor; simpl; intuition discriminate. }
  split.
  - rewrite Hfm; [exact Hget|]. unfold observable, at_rest.
    apply in_or_app. right. now left.
  - intros m Hm. now rewrite (Hfm m Hm).
Qed.

End lifecycle.

Lemma init_status_and_cache_witness :
  let run := init (mkOutside (fun _ => Ok sample_match) (Fulfilled tt) (Fulfilled tt)
                             (Fulfilled tt) (Ok tt) (Fulfilled tt) (Fulfilled sample_data)
                             (Fulfilled []) (Fulfilled []) (Fulfilled sample_trees))
                  (loaded_module []) in
  cache (at_rest run) = Indexed sample_nsi /\
  exists m, observable run m /\ status m = loading /\ cache m = Indexed sample_nsi.
Proof.
  destruct (init_status_and_cache
              (mkOutside (fun _ => Ok sample_match) (Fulfilled tt) (Fulfilled tt)
                         (Fulfilled tt) (Ok tt) (Fulfilled tt) (Fulfilled sample_data)
                         (Fulfilled []) (Fulfilled []) (Fulfilled sample_trees))
              [])
    as (_ & _ & H & _).
  apply (H sample_data [] [] sample_trees sample_nsi); repeat split.
Defined.

Lemma failed_build_leaves_cache_witness :
  status (at_rest (init (mkOutside (fun _ => Ok sample_match) (Fulfilled tt) (Fulfilled tt)
                                   (Fulfilled tt) (Ok tt) (Fulfilled tt)
                                   (Fulfilled sample_data)
                                   (Fulfilled []) (Fulfilled []) (Fulfilled []))
                        (loaded_module [])))
  = failed /\
  cache (at_rest (init (mkOutside (fun _ => Throw OtherError) (Fulfilled tt) (Fulfilled tt)
                                  (Fulfilled tt) (Ok tt) (Fulfilled tt)
                                  (Fulfilled sample_data)
                                  (Fulfilled []) (Fulfilled []) (Fulfilled sample_trees))
                       (loaded_module [])))
  <> @Empty unit.
Proof.
  split.
  - refine (proj1 (failed_build_leaves_cache
                     (mkOutside (fun _ => Ok sample_match) (Fulfilled tt) (Fulfilled tt)
                                (Fulfilled tt) (Ok tt) (Fulfilled tt)
                                (Fulfilled sample_data) (Fulfilled []) (Fulfilled [])
                                (Fulfilled []))
                     no_preset [] sample_data [] [] [] TypeError _ _ _));
      repeat split.
  - refine (proj1 (proj2 (failed_build_leaves_cache
                     (mkOutside (fun _ => Throw OtherError) (Fulfilled tt) (Fulfilled tt)
                                (Fulfilled tt) (Ok tt) (Fulfilled tt)
                                (Fulfilled sample_data) (Fulfilled []) (Fulfilled [])
                                (Fulfilled sample_trees))
                     no_preset [] sample_data [] [] sample_trees OtherError _ _ _)));
      repeat split.
Defined.

Lemma init_file_map_witness :
  let run := init (mkOutside (fun _ => Ok sample_match) (Fulfilled tt) (Fulfilled tt)
                             (Fulfilled tt) (Ok tt) (Fulfilled tt)
                             (Fulfilled sample_data) (Fulfilled []) (Fulfilled [])
                             (Fulfilled sample_trees))
                  (loaded_module [("nsi_trees", "file:trees.json")]) in
  observable run (at_rest run) /\
  aget "nsi_trees" (fileMap (at_rest run))
  = Some "https://raw.githubusercontent.com/osmlab/name-suggestion-index/main/dist/trees.min.json".
Proof.
  cbv zeta.
  assert (Hobs : observable
            (init (mkOutside (fun _ => Ok sample_match) (Fulfilled tt) (Fulfilled tt)
                             (Fulfilled tt) (Ok tt) (Fulfilled tt)
                             (Fulfilled sample_data) (Fulfilled []) (Fulfilled [])
                             (Fulfilled sample_trees))
                  (loaded_module [("nsi_trees", "file:trees.json")]))
            (at_rest
               (init (mkOutside (fun _ => Ok sample_match) (Fulfilled tt) (Fulfilled tt)
                                (Fulfilled tt) (Ok tt) (Fulfilled tt)
                                (Fulfilled sample_data) (Fulfilled []) (Fulfilled [])
                                (Fulfilled sample_trees))
                     (loaded_module [("nsi_trees", "file:trees.json")])))).
  { unfold observable, at_rest. apply in_or_app. right. left. reflexivity. }
  split; [exact Hobs|].
  exact (proj2 (init_file_map _ _ "nsi_trees") _ Hobs).
Defined.

End LifecycleFacts.

(** ** When [upgradeTags] returns [null] *)

Module NullFacts.
Import Chars Regex JS NSI Spec SpecMore StoreFacts TupleFacts GatherFacts
       RegexFacts UpgradeFacts HitFacts LoopFacts ReplaceFacts.

Lemma bind_Ok_inv {A B} (m : M A) (f : A -> M B) (h : Heap) b :
  (bind m f h).2 = Ok b ->
  exists h0 a, m h = (h0, Ok a) /\ (f a h0).2 = Ok b.
Proof.
  unfold bind. destruct (m h) as [h0 [a|e]]; [eauto|discriminate].
Qed.

Section null.
Context {Loc : Type}.
Variable matchTags : Tags -> string -> Preset.
Variable RegExp_i : string -> Res (string -> bool).
Variable nsi : @Nsi Loc.

(** An upgrade returns the working copy or throws. *)
Lemma upgradeTo_not_null (h : Heap) tags newTags foundQID item :
  (upgradeTo RegExp_i (Loaded nsi) tags newTags foundQID item h).2 <> Ok None.
Proof.
  unfold upgradeTo. intros H.
  repeat (apply bind_Ok_inv in H as (? & ? & _ & H); cbv beta zeta in H).
  discriminate H.
Qed.

(** Without a replacement to apply the first loop leaves the copy as it
    is. *)
Lemma fold_replaceWiki_obj_id keys : forall x : Tags,
  existsb (replaceWiki_fires nsi x) keys = false ->
  fold_left (replaceWiki_obj nsi) keys x = x.
Proof.
  induction keys as [|k keys IH]; intros x; simpl; [reflexivity|].
  intros H. apply orb_false_iff in H as [Hk Hrest].
  assert (Hx : replaceWiki_obj nsi x k = x).
  { unfold replaceWiki_fires in Hk. unfold replaceWiki_obj.
    destruct (test wikidataKey k); [|reflexivity]. simpl in Hk.
    destruct (replacement_of nsi x k) as [rep|]; [|reflexivity].
    unfold rewrites in Hk. now destruct (wikidata rep), (wikipedia rep). }
  rewrite Hx. now apply IH.
Qed.

(** X15.  When [upgradeTags] returns [null], for a feature without
    duplicate keys and with the data loaded.  The call returns [null]
    exactly when no tag [*:wikidata] of the feature has a replacement to
    apply AND no tuple of the pairs and names gathered from the feature has
    an actionable item; it then leaves the untouched copy behind.  In every
    other case it returns the working copy or throws: a feature that only
    had a replacement applied comes back changed. *)
Theorem upgradeTags_null_iff (h : Heap) tags (o : Tags) loc :
  h !! tags = Some o -> NoDup (akeys o) ->
  exists kvs,
    gatherKVs matchTags (Loaded nsi) o = Ok kvs /\
    ((_upgradeTags matchTags RegExp_i (Loaded nsi) tags loc h).2 = Ok None <->
     (forall k rep, In k (akeys o) -> test wikidataKey k = true ->
        replacement_of nsi o k = Some rep -> rewrites rep = false) /\
     (forall tuple item, In tuple (gatherTuples kvs (tryNames_of nsi o)) ->
        ~ actionable nsi o loc tuple item)) /\
    ((_upgradeTags matchTags RegExp_i (Loaded nsi) tags loc h).2 = Ok None ->
     _upgradeTags matchTags RegExp_i (Loaded nsi) tags loc h = (h ++ [o], Ok None)).
Proof.
  intros Hh Hnd.
  destruct (upgradeTags_loaded matchTags RegExp_i nsi h tags o loc Hh)
    as (x & changed & kvs & E1 & _ & Ekv & E).
  exists kvs. split; [assumption|].
  rewrite (assign_copy o Hnd) in E1.
  rewrite (replaceWiki_forEach_spec nsi (length h) (akeys o) false (h ++ [o]) o
             (lookup_new _ _) Hnd), insert_new in E1.
  injection E1 as Ex Ec. apply app_inj_tail in Ex as [_ Ex]. simpl in Ec.
  assert (Hfires : changed = false <->
            forall k rep, In k (akeys o) -> test wikidataKey k = true ->
              replacement_of nsi o k = Some rep -> rewrites rep = false).
  { rewrite <- Ec. split.
    - intros Hf k rep Hin Et Er.
      destruct (rewrites rep) eqn:Ew; [|reflexivity].
      assert (Ht : existsb (replaceWiki_fires nsi o) (akeys o) = true).
      { apply existsb_exists. exists k. split; [assumption|].
        unfold replaceWiki_fires. now rewrite Et, Er. }
      congruence.
    - intros Hno. destruct (existsb _ (akeys o)) eqn:Ee; [|reflexivity].
      apply existsb_exists in Ee as (k & Hin & Hf).
      unfold replaceWiki_fires in Hf. apply andb_true_iff in Hf as [Et Hf].
      destruct (replacement_of nsi o k) as [rep|] eqn:Er; [|discriminate].
      rewrite (Hno k rep Hin Et Er) in Hf. discriminate. }
  assert (Hx : changed = false -> x = o).
  { intros Hc. rewrite <- Ex. apply fold_replaceWiki_obj_id. now rewrite Ec. }
  assert (Hempty : forall l : JSSet, (size l =? 0) = true -> l = []).
  { intros [|a l]; [reflexivity|discriminate]. }
  assert (Hearly : forall tuples,
            tuples = [] ->
            ((h ++ [x], @Ok (option nat) (if changed then Some (length h) else None)).2
               = Ok None <->
             changed = false /\
             forall tuple item, In tuple tuples -> ~ actionable nsi o loc tuple item) /\
            ((h ++ [x], @Ok (option nat) (if changed then Some (length h) else None)).2
               = Ok None ->
             (h ++ [x], @Ok (option nat) (if changed then Some (length h) else None))
             = (h ++ [o], Ok None))).
  { intros tuples ->. simpl. destruct changed; split; try discriminate.
    - split; [discriminate|]. intros [? _]. discriminate.
    - split; [|reflexivity]. intros _. split; [reflexivity|]. intros ? ? [].
    - intros _. now rewrite Hx. }
  rewrite E. rewrite <- Hfires.
  destruct ((size (primary kvs) =? 0) && (size (alternate kvs) =? 0)) eqn:Ekvs.
  { apply andb_true_iff in Ekvs as [K1 K2]. apply Hempty in K1, K2.
    apply Hearly. rewrite gatherTuples_flat, K1, K2. simpl.
    induction (primary (tryNames_of nsi o) ++ alternate (tryNames_of nsi o));
      [reflexivity|assumption]. }
  destruct ((size (primary (tryNames_of nsi o)) =? 0)
            && (size (alternate (tryNames_of nsi o)) =? 0)) eqn:Enames.
  { apply andb_true_iff in Enames as [K1 K2]. apply Hempty in K1, K2.
    apply Hearly. now rewrite gatherTuples_flat, K1, K2. }
  set (tuples := gatherTuples kvs (tryNames_of nsi o)).
  assert (Hnew : (h ++ [x]) !! length h = Some x) by apply lookup_new.
  destruct changed.
  - (* a replacement was applied: never [null] *)
    assert (Hnot : (tuples_loop RegExp_i (Loaded nsi) tags (length h) loc
                      (foundQID_of nsi o) true tuples (h ++ [x])).2 <> Ok None).
    { revert Hnew. generalize (h ++ [x]). intros h1 Hnew.
      induction tuples as [|tuple rest IH]; [discriminate|].
      destruct (tuples_loop_step matchTags RegExp_i nsi h1 tags (length h) x loc
                  (foundQID_of nsi o) true tuple rest Hnew)
        as [(item & _ & ->)|[_ ->]]; [apply upgradeTo_not_null|exact IH]. }
    split; [|intros H; contradiction].
    split; [intros H; contradiction|]. intros [H _]. discriminate.
  - rewrite (Hx eq_refl) in *. split.
    + split.
      * intros H. split; [reflexivity|]. intros tuple item Hin Ha.
        destruct (tuples_loop_some matchTags RegExp_i nsi (h ++ [o]) tags (length h) o loc
                    (foundQID_of nsi o) false Hnew tuples) as (item' & E').
        { eauto. }
        rewrite E' in H. revert H. apply upgradeTo_not_null.
      * intros [_ Hnone].
        rewrite (tuples_loop_none matchTags RegExp_i nsi _ _ _ _ _ _ _ Hnew);
          [reflexivity|].
        intros tuple Hin item. now apply Hnone.
    + intros H.
      destruct (actionable_cases matchTags RegExp_i nsi o loc tuples) as [Hsome|Hnone].
      * destruct (tuples_loop_some matchTags RegExp_i nsi (h ++ [o]) tags (length h) o loc
                    (foundQID_of nsi o) false Hnew tuples Hsome) as (item' & E').
        rewrite E' in H. exfalso. revert H. apply upgradeTo_not_null.
      * now rewrite (tuples_loop_none matchTags RegExp_i nsi _ _ _ _ _ _ _ Hnew).
Qed.

End null.

Lemma upgradeTags_null_iff_witness :
  _upgradeTags no_preset no_RegExp (Loaded sample_nsi) 0 None [[("name", "Acme")]]
  = ([[("name", "Acme")]; [("name", "Acme")]], Ok None).
Proof.
  destruct (upgradeTags_null_iff no_preset no_RegExp sample_nsi
              [[("name", "Acme")]] 0 [("name", "Acme")] None eq_refl)
    as (kvs & _ & _ & H).
  - apply NoDup_ListNoDup. repeat constructor. intros [].
  - apply H. vm_compute. reflexivity.
Defined.

End NullFacts.

(** ** What can go wrong on a built index, and what cannot *)

Module SafeFacts.
Import Chars Regex JS NSI Spec SpecMore StoreFacts TupleFacts GatherFacts
       RegexFacts UpgradeFacts BuildFacts HitFacts BranchFacts CrossRefFacts
       LoopFacts BuiltFacts.

Section safe.
Context {Loc : Type}.
Variable Matcher : Data -> Res (@MatchFn Loc).
Variable matchTags : Tags -> string -> Preset.
Variable RegExp_i : string -> Res (string -> bool).

Lemma loadNsiData_data_keys vals0 vals1 vals2 vals3 (nsi : @Nsi Loc) :
  loadNsiData Matcher vals0 vals1 vals2 vals3 = Ok nsi ->
  akeys (data nsi) = akeys vals0.
Proof.
  unfold loadNsiData. destruct (Matcher vals0) as [matcher0|]; [|discriminate].
  simpl. intros E.
  apply (forEach_tkv_inv (fun _ nsi => akeys (data nsi) = akeys vals0))
    with (done := []) in E; [exact E| |reflexivity].
  clear. intros _ nsi1 nsi2 tkv H E.
  destruct (indexCategory_frame _ _ _ E) as (_ & _ & _ & _ & Hd). congruence.
Qed.

Lemma compile_all_Throw patterns e :
  compile_all RegExp_i patterns = Throw e ->
  exists s, In s patterns /\ RegExp_i s = Throw e.
Proof.
  induction patterns as [|s patterns IH]; simpl; [discriminate|].
  destruct (RegExp_i s) as [re|e0] eqn:E0; simpl.
  - destruct (compile_all RegExp_i patterns) as [res|e1]; simpl; [discriminate|].
    intros [= <-]. destruct (IH eq_refl) as (s' & Hin & E'). eauto.
  - intros [= <-]. eauto.
Qed.

(** An upgrade to an item whose category is in the data throws only when
    one of its [preserveTags] patterns does not compile. *)
Lemma upgradeTo_throws (nsi : @Nsi Loc) (h : Heap) tags newTags t o foundQID item category e :
  h !! tags = Some t -> h !! newTags = Some o -> tags <> newTags ->
  aget (key_of (item_tkv item)) (data nsi) = Some category ->
  (upgradeTo RegExp_i (Loaded nsi) tags newTags foundQID item h).2 = Throw e ->
  exists s, In s (preserve_of category item) /\ RegExp_i s = Throw e.
Proof.
  intros Ht Ho Hne Hcat.
  destruct (compile_all RegExp_i (preserve_of category item)) as [regexes|e0] eqn:Ec.
  - destruct (upgradeTo_run RegExp_i nsi h tags newTags t o foundQID item category
                regexes Ht Ho Hne Hcat Ec) as (result & -> & _).
    discriminate.
  - unfold upgradeTo. cbn [nsi_field]. rewrite bind_lift_Ok, Hcat, bind_lift_Ok.
    fold (preserve_of category item). rewrite Ec, bind_lift_Throw. simpl.
    intros [= <-]. now apply compile_all_Throw.
Qed.

(** X16.  On an index that [loadNsiData] has built, [upgradeTags] can fail
    in one way only: it throws exactly what [new RegExp] throws for a
    [preserveTags] pattern of the data that does not compile.  No property
    is read of a missing cache entry: the category of every item the loop
    selects is in the data. *)
Theorem built_index_upgrade_throws vals0 vals1 vals2 vals3 (nsi : @Nsi Loc)
    (h : Heap) tags (o : Tags) loc e :
  loadNsiData Matcher vals0 vals1 vals2 vals3 = Ok nsi ->
  h !! tags = Some o ->
  (_upgradeTags matchTags RegExp_i (Loaded nsi) tags loc h).2 = Throw e ->
  exists item category s,
    In (item_id item, item) (ids nsi) /\
    aget (key_of (item_tkv item)) (data nsi) = Some category /\
    In s (preserve_of category item) /\ RegExp_i s = Throw e.
Proof.
  intros El Hh.
  destruct (upgradeTags_loaded matchTags RegExp_i nsi h tags o loc Hh)
    as (x & changed & kvs & _ & _ & _ & ->).
  destruct (_ && _); [destruct changed; discriminate|].
  destruct (_ && _); [destruct changed; discriminate|].
  assert (Hnew : (h ++ [x]) !! length h = Some x) by apply lookup_new.
  assert (Hold : (h ++ [x]) !! tags = Some o) by now apply lookup_old.
  assert (Hne : tags <> length h).
  { apply lookup_lt_Some in Hh. lia. }
  revert Hnew Hold. generalize (h ++ [x]). intros h1 Hnew Hold.
  induction (gatherTuples kvs (tryNames_of nsi o)) as [|tuple rest IH].
  - destruct changed; discriminate.
  - destruct (tuples_loop_step matchTags RegExp_i nsi h1 tags (length h) x loc
                (foundQID_of nsi o) changed tuple rest Hnew)
      as [(item & Ha & ->)|[_ ->]]; [|exact IH].
    intros Hthrow.
    destruct Ha as (hit0 & hits & before & hit & after & _ & _ & _ & Hq & _).
    destruct Hq as (_ & Hid & _).
    destruct (loadNsiData_ids Matcher _ _ _ _ _ El _ _ Hid)
      as (Hitem & tkv & tree & Hin & _ & Htkv & _).
    assert (Hcat : exists category, aget (key_of (item_tkv item)) (data nsi) = Some category).
    { rewrite Htkv. simpl. apply akeys_aget_Some.
      now rewrite (loadNsiData_data_keys _ _ _ _ _ El). }
    destruct Hcat as (category & Hcat).
    destruct (upgradeTo_throws nsi h1 tags (length h) o x (foundQID_of nsi o) item
                category e Hold Hnew Hne Hcat Hthrow) as (s & Hs & Es).
    exists item, category, s. repeat split; try assumption.
    rewrite Hitem. now apply aget_Some_In.
Qed.

End safe.

Lemma built_index_upgrade_throws_witness :
  exists item category s,
    In (item_id item, item) (ids keeper_nsi) /\
    aget (key_of (item_tkv item)) (data keeper_nsi) = Some category /\
    In s (preserve_of category item) /\ no_RegExp s = Throw SyntaxError.
Proof.
  apply (built_index_upgrade_throws (fun _ => Ok keeper_match) no_preset no_RegExp
           keeper_data [] [] sample_trees keeper_nsi
           [[("shop", "convenience"); ("name", "Keeper")]] 0
           [("shop", "convenience"); ("name", "Keeper")] None SyntaxError).
  - vm_compute. reflexivity.
  - reflexivity.
  - vm_compute. reflexivity.
Defined.

(** X17.  The characters [escapeRegex] escapes are all the characters a
    pattern reads as syntax, and each of them may stand behind a backslash.
    So for a candidate name of any code units of the model (0 to 255), the
    text [escapeRegex] makes of it is read by [new RegExp] as the literal of
    the candidate, the pattern of the branch rule compiles, and it captures
    in the original name exactly when that name is the candidate in any
    letter case, one white-space character and a non-empty remainder
    without line terminators. *)
Theorem escapeRegex_matches_literally (candidate origName : string) :
  (forall c, is_syntax c = true -> is_special c = true) /\
  (forall c, is_special c = true -> is_identity_escape c = true) /\
  literal_pattern (chars (escapeRegex candidate)) = Some (lit_list_i (chars candidate)) /\
  exists result,
    matchBranch (escapeRegex candidate) origName = Ok result /\
    forall remainder, result = Some remainder <-> captures candidate origName remainder.
Proof.
  split; [|split; [|split]].
  - intros c H. destruct (is_special c) eqn:E; [reflexivity|].
    apply syntax_special in E. congruence.
  - apply special_identity_escape.
  - unfold escapeRegex. rewrite chars_str. apply literal_pattern_escape.
  - apply matchBranch_captures.
Qed.

Lemma escapeRegex_matches_literally_witness :
  escapeRegex "A.C+" = str (chars "A" ++ backslash :: chars ".C" ++ backslash :: chars "+") /\
  exists result,
    matchBranch (escapeRegex "A.C+") "a.c+ Riverside" = Ok result /\
    result = Some "Riverside".
Proof.
  split; [reflexivity|].
  destruct (escapeRegex_matches_literally "A.C+" "a.c+ Riverside")
    as (_ & _ & _ & result & E & H).
  exists result. split; [exact E|]. apply H.
  exists (chars "a.c+"), " "%char.
  split; [reflexivity|]. split; [repeat constructor|].
  split; [reflexivity|]. split; [discriminate|reflexivity].
Defined.

(** X18.  A pair is read back at its first two slashes only: for a tag
    whose value holds a slash, the matcher is asked with the part of the
    value before that slash, and the rest of the value plays no role. *)
Theorem tuple_of_cuts_value (n key value rest : string) :
  ~ In "/"%char (chars key) -> ~ In "/"%char (chars value) ->
  tuple_of n (key +:+ "/" +:+ (value +:+ "/" +:+ rest)) = mkTuple key (Some value) n.
Proof.
  intros Hk Hv. unfold tuple_of, split.
  rewrite !chars_app. change (chars "/") with ["/"%char]. simpl app.
  rewrite !split_list_cons by assumption. simpl.
  now rewrite !str_chars.
Qed.

Lemma tuple_of_cuts_value_witness :
  tuple_of "Acme" ("amenity" +:+ "/" +:+ ("cafe" +:+ "/" +:+ "bar"))
  = mkTuple "amenity" (Some "cafe") "Acme".
Proof.
  apply tuple_of_cuts_value; vm_compute; intuition discriminate.
Defined.

End SafeFacts.

(** ** [envs]: the address of the presets *)

Module EnvsFacts.
Import Chars JS NSI Envs TupleFacts GatherFacts.

Lemma unquote_unit c rest : unquote (quote_unit c ++ rest) = c :: unquote rest.
Proof.
  destruct c as [[] [] [] [] [] [] [] []]; reflexivity.
Qed.

Lemma unquote_quote l rest :
  unquote (flat_map quote_unit l ++ rest) = l ++ unquote rest.
Proof.
  induction l as [|c l IH]; simpl; [reflexivity|].
  now rewrite <- app_assoc, unquote_unit, IH.
Qed.

Lemma stringify_inj s1 s2 :
  JSON_stringify (Some s1) = JSON_stringify (Some s2) -> s1 = s2.
Proof.
  unfold JSON_stringify. intros H. apply (f_equal chars) in H.
  rewrite !chars_str in H. injection H as H.
  apply (f_equal unquote) in H. rewrite !unquote_quote in H.
  apply app_inv_tail in H.
  rewrite <- (str_chars s1), <- (str_chars s2). now f_equal.
Qed.

(** What [JSON.stringify] writes for a string is, between its quotes, a
    JSON string that denotes that string. *)
Lemma string_value_unit c rest :
  JSON_string_value (quote_unit c ++ rest) = option_map (cons c) (JSON_string_value rest).
Proof.
  destruct c as [[] [] [] [] [] [] [] []]; reflexivity.
Qed.

Lemma string_value_quote l :
  JSON_string_value (flat_map quote_unit l) = Some l.
Proof.
  induction l as [|c l IH]; simpl; [reflexivity|].
  now rewrite string_value_unit, IH.
Qed.

(** X20.  The value of [ENV__ID_PRESETS_CDN_URL] is the text [null] exactly
    when the variable is not set or is empty, which are not told apart.
    Otherwise it is the address as a JSON string literal: a double quote,
    a text that the JSON grammar of strings accepts and that denotes the
    address, code unit for code unit, and a double quote.  Two different
    addresses never give the same value. *)
Theorem env_presets_url (v1 v2 : option string) :
  (ENV__ID_PRESETS_CDN_URL v1 = "null" <-> v1 = None \/ v1 = Some EmptyString) /\
  (forall url, v1 = Some url -> url <> EmptyString ->
     exists body,
       ENV__ID_PRESETS_CDN_URL v1 = str (dquote :: body ++ [dquote]) /\
       JSON_string_value body = Some (chars url)) /\
  (ENV__ID_PRESETS_CDN_URL v1 = ENV__ID_PRESETS_CDN_URL v2 ->
   or_null v1 = or_null v2).
Proof.
  assert (Hq : forall s, exists body,
            JSON_stringify (Some s) = String dquote body).
  { intros s. unfold JSON_stringify. simpl. eauto. }
  assert (Hn : forall s, JSON_stringify (Some s) <> "null").
  { intros s H. destruct (Hq s) as (body & E). rewrite E in H. discriminate H. }
  unfold ENV__ID_PRESETS_CDN_URL, or_null. split; [|split].
  - destruct (truthy v1) eqn:Et.
    + apply truthy_Some in Et as (s & -> & Hne). split.
      * intros H. now apply Hn in H.
      * intros [H|[= ->]]; [discriminate|contradiction].
    + split; [|reflexivity]. intros _.
      destruct v1 as [s|]; [|now left]. right. simpl in Et.
      destruct (nonempty s) eqn:En; [discriminate|].
      unfold nonempty in En. apply negb_false_iff, String.eqb_eq in En. now subst.
  - intros url -> Hne. simpl. apply nonempty_true in Hne. rewrite Hne.
    exists (flat_map quote_unit (chars url)).
    split; [reflexivity|apply string_value_quote].
  - destruct (truthy v1) eqn:E1, (truthy v2) eqn:E2; try reflexivity.
    + apply truthy_Some in E1 as (s1 & -> & _), E2 as (s2 & -> & _).
      intros H. apply stringify_inj in H. now subst.
    + apply truthy_Some in E1 as (s1 & -> & _). intros H. now apply Hn in H.
    + apply truthy_Some in E2 as (s2 & -> & _). intros H. symmetry in H.
      now apply Hn in H.
Qed.

Lemma env_presets_url_witness :
  exists body,
    ENV__ID_PRESETS_CDN_URL (Some (String dquote "cdn"))
    = str (dquote :: body ++ [dquote]) /\
    JSON_string_value body = Some (dquote :: chars "cdn").
Proof.
  destruct (env_presets_url (Some (String dquote "cdn")) None) as (_ & H & _).
  apply (H (String dquote "cdn")); [reflexivity|discriminate].
Defined.

End EnvsFacts.
